(** * SugarDB core: keyspace locks, command registry, dispatcher, linked list

    A shallow embedding of [src/main.go] (the [Server] type: per-key locks,
    the command map, the per-connection read loop) and of
    [server/utils/linked_list.go] (the generic ring/linear linked list),
    with the properties the design document states about them. *)

From Stdlib Require Import Ascii String.
From stdpp Require Import gmap strings list fin_maps.

Set Default Proof Using "Type".

(** ** Outcomes of a Go call

    A call either returns, stops the program with a run-time fault, or is
    still running when the model's fuel (an upper bound on loop iterations)
    is used up. *)
Inductive fault : Type :=
  | NilDereference      (* invalid memory address or nil pointer dereference *)
  | IndexOutOfRange     (* index out of range on a slice *)
  | UnlockOfUnlocked.   (* sync: unlock of an unlocked mutex *)

#[global] Instance fault_eq_dec : EqDecision fault.
Proof. solve_decision. Defined.

Inductive result (A : Type) : Type :=
  | Done (a : A)
  | Panic (why : fault)
  | Timeout.
Arguments Done {A} a.
Arguments Panic {A} why.
Arguments Timeout {A}.

Definition is_Timeout {A} (r : result A) : bool :=
  match r with Timeout => true | _ => false end.

#[global] Instance result_ret : MRet result := fun _ a => Done a.
#[global] Instance result_bind : MBind result := fun _ _ k r =>
  match r with
  | Done a => k a
  | Panic w => Panic w
  | Timeout => Timeout
  end.

(** [H] says that an element belongs to an explicit list that does not
    hold it. *)
Ltac not_in_list H :=
  repeat (apply elem_of_cons in H as [?|H]; [done|]);
  by apply elem_of_nil in H.

(** * server/utils/linked_list.go *)
Module LinkedList.
Section linked_list.
Context {T : Type} `{EqDecision T}.

(** A [*Node[T]] is [None] for nil and [Some a] for the node at address
    [a]; the heap, of type [list Node], holds the allocated nodes, each at
    the address that is its position. *)
Definition ptr : Type := option nat.

Record Node : Type := mkNode { value : T; next : ptr }.

Record LinkedList : Type := mkList { head : ptr; tail : ptr; ring : bool }.

Definition state : Type := (list Node * LinkedList)%type.

Definition ptr_eqb (p q : ptr) : bool := bool_decide (p = q).

Definition is_nil (p : ptr) : bool := bool_decide (p = None).

(** [NewNode(value, next)]: allocation at the next free address. *)
Definition NewNode (v : T) (nx : ptr) (h : list Node) : ptr * list Node :=
  (Some (length h), h ++ [mkNode v nx]).

(** Reading through a pointer; nil panics. *)
Definition load (h : list Node) (p : ptr) : result Node :=
  match p with
  | None => Panic NilDereference
  | Some a =>
    match h !! a with Some n => Done n | None => Panic NilDereference end
  end.

(** [p.next = q]; nil panics. *)
Definition set_next (h : list Node) (p q : ptr) : result (list Node) :=
  n ← load h p;
  match p with
  | Some a => Done (<[a := mkNode (value n) q]> h)
  | None => Panic NilDereference
  end.

Definition NewLinkedList (options_Ring : bool) : state :=
  ([], mkList None None options_Ring).

Definition Add (v : T) (st : state) : result state :=
  let '(h, l) := st in
  if is_nil (head l) then
    let '(p, h1) := NewNode v None h in
    Done (h1, mkList p (tail l) (ring l))
  else if is_nil (tail l) && negb (ring l) then
    let '(p, h1) := NewNode v None h in
    h2 ← set_next h1 (head l) p;
    Done (h2, mkList (head l) p (ring l))
  else if is_nil (tail l) && ring l then
    let '(p, h1) := NewNode v (head l) h in
    h2 ← set_next h1 (head l) p;
    Done (h2, mkList (head l) p (ring l))
  else if negb (ring l) then
    let '(n, h1) := NewNode v None h in
    h2 ← set_next h1 (tail l) n;
    Done (h2, mkList (head l) n (ring l))
  else
    let '(n, h1) := NewNode v (head l) h in
    h2 ← set_next h1 (tail l) n;
    Done (h2, mkList (head l) n (ring l)).

(** The scanning loop of [Contains], from the node after the head. *)
Fixpoint Contains_loop (fuel : nat) (h : list Node) (l : LinkedList) (v : T)
    (n : ptr) : result bool :=
  match fuel with
  | 0 => Timeout
  | S fuel' =>
    if is_nil n || ptr_eqb n (head l) then Done false
    else
      nd ← load h n;
      if bool_decide (value nd = v) then Done true
      else Contains_loop fuel' h l v (next nd)
  end.

Definition Contains (fuel : nat) (v : T) (st : state) : result bool :=
  let '(h, l) := st in
  if is_nil (head l) then Done false
  else
    hd ← load h (head l);
    if bool_decide (value hd = v) then Done true
    else if is_nil (next hd) && negb (bool_decide (value hd = v))
    then Done false
    else Contains_loop fuel h l v (next hd).

(** The loop of the linear branch of [Remove]. *)
Fixpoint Remove_linear_loop (fuel : nat) (h : list Node) (l : LinkedList) (v : T)
    (n : ptr) : result state :=
  match fuel with
  | 0 => Timeout
  | S fuel' =>
    nd ← load h n;
    nx ← load h (next nd);
    if bool_decide (value nx = v) then
      h1 ← set_next h n (next nx);
      if is_nil (next nx) then Done (h1, mkList (head l) n (ring l))
      else Done (h1, l)
    else Remove_linear_loop fuel' h l v (next nd)
  end.

(** The loop of the ring branch of [Remove]: it has no [return] after
    unlinking a node that is not the tail. *)
Fixpoint Remove_ring_loop (fuel : nat) (h : list Node) (l : LinkedList) (v : T)
    (n : ptr) : result state :=
  match fuel with
  | 0 => Timeout
  | S fuel' =>
    if ptr_eqb n (head l) then Done (h, l)
    else
      nd ← load h n;
      nx ← load h (next nd);
      if bool_decide (value nx = v) then
        if ptr_eqb (next nd) (tail l) then
          h1 ← set_next h n (head l);
          Done (h1, mkList (head l) n (ring l))
        else
          h1 ← set_next h n (next nx);
          Remove_ring_loop fuel' h1 l v (next nx)
      else Remove_ring_loop fuel' h l v (next nd)
  end.

Definition Remove (fuel : nat) (v : T) (st : state) : result state :=
  let '(h, l) := st in
  c ← Contains fuel v st;
  if negb c then Done st
  else
    let n := head l in
    if is_nil n then Done st
    else
      hd ← load h n;
      if is_nil (next hd) && negb (bool_decide (value hd = v)) then Done st
      else if is_nil (next hd) && bool_decide (value hd = v) then
        Done (h, mkList None (tail l) (ring l))
      else if negb (ring l) then
        if bool_decide (value hd = v) then
          Done (h, mkList (next hd) (tail l) (ring l))
        else Remove_linear_loop fuel h l v n
      else if bool_decide (value hd = v) then
        (* l.head = l.head.next; l.tail.next = l.head *)
        let l1 := mkList (next hd) (tail l) (ring l) in
        h1 ← set_next h (tail l1) (head l1);
        if ptr_eqb (head l1) (tail l1) then
          Done (h1, mkList (head l1) None (ring l1))
        else Done (h1, l1)
      else
        nx ← load h (next hd);
        if bool_decide (value nx = v) then
          if negb (ptr_eqb (next hd) (tail l)) then
            h1 ← set_next h (head l) (next nx);
            Done (h1, l)
          else
            h1 ← set_next h (head l) None;
            Done (h1, l)
        else Remove_ring_loop fuel h l v (next hd).

(** One turn of the goroutine started by [Iter], at node [n]: it either
    leaves the loop and closes the channel, or sends [n] and goes on at
    the returned pointer. *)
Inductive iter_step : Type :=
  | IterClose
  | IterSend (sent : nat) (next_n : ptr)
  | IterPanic.

Definition Iter_step (h : list Node) (l : LinkedList) (n : ptr) : iter_step :=
  match n with
  | None => IterClose
  | Some a =>
    match h !! a with
    | None => IterPanic
    | Some nd =>
      if ptr_eqb n (head l) && is_nil (next nd) && ring l
      then IterSend a n
      else IterSend a (next nd)
    end
  end.

(** The nodes sent on the channel during at most [fuel] turns of the loop,
    and whether the channel has been closed by then. *)
Fixpoint Iter_loop (fuel : nat) (h : list Node) (l : LinkedList) (n : ptr)
    : list nat * bool :=
  match fuel with
  | 0 => ([], false)
  | S fuel' =>
    match Iter_step h l n with
    | IterClose => ([], true)
    | IterPanic => ([], false)
    | IterSend a n' =>
      let '(sent, closed) := Iter_loop fuel' h l n' in (a :: sent, closed)
    end
  end.

Definition Iter (fuel : nat) (st : state) : list nat * bool :=
  Iter_loop fuel (fst st) (snd st) (head (snd st)).

(** [Add] applied to each value in turn, from an empty list. *)
Definition build (rg : bool) (vs : list T) : result state :=
  foldl (fun r v => st ← r; Add v st) (Done (NewLinkedList rg)) vs.

(** The values met when following [next] from the head, up to nil or to
    the head again (at most [fuel] nodes): the traversal of [Print]. *)
Fixpoint walk (fuel : nat) (h : list Node) (stop : ptr) (n : ptr) : list T :=
  match fuel with
  | 0 => []
  | S fuel' =>
    match n with
    | None => []
    | Some a =>
      match h !! a with
      | None => []
      | Some nd =>
        value nd ::
          (if ptr_eqb (next nd) stop then [] else walk fuel' h stop (next nd))
      end
    end
  end.

Definition values (fuel : nat) (st : state) : list T :=
  walk fuel (fst st) (head (snd st)) (head (snd st)).

(** [lseg h p ns q]: following [next] from [p] visits the nodes at
    addresses [ns], in this order, and then arrives at [q]. *)
Inductive lseg (h : list Node) : ptr → list nat → ptr → Prop :=
  | lseg_nil p : lseg h p [] p
  | lseg_cons a nd ns q :
      h !! a = Some nd →
      lseg h (next nd) ns q →
      lseg h (Some a) (a :: ns) q.

(** The shapes [Add] builds. A linear list is a chain from the head to
    nil. A ring is either one node whose [next] is nil (the first [Add]
    does not close the ring) or a cycle that leaves the head and comes
    back to it. *)
Definition linear_shape (st : state) (ns : list nat) : Prop :=
  ring (snd st) = false ∧ lseg (fst st) (head (snd st)) ns None.

Definition ring_single (st : state) (a : nat) : Prop :=
  ring (snd st) = true ∧ head (snd st) = Some a ∧
  ∃ nd, fst st !! a = Some nd ∧ next nd = None.

Definition ring_cycle (st : state) (ns : list nat) : Prop :=
  ring (snd st) = true ∧ ns ≠ [] ∧
  lseg (fst st) (head (snd st)) ns (head (snd st)).

(** The heap and the list that [build rg vs] ends with: node [i] holds
    [vs !! i]; its [next] is node [i + 1], or for the last node the head
    when the list is a ring of at least two nodes, and nil otherwise. The
    tail is set from the second [Add] on. *)
Definition last_next (rg : bool) (n : nat) : ptr :=
  if rg && bool_decide (2 ≤ n) then Some 0 else None.

Definition nodes_of (rg : bool) (vs : list T) : list Node :=
  imap (fun i v =>
    mkNode v (if decide (S i < length vs) then Some (S i)
              else last_next rg (length vs))) vs.

Definition list_of (rg : bool) (vs : list T) : LinkedList :=
  mkList (match vs with [] => None | _ => Some 0 end)
         (if decide (2 ≤ length vs) then Some (length vs - 1) else None)
         rg.

End linked_list.
End LinkedList.

(** Three lists of numbers as [Add] builds them: a linear list of three
    nodes, a ring of one node and a ring of two. *)
Definition linear_three : LinkedList.state (T:=nat) :=
  ([LinkedList.mkNode 10 (Some 1); LinkedList.mkNode 20 (Some 2);
    LinkedList.mkNode 30 None],
   LinkedList.mkList (Some 0) (Some 2) false).

Definition ring_one : LinkedList.state (T:=nat) :=
  ([LinkedList.mkNode 10 None], LinkedList.mkList (Some 0) None true).

Definition ring_two : LinkedList.state (T:=nat) :=
  ([LinkedList.mkNode 10 (Some 1); LinkedList.mkNode 20 (Some 0)],
   LinkedList.mkList (Some 0) (Some 1) true).

(** * src/main.go *)

Definition CR : ascii := ascii_of_nat 13.
Definition LF : ascii := ascii_of_nat 10.
(** The two bytes ["\r\n"] and the single byte ["\n"]. *)
Definition CRLF : string := String CR (String LF EmptyString).
Definition NL : string := String LF EmptyString.

(** ** Package [strings] *)
Module strings.

Definition is_upper (c : ascii) : bool :=
  (65 <=? nat_of_ascii c) && (nat_of_ascii c <=? 90).

Definition is_lower (c : ascii) : bool :=
  (97 <=? nat_of_ascii c) && (nat_of_ascii c <=? 122).

(** [strings.EqualFold] on its ASCII loop: the bytes are equal, or the
    smaller one is an upper-case letter and the larger one is that letter
    plus ['a'-'A']. Command names are ASCII keywords; Go's continuation
    with Unicode simple folding, taken when a byte is 0x80 or more, is
    outside this model, where such bytes only match themselves. *)
Fixpoint EqualFold (s t : string) : bool :=
  match s, t with
  | EmptyString, EmptyString => true
  | String sr s', String tr t' =>
    if bool_decide (tr = sr) then EqualFold s' t'
    else
      let '(lo, hi) :=
        if nat_of_ascii tr <? nat_of_ascii sr then (tr, sr) else (sr, tr) in
      if is_upper lo && (nat_of_ascii hi =? nat_of_ascii lo + 32)
      then EqualFold s' t'
      else false
  | _, _ => false
  end.

(** [strings.ToUpper] and [strings.ToLower] on ASCII. *)
Definition upper_byte (c : ascii) : ascii :=
  if is_lower c then ascii_of_nat (nat_of_ascii c - 32) else c.

Definition lower_byte (c : ascii) : ascii :=
  if is_upper c then ascii_of_nat (nat_of_ascii c + 32) else c.

Fixpoint ToUpper (s : string) : string :=
  match s with
  | EmptyString => EmptyString
  | String c s' => String (upper_byte c) (ToUpper s')
  end.

Fixpoint ToLower (s : string) : string :=
  match s with
  | EmptyString => EmptyString
  | String c s' => String (lower_byte c) (ToLower s')
  end.

End strings.

(** ** Package [utils]: the types [main.go] uses, as it uses them *)
Module utils.

Record SubCommand : Type := mkSubCommand {
  sub_Command : string;
  sub_Categories : list string;
  sub_Sync : bool
}.

Record Command : Type := mkCommand {
  cmd_Command : string;
  cmd_Categories : list string;
  cmd_Description : string;
  cmd_Sync : bool;
  cmd_SubCommands : list SubCommand
}.

(** A [Plugin] lists its commands; its [HandleCommand] is run by the
    environment (see [World] below). *)
Record Plugin : Type := mkPlugin {
  plugin_Name : string;
  plugin_Commands : list Command
}.

Record ServerCommand : Type := mkServerCommand {
  sc_Command : Command;
  sc_Plugin : Plugin
}.

Record Config : Type := mkConfig {
  BootstrapCluster : bool;
  JoinAddr : string
}.

Record ApplyRequest : Type := mkApplyRequest {
  ServerID : string;
  ConnectionID : string;
  CMD : list string
}.

Record ApplyResponse : Type := mkApplyResponse {
  resp_Error : option string;
  resp_Response : string
}.

#[global] Instance SubCommand_eq_dec : EqDecision SubCommand.
Proof. solve_decision. Defined.
#[global] Instance Command_eq_dec : EqDecision Command.
Proof. solve_decision. Defined.
#[global] Instance Plugin_eq_dec : EqDecision Plugin.
Proof. solve_decision. Defined.
#[global] Instance ServerCommand_eq_dec : EqDecision ServerCommand.
Proof. solve_decision. Defined.

End utils.

Module main.
Import utils.

(** *** Per-key locks *)

(** The state of a [sync.RWMutex], as far as [TryLock], [TryRLock],
    [Unlock] and [RUnlock] can tell: whether a writer holds it and how many
    readers do. *)
Record RWMutex : Type := mkRWMutex { writer : bool; readers : nat }.

Definition TryLock (m : RWMutex) : bool * RWMutex :=
  if writer m || (0 <? readers m) then (false, m)
  else (true, mkRWMutex true (readers m)).

Definition TryRLock (m : RWMutex) : bool * RWMutex :=
  if writer m then (false, m)
  else (true, mkRWMutex false (S (readers m))).

Definition Unlock (m : RWMutex) : result RWMutex :=
  if writer m then Done (mkRWMutex false (readers m))
  else Panic UnlockOfUnlocked.

Definition RUnlock (m : RWMutex) : result RWMutex :=
  match readers m with
  | 0 => Panic UnlockOfUnlocked
  | S r => Done (mkRWMutex (writer m) r)
  end.

(** The fields of [Server] that the operations below read or write.
    [keyLocks] maps a key to its lock, an absent key to nil;
    [keyCreationLock] is [true] while the creation mutex is held. *)
Record Server : Type := mkServer {
  config : Config;
  keyLocks : gmap string RWMutex;
  keyCreationLock : bool;
  commands : gmap string ServerCommand
}.

Definition set_keyLocks (s : Server) (kl : gmap string RWMutex) : Server :=
  mkServer (config s) kl (keyCreationLock s) (commands s).

Definition set_keyCreationLock (s : Server) (b : bool) : Server :=
  mkServer (config s) (keyLocks s) b (commands s).

Definition set_commands (s : Server) (c : gmap string ServerCommand) : Server :=
  mkServer (config s) (keyLocks s) (keyCreationLock s) c.

(** [context.Cause(ctx)]. *)
Inductive Cause : Type :=
  | Canceled
  | DeadlineExceeded
  | CustomCause (e : string).

(** A [context.Context] as the polling loop sees it: at its [i]-th turn
    [ctx.Done()] is either not ready ([None]) or ready, with the cause. *)
Definition Context : Type := nat → option Cause.

(** What the other goroutines do to the lock table while this one waits
    for the [i]-th tick. *)
Definition Others : Type := nat → gmap string RWMutex → gmap string RWMutex.

(** The period of the ticker of [KeyLock] and [KeyRLock], in ms. *)
Definition tickerPeriod : nat := 5.

Inductive Event : Type :=
  | EvGateLock                          (* keyCreationLock.Lock() returned *)
  | EvGateUnlock                        (* keyCreationLock.Unlock() *)
  | EvInstall (key : string)            (* keyLocks[key] = keyLock *)
  | EvTryLock (key : string) (ok : bool)
  | EvTryRLock (key : string) (ok : bool)
  | EvTick (ms : nat).                  (* <-ticker.C *)

#[global] Instance Event_eq_dec : EqDecision Event.
Proof. solve_decision. Defined.

Inductive mode : Type := Write | Read.

Definition try (md : mode) : RWMutex → bool * RWMutex :=
  match md with Write => TryLock | Read => TryRLock end.

Definition EvTry (md : mode) : string → bool → Event :=
  match md with Write => EvTryLock | Read => EvTryRLock end.

(** What a call leaves behind: its outcome, the server, the events. *)
Definition run (A : Type) : Type := (result A * Server * list Event)%type.

(** The loop shared by [KeyLock] ([md = Write]) and [KeyRLock]
    ([md = Read]), from its [i]-th turn on. A ready [ctx.Done()] is taken
    before the [default] branch of the [select]. *)
Fixpoint keyLockLoop (md : mode) (fuel : nat) (ctx : Context) (others : Others)
    (i : nat) (s : Server) (key : string) : run (bool * option Cause) :=
  match fuel with
  | 0 => (Timeout, s, [])
  | S fuel' =>
    match ctx i with
    | Some cause => (Done (false, Some cause), s, [])
    | None =>
      match keyLocks s !! key with
      | None => (Panic NilDereference, s, [])
      | Some m =>
        let '(ok, m') := try md m in
        if ok then
          (Done (true, None), set_keyLocks s (<[key := m']> (keyLocks s)),
           [EvTry md key true])
        else
          let '(r, s', tr) :=
            keyLockLoop md fuel' ctx others (S i)
              (set_keyLocks s (others i (keyLocks s))) key in
          (r, s', EvTry md key false :: EvTick tickerPeriod :: tr)
      end
    end
  end.

Definition KeyLock (fuel : nat) (ctx : Context) (others : Others)
    (s : Server) (key : string) : run (bool * option Cause) :=
  keyLockLoop Write fuel ctx others 0 s key.

Definition KeyRLock (fuel : nat) (ctx : Context) (others : Others)
    (s : Server) (key : string) : run (bool * option Cause) :=
  keyLockLoop Read fuel ctx others 0 s key.

Definition KeyUnlock (s : Server) (key : string) : result Server :=
  match keyLocks s !! key with
  | None => Panic NilDereference
  | Some m =>
    m' ← Unlock m; Done (set_keyLocks s (<[key := m']> (keyLocks s)))
  end.

Definition KeyRUnlock (s : Server) (key : string) : result Server :=
  match keyLocks s !! key with
  | None => Panic NilDereference
  | Some m =>
    m' ← RUnlock m; Done (set_keyLocks s (<[key := m']> (keyLocks s)))
  end.

Definition KeyExists (s : Server) (key : string) : bool :=
  bool_decide (keyLocks s !! key ≠ None).

(** [CreateKeyAndLock]. The deferred [keyCreationLock.Unlock()] runs when
    the function returns or panics, so after [KeyLock] is over; a call that
    finds the mutex taken waits in [Lock()]. *)
Definition CreateKeyAndLock (fuel : nat) (ctx : Context) (others : Others)
    (s : Server) (key : string) : run (bool * option Cause) :=
  if keyCreationLock s then (Timeout, s, [])
  else
    let s1 := set_keyCreationLock s true in
    if negb (KeyExists s1 key) then
      let keyLock := mkRWMutex true 0 in
      let s2 := set_keyLocks s1 (<[key := keyLock]> (keyLocks s1)) in
      (Done (true, None), set_keyCreationLock s2 false,
       [EvGateLock; EvInstall key; EvGateUnlock])
    else
      let '(r, s2, tr) := KeyLock fuel ctx others s1 key in
      match r with
      | Timeout => (Timeout, s2, EvGateLock :: tr)
      | _ =>
        (r, set_keyCreationLock s2 false, EvGateLock :: tr ++ [EvGateUnlock])
      end.

(** Whether the creation mutex is held after the events [tr], when it was
    [held] before them. *)
Definition gate_after (held : bool) (tr : list Event) : bool :=
  foldl (fun b e =>
    match e with EvGateLock => true | EvGateUnlock => false | _ => b end)
    held tr.

(** The lock table at the [k]-th turn of a polling loop that started at
    turn [i0] on the table [kl], when no turn before it took the lock. *)
Fixpoint locks_from (others : Others) (i0 : nat) (kl : gmap string RWMutex)
    (k : nat) : gmap string RWMutex :=
  match k with
  | 0 => kl
  | S k' => locks_from others (S i0) (others i0 kl) k'
  end.

(** [n] turns that found the lock taken, each followed by a tick. *)
Definition waits (md : mode) (key : string) (n : nat) : list Event :=
  mjoin (replicate n [EvTry md key false; EvTick 5]).

Definition is_poll (e : Event) : bool :=
  match e with
  | EvTryLock _ _ | EvTryRLock _ _ | EvTick _ => true
  | _ => false
  end.

(** Every poll of the trace happens while the creation mutex is free. *)
Definition polls_with_gate_free (tr : list Event) : Prop :=
  ∀ i e, tr !! i = Some e → is_poll e = true →
         gate_after false (take i tr) = false.

(** Every poll of the trace happens while the creation mutex is held. *)
Definition polls_with_gate_held (tr : list Event) : Prop :=
  ∀ i e, tr !! i = Some e → is_poll e = true →
         gate_after false (take i tr) = true.

(** Two small servers for the examples: the key ["k"] with its lock free,
    and with its lock held by a writer. *)
Definition server_free : Server :=
  mkServer (mkConfig false EmptyString) {["k"%string := mkRWMutex false 0]}
    false ∅.

Definition server_held : Server :=
  mkServer (mkConfig false EmptyString) {["k"%string := mkRWMutex true 0]}
    false ∅.

Definition never_done : Context := fun _ => None.
Definition done_from (t : nat) (c : Cause) : Context :=
  fun i => if t <=? i then Some c else None.
Definition nobody : Others := fun _ kl => kl.
(** The writer that holds ["k"] releases it during the wait of turn [t]. *)
Definition release_at (t : nat) : Others :=
  fun i kl => if i =? t then <["k"%string := mkRWMutex false 0]> kl else kl.

(** *** The command map *)

(** The body of the loop of [getCommand], over the entries of
    [server.commands] in the order [range] delivers them. *)
Fixpoint getCommand_in (order : list (string * ServerCommand)) (cmd : string)
    : ServerCommand + string :=
  match order with
  | [] => inr ("command " +:+ cmd +:+ " not supported")
  | (key, command) :: rest =>
    if strings.EqualFold key cmd then inl command
    else getCommand_in rest cmd
  end.

(** Go leaves the order of [range] over a map open: [getCommand] may
    return [r] when some order of the entries makes the loop return it. *)
Definition getCommand (s : Server) (cmd : string)
    (r : ServerCommand + string) : Prop :=
  ∃ order, order ≡ₚ map_to_list (commands s) ∧ getCommand_in order cmd = r.

(** The outcome of a lookup without the text of its error: the command,
    or [None] for "not supported". *)
Definition found (r : ServerCommand + string) : option ServerCommand :=
  match r with inl command => Some command | inr _ => None end.

(** The assignment in the loop of [LoadCommands]. *)
Definition register (plugin : Plugin) (s : Server) (command : Command) : Server :=
  set_commands s
    (<[cmd_Command command := mkServerCommand command plugin]> (commands s)).

Definition LoadCommands (s : Server) (plugin : Plugin) : Server :=
  foldl (register plugin) s (plugin_Commands plugin).

Definition IsInCluster (s : Server) : bool :=
  BootstrapCluster (config s) ||
  negb (bool_decide (JoinAddr (config s) = EmptyString)).

(** Two commands whose names differ by case only, from two plugins. *)
Definition command_get : Command := mkCommand "get" [] EmptyString false [].
Definition command_GET : Command := mkCommand "GET" [] EmptyString true [].
Definition plugin_a : Plugin := mkPlugin "a" [command_get].
Definition plugin_b : Plugin := mkPlugin "b" [command_GET].
Definition server_empty : Server :=
  mkServer (mkConfig false EmptyString) ∅ false ∅.

(** *** The connection loop *)

(** [applyFuture.Error()] and [applyFuture.Response()]. *)
Inductive ApplyFuture : Type :=
  | FutureError (e : string)
  | FutureOther                          (* not a utils.ApplyResponse *)
  | FutureResponse (r : ApplyResponse).

(** What [handleConnection] calls outside [main.go] during one turn of its
    loop, and what it gets back. *)
Record Env : Type := mkEnv {
  Decode : string → list string + string;
  GetSubCommand : ServerCommand → list string → option SubCommand;
  AuthorizeConnection : list string → Command → option SubCommand → option string;
  HandleCommand : Plugin → list string → string + string;
  json_Marshal : ApplyRequest → string + string;
  isRaftLeader : bool;
  raft_Apply : string → nat → ApplyFuture;
  (* the order of [range server.commands] in the two calls of [getCommand] *)
  range_dispatch : list (string * ServerCommand);
  range_plugin : list (string * ServerCommand);
  (* fmt's %v of the zero utils.ApplyResponse *)
  fmt_ApplyResponse : string
}.

Inductive ConnEvent : Type :=
  | EvWrite (bytes : string)
  | EvFlush
  | EvHandle (plugin : Plugin) (cmd : list string)
  | EvRaftApply (b : string) (timeout_ms : nat)
  | EvPrintln (e : string)
  | EvPanic (why : fault)
  | EvClose.

#[global] Instance ConnEvent_eq_dec : EqDecision ConnEvent.
Proof. solve_decision. Defined.

Definition handlePluginCommand (w : Env) (cmd : list string)
    : result (string + string) * list ConnEvent :=
  match cmd with
  | [] => (Panic IndexOutOfRange, [])
  | cmd0 :: _ =>
    match getCommand_in (range_plugin w) cmd0 with
    | inr err => (Done (inr err), [])
    | inl command =>
      (Done (HandleCommand w (sc_Plugin command) cmd),
       [EvHandle (sc_Plugin command) cmd])
    end
  end.

(** Lines 201-250: the command goes through the raft log. *)
Definition replicate (w : Env) (serverId connectionId : string)
    (cmd : list string) : list ConnEvent :=
  let applyRequest := mkApplyRequest serverId connectionId cmd in
  match json_Marshal w applyRequest with
  | inr _ => [EvWrite ("-Error could not parse request" +:+ CRLF +:+ NL); EvFlush]
  | inl b =>
    if isRaftLeader w then
      EvRaftApply b 500 ::
      match raft_Apply w b 500 with
      | FutureError e => [EvWrite ("-Error " +:+ e +:+ CRLF +:+ NL); EvFlush]
      | FutureOther =>
        [EvWrite ("-Error unprocessable entity " +:+ fmt_ApplyResponse w
                  +:+ CRLF +:+ NL); EvFlush]
      | FutureResponse r =>
        match resp_Error r with
        | Some e => [EvWrite ("-Error " +:+ e +:+ CRLF +:+ NL); EvFlush]
        | None => [EvWrite (resp_Response r); EvFlush]
        end
      end
    else
      [EvWrite ("-Error not cluster leader, cannot carry out command"
                +:+ CRLF +:+ NL); EvFlush]
  end.

(** The [synchronize] flag after the subcommand has been looked up. *)
Definition synchronize (w : Env) (command : ServerCommand) (cmd : list string)
    : bool :=
  match GetSubCommand w command cmd with
  | Some subCommand => sub_Sync subCommand
  | None => cmd_Sync (sc_Command command)
  end.

(** One turn of the loop of [handleConnection] on a message that was read:
    the events, and a fault when the turn panics. *)
Definition handleMessage (s : Server) (w : Env) (serverId connectionId : string)
    (message : string) : list ConnEvent * option fault :=
  match Decode w message with
  | inr err => ([EvWrite ("-Error " +:+ err +:+ CRLF +:+ NL); EvFlush], None)
  | inl cmd =>
    match cmd with
    | [] => ([], Some IndexOutOfRange)
    | cmd0 :: _ =>
      match getCommand_in (range_dispatch w) cmd0 with
      | inr err => ([EvWrite ("-" +:+ err +:+ CRLF +:+ NL); EvFlush], None)
      | inl command =>
        match AuthorizeConnection w cmd (sc_Command command)
                (GetSubCommand w command cmd) with
        | Some err => ([EvWrite ("-" +:+ err +:+ CRLF +:+ NL); EvFlush], None)
        | None =>
          if negb (IsInCluster s) || negb (synchronize w command cmd) then
            match handlePluginCommand w cmd with
            | (Done (inr err), evs) =>
              (evs ++ [EvWrite ("-" +:+ err +:+ CRLF +:+ NL); EvFlush], None)
            | (Done (inl res), evs) => (evs ++ [EvWrite res; EvFlush], None)
            | (Panic why, evs) => (evs, Some why)
            | (Timeout, evs) => (evs, None)
            end
          else (replicate w serverId connectionId cmd, None)
        end
      end
    end
  end.

Inductive ReadResult : Type :=
  | ReadEOF
  | ReadError (e : string)
  | ReadMessage (message : string).

(** [handleConnection] on the results of its successive [ReadMessage]
    calls, each with the environment of that turn. *)
Fixpoint handleConnection (s : Server) (serverId connectionId : string)
    (input : list (ReadResult * Env)) : list ConnEvent :=
  match input with
  | [] => []
  | (ReadEOF, _) :: _ => [EvClose]
  | (ReadError e, _) :: rest =>
    EvPrintln e :: handleConnection s serverId connectionId rest
  | (ReadMessage message, w) :: rest =>
    match handleMessage s w serverId connectionId message with
    | (evs, Some why) => evs ++ [EvPanic why]
    | (evs, None) => evs ++ handleConnection s serverId connectionId rest
    end
  end.

(** An error line as the loop writes it: ["-"], a message, ["\r\n"] and
    one more ["\n"]. *)
Definition error_line (bytes : string) : Prop :=
  ∃ msg, bytes = "-" +:+ msg +:+ CRLF +:+ NL.

(** The bytes a handler returned without an error, after it was run
    during the events [evs]. *)
Definition handler_payload (w : Env) (evs : list ConnEvent) (bytes : string)
    : Prop :=
  ∃ plugin cmd, EvHandle plugin cmd ∈ evs ∧
                HandleCommand w plugin cmd = inl bytes.

(** The bytes of an [ApplyResponse] without an error, after the request
    was submitted to raft during the events [evs]. *)
Definition applied_payload (w : Env) (evs : list ConnEvent) (bytes : string)
    : Prop :=
  ∃ b r, EvRaftApply b 500 ∈ evs ∧ raft_Apply w b 500 = FutureResponse r ∧
         resp_Error r = None ∧ resp_Response r = bytes.

(** A clustered server with the one command [SET], which is replicated,
    and a turn of the loop on a follower and on a node outside a cluster. *)
Definition command_SET : Command :=
  mkCommand "SET" ["write"%string] EmptyString true [].
Definition plugin_str : Plugin := mkPlugin "string" [command_SET].
Definition server_SET (bootstrap : bool) : Server :=
  mkServer (mkConfig bootstrap EmptyString) ∅ false
    {["SET"%string := mkServerCommand command_SET plugin_str]}.
Definition env_SET (leader : bool) (handled : string + string) : Env :=
  mkEnv (fun _ => inl ["set"; "foo"; "1"]%string)
        (fun _ _ => None)
        (fun _ _ _ => None)
        (fun _ _ => handled)
        (fun _ => inl "{}"%string)
        leader
        (fun _ _ => FutureError "timed out")
        [("SET"%string, mkServerCommand command_SET plugin_str)]
        [("SET"%string, mkServerCommand command_SET plugin_str)]
        "{<nil> []}".

End main.

(** * Further definitions *)

(** ** The contents of a linked list *)
Section list_contents.
Import LinkedList.
Context {T : Type} `{EqDecision T}.

(** The values held by the nodes at the addresses [ns]. *)
Definition node_values (h : list (@Node T)) (ns : list nat) : list T :=
  omap (fun a => value <$> h !! a) ns.

End list_contents.
Arguments node_values {T} h ns : simpl never.

(** ** [Contains] and [Remove] under any [==] *)

(** Go's [==] on a [comparable] element type is not always the equality of
    values: a floating-point NaN is different from itself. [Contains] and
    [Remove] are given here once more, line for line as in [LinkedList],
    with a test [eqb] where the source has [==] (and its negation where the
    source has [!=]); those of [LinkedList] are these at the test
    [bool_decide (x = y)]. The test is total: a comparison of interface
    values that panics is not modelled. *)
Module Comparable.
Section comparable.
Import LinkedList.
Context {T : Type} (eqb : T → T → bool).

(** The scanning loop of [Contains], from the node after the head. *)
Fixpoint Contains_loop (fuel : nat) (h : list Node) (l : LinkedList) (v : T)
    (n : ptr) : result bool :=
  match fuel with
  | 0 => Timeout
  | S fuel' =>
    if is_nil n || ptr_eqb n (head l) then Done false
    else
      nd ← load h n;
      if eqb (value nd) v then Done true
      else Contains_loop fuel' h l v (next nd)
  end.

Definition Contains (fuel : nat) (v : T) (st : state) : result bool :=
  let '(h, l) := st in
  if is_nil (head l) then Done false
  else
    hd ← load h (head l);
    if eqb (value hd) v then Done true
    else if is_nil (next hd) && negb (eqb (value hd) v)
    then Done false
    else Contains_loop fuel h l v (next hd).

(** The loop of the linear branch of [Remove]. *)
Fixpoint Remove_linear_loop (fuel : nat) (h : list Node) (l : LinkedList) (v : T)
    (n : ptr) : result state :=
  match fuel with
  | 0 => Timeout
  | S fuel' =>
    nd ← load h n;
    nx ← load h (next nd);
    if eqb (value nx) v then
      h1 ← set_next h n (next nx);
      if is_nil (next nx) then Done (h1, mkList (head l) n (ring l))
      else Done (h1, l)
    else Remove_linear_loop fuel' h l v (next nd)
  end.

(** The loop of the ring branch of [Remove]: it has no [return] after
    unlinking a node that is not the tail. *)
Fixpoint Remove_ring_loop (fuel : nat) (h : list Node) (l : LinkedList) (v : T)
    (n : ptr) : result state :=
  match fuel with
  | 0 => Timeout
  | S fuel' =>
    if ptr_eqb n (head l) then Done (h, l)
    else
      nd ← load h n;
      nx ← load h (next nd);
      if eqb (value nx) v then
        if ptr_eqb (next nd) (tail l) then
          h1 ← set_next h n (head l);
          Done (h1, mkList (head l) n (ring l))
        else
          h1 ← set_next h n (next nx);
          Remove_ring_loop fuel' h1 l v (next nx)
      else Remove_ring_loop fuel' h l v (next nd)
  end.

Definition Remove (fuel : nat) (v : T) (st : state) : result state :=
  let '(h, l) := st in
  c ← Contains fuel v st;
  if negb c then Done st
  else
    let n := head l in
    if is_nil n then Done st
    else
      hd ← load h n;
      if is_nil (next hd) && negb (eqb (value hd) v) then Done st
      else if is_nil (next hd) && eqb (value hd) v then
        Done (h, mkList None (tail l) (ring l))
      else if negb (ring l) then
        if eqb (value hd) v then
          Done (h, mkList (next hd) (tail l) (ring l))
        else Remove_linear_loop fuel h l v n
      else if eqb (value hd) v then
        (* l.head = l.head.next; l.tail.next = l.head *)
        let l1 := mkList (next hd) (tail l) (ring l) in
        h1 ← set_next h (tail l1) (head l1);
        if ptr_eqb (head l1) (tail l1) then
          Done (h1, mkList (head l1) None (ring l1))
        else Done (h1, l1)
      else
        nx ← load h (next hd);
        if eqb (value nx) v then
          if negb (ptr_eqb (next hd) (tail l)) then
            h1 ← set_next h (head l) (next nx);
            Done (h1, l)
          else
            h1 ← set_next h (head l) None;
            Done (h1, l)
        else Remove_ring_loop fuel h l v (next hd).

End comparable.
End Comparable.

Section list_contents_comparable.
Context {T : Type} (eqb : T → T → bool).

(** [vs] without its first element [x] such that [x == v]. *)
Fixpoint without_first (v : T) (vs : list T) : list T :=
  match vs with
  | [] => []
  | x :: vs' => if eqb x v then vs' else x :: without_first v vs'
  end.

End list_contents_comparable.

(** A test on numbers that is not reflexive: [0] is different from itself,
    as NaN is; the other numbers compare as usual. *)
Definition nan_eqb (x y : nat) : bool := (x =? y) && negb (x =? 0).

(** ** What a connection receives and what is written to it *)
Section connection_contents.
Import main.

(** The byte strings written to the client during the events [evs], in the
    order of the writes. *)
Definition written (evs : list ConnEvent) : list string :=
  omap (fun e => match e with EvWrite bytes => Some bytes | _ => None end) evs.

(** The messages among the results of the reads, each with the environment
    of its turn. *)
Definition messages (input : list (ReadResult * Env)) : list (string * Env) :=
  omap (fun x => match x.1 with
                 | ReadMessage message => Some (message, x.2)
                 | _ => None
                 end) input.

(** An event of a turn that comes before its write: a handler is run or a
    request is submitted to raft. *)
Definition is_action (e : ConnEvent) : bool :=
  match e with EvHandle _ _ | EvRaftApply _ _ => true | _ => false end.

End connection_contents.
Arguments written evs : simpl never.
Arguments messages input : simpl never.


(** ** Names and registries for the lookup of commands *)

(** A string of ASCII characters only (bytes below 0x80). On such strings
    [strings.ToUpper], [strings.ToLower] and [strings.EqualFold] above are
    Go's functions. *)
Definition is_ascii (s : string) : bool :=
  forallb (fun c => nat_of_ascii c <? 128) (list_ascii_of_string s).

(** A server with the two commands [SET] and [GET], from two plugins: no
    two names of its command map are equal up to case. *)
Definition server_SET_GET : main.Server :=
  main.LoadCommands (main.LoadCommands main.server_empty main.plugin_str)
    main.plugin_b.

(** A server with the two commands [get] and [GET], from two plugins. *)
Definition server_get_GET : main.Server :=
  main.LoadCommands (main.LoadCommands main.server_empty main.plugin_a)
    main.plugin_b.
(** * Facts about the linked list *)
Section linked_list_facts.
Import LinkedList.
Context {T : Type} `{EqDecision T}.
Implicit Types (h : list (@Node T)) (l : LinkedList) (st : @state T) (p q : ptr)
  (ns : list nat).

Lemma lseg_to_nil_functional h p ns1 ns2 :
  lseg h p ns1 None → lseg h p ns2 None → ns1 = ns2.
Proof.
  intros H1. remember None as q eqn:Hq. revert ns2.
  induction H1 as [p|a nd ns q Ha _ IH]; intros ns2 H2; subst.
  - by inversion H2.
  - inversion H2 as [|a' nd' ns' q' Ha' Hrest]; subst.
    rewrite Ha in Ha'. injection Ha' as <-. f_equal. by apply IH.
Qed.

Lemma lseg_from_member h p ns q a :
  lseg h p ns q → a ∈ ns →
  ∃ ns1 ns2, ns = ns1 ++ a :: ns2 ∧ lseg h (Some a) (a :: ns2) q.
Proof.
  induction 1 as [p|b nd ns q Hb Hrest IH]; intros Hin.
  - by apply elem_of_nil in Hin.
  - destruct (decide (a = b)) as [->|Hne].
    + exists [], ns. split; [done|]. by econstructor.
    + apply elem_of_cons in Hin as [?|Hin]; [done|].
      destruct (IH Hin) as (ns1 & ns2 & -> & Hseg).
      by exists (b :: ns1), ns2.
Qed.

Lemma lseg_to_nil_NoDup h p ns : lseg h p ns None → NoDup ns.
Proof.
  remember None as q eqn:Hq.
  induction 1 as [p|a nd ns q Ha Hrest IH]; subst; constructor.
  - intros Hin.
    destruct (lseg_from_member _ _ _ _ _ Hrest Hin) as (ns1 & ns2 & Hns & Hseg).
    assert (a :: ns2 = a :: ns) as Heq.
    { eapply lseg_to_nil_functional; [done|]. by econstructor. }
    injection Heq as Heq. subst ns2.
    apply (f_equal length) in Hns. rewrite length_app in Hns. simpl in Hns. lia.
  - by apply IH.
Qed.

Lemma lseg_lookup_next h p ns q j a :
  lseg h p ns q → ns !! j = Some a →
  ∃ nd, h !! a = Some nd ∧
        next nd = match ns !! S j with Some b => Some b | None => q end.
Proof.
  intros Hseg. revert j.
  induction Hseg as [p|b nd ns q Hb Hrest IH]; intros j Hj; [done|].
  destruct j as [|j].
  - injection Hj as <-. exists nd. split; [done|].
    simpl. inversion Hrest; by subst.
  - by apply IH.
Qed.

Lemma lseg_first h p ns q a : lseg h p ns q → ns !! 0 = Some a → p = Some a.
Proof. destruct 1; [done|]. by intros [= ->]. Qed.

Lemma Iter_loop_linear h l p ns fuel :
  ring l = false → lseg h p ns None → length ns < fuel →
  Iter_loop fuel h l p = (ns, true).
Proof.
  intros Hring Hseg. remember None as q eqn:Hq. revert fuel.
  induction Hseg as [p|a nd ns q Ha Hrest IH]; intros fuel Hfuel; subst.
  - destruct fuel; [simpl in Hfuel; lia|done].
  - destruct fuel as [|fuel]; [simpl in Hfuel; lia|].
    simpl. rewrite Ha, Hring, andb_false_r.
    rewrite IH; [done..|]. simpl in Hfuel. lia.
Qed.

Lemma Iter_loop_single h l a nd fuel :
  ring l = true → head l = Some a → h !! a = Some nd → next nd = None →
  Iter_loop fuel h l (Some a) = (replicate fuel a, false).
Proof.
  intros Hring Hhead Ha Hnext.
  induction fuel as [|fuel IH]; [done|].
  simpl. rewrite Ha, Hhead, Hnext, Hring. unfold ptr_eqb, is_nil.
  rewrite !bool_decide_eq_true_2 by done. simpl. by rewrite IH.
Qed.

Lemma Iter_loop_cycle h l ns fuel j a :
  lseg h (head l) ns (head l) → ns !! j = Some a →
  ∃ sent, Iter_loop fuel h l (Some a) = (sent, false) ∧ length sent = fuel ∧
          ∀ i, i < fuel → sent !! i = ns !! ((j + i) mod length ns).
Proof.
  intros Hseg. revert j a.
  induction fuel as [|fuel IH]; intros j a Hj.
  { exists []. split_and!; [done..|]. intros i Hi. lia. }
  assert (j < length ns) as Hlt by by eapply lookup_lt_Some.
  destruct (lseg_lookup_next _ _ _ _ _ _ Hseg Hj) as (nd & Ha & Hnext).
  assert (∃ b, next nd = Some b ∧ ns !! (S j mod length ns) = Some b)
    as (b & Hb & Hjb).
  { destruct (ns !! S j) as [b|] eqn:HSj.
    - exists b. split; [done|].
      apply lookup_lt_Some in HSj as HSlt.
      by rewrite Nat.mod_small.
    - apply lookup_ge_None in HSj.
      assert (S j = length ns) as -> by lia.
      rewrite Nat.Div0.mod_same.
      destruct ns as [|a0 ns']; [simpl in Hlt; lia|].
      exists a0. split; [|done].
      rewrite Hnext. by eapply lseg_first. }
  destruct (IH _ _ Hjb) as (sent & Hrun & Hlen & Hsent).
  exists (a :: sent). split_and!.
  - simpl. rewrite Ha, Hb. unfold is_nil at 1.
    rewrite (bool_decide_eq_false_2 (Some b = None)) by done.
    rewrite andb_false_r. simpl. by rewrite Hrun.
  - simpl. by rewrite Hlen.
  - intros [|i] Hi.
    + rewrite Nat.add_0_r, Nat.mod_small by done. by rewrite Hj.
    + simpl. rewrite Hsent by lia.
      f_equal. rewrite Nat.Div0.add_mod_idemp_l. f_equal. lia.
Qed.

(** C8. In linear mode [Iter] sends each node of the chain once, from the
    head to the last node, and then closes the channel. In ring mode, on a
    list that is not empty (a single node whose [next] is nil, or a cycle
    through the head), it never closes the channel: whatever the number of
    turns, that many nodes of the list have been sent, going round the
    ring. *)
Theorem Iter_linear_finite_ring_infinite st :
  (∀ ns, linear_shape st ns →
     NoDup ns ∧ ∀ fuel, length ns < fuel → Iter fuel st = (ns, true)) ∧
  (∀ a, ring_single st a →
     ∀ fuel, Iter fuel st = (replicate fuel a, false)) ∧
  (∀ ns, ring_cycle st ns →
     ∀ fuel, ∃ sent, Iter fuel st = (sent, false) ∧ length sent = fuel ∧
       ∀ i, i < fuel → sent !! i = ns !! (i mod length ns)).
Proof.
  destruct st as [h l]. split_and!.
  - intros ns [Hring Hseg]. simpl in *. split.
    + by eapply lseg_to_nil_NoDup.
    + intros fuel Hfuel. by apply Iter_loop_linear.
  - intros a (Hring & Hhead & nd & Ha & Hnext) fuel. simpl in *.
    unfold Iter. simpl. rewrite Hhead. by eapply Iter_loop_single.
  - intros ns (Hring & Hne & Hseg) fuel. simpl in *.
    destruct ns as [|a0 ns']; [done|].
    assert (head l = Some a0) as Hhead by by eapply lseg_first.
    unfold Iter. simpl. rewrite Hhead.
    destruct (Iter_loop_cycle h l (a0 :: ns') fuel 0 a0 Hseg eq_refl)
      as (sent & Hrun & Hlen & Hsent).
    exists sent. split_and!; [done..|].
    intros i Hi. by rewrite Hsent.
Qed.


(** What [Add] builds. *)
Lemma length_nodes_of rg (ws : list T) : length (nodes_of rg ws) = length ws.
Proof. unfold nodes_of. apply length_imap. Qed.

Lemma lookup_nodes_of rg (ws : list T) i x :
  ws !! i = Some x →
  nodes_of rg ws !! i =
    Some (mkNode x (if decide (S i < length ws) then Some (S i)
                    else last_next rg (length ws))).
Proof. intros Hx. unfold nodes_of. by rewrite list_lookup_imap, Hx. Qed.

Lemma Add_built_long rg (ws : list T) v :
  2 ≤ length ws →
  Add v (nodes_of rg ws, list_of rg ws)
  = Done (nodes_of rg (ws ++ [v]), list_of rg (ws ++ [v])).
Proof.
  intros Hlen.
  pose proof (length_nodes_of rg ws) as Hnodes.
  assert (list_of rg ws = mkList (Some 0) (Some (length ws - 1)) rg) as ->.
  { unfold list_of. rewrite decide_True by done.
    destruct ws; [simpl in Hlen; lia|done]. }
  assert (list_of rg (ws ++ [v]) = mkList (Some 0) (Some (length ws)) rg) as ->.
  { unfold list_of. rewrite length_app. simpl length.
    rewrite decide_True by lia.
    destruct ws; [simpl in Hlen; lia|]. simpl. do 2 f_equal. lia. }
  assert (∃ x, ws !! (length ws - 1) = Some x) as [x Hx].
  { apply lookup_lt_is_Some. lia. }
  assert (∀ nx,
    set_next (nodes_of rg ws ++ [mkNode v nx]) (Some (length ws - 1))
      (Some (length ws))
    = Done (<[length ws - 1 := mkNode x (Some (length ws))]>
              (nodes_of rg ws ++ [mkNode v nx]))) as Hset.
  { intros nx. unfold set_next, load. cbv beta iota.
    rewrite (lookup_app_l (nodes_of rg ws)) by lia.
    by rewrite (lookup_nodes_of _ _ _ _ Hx). }
  assert (∀ nx, nx = last_next rg (S (length ws)) →
    <[length ws - 1 := mkNode x (Some (length ws))]>
      (nodes_of rg ws ++ [mkNode v nx]) = nodes_of rg (ws ++ [v])) as Hheap.
  { intros nx ->. apply list_eq. intros i.
    destruct (decide (i = length ws - 1)) as [->|Hne].
    - rewrite list_lookup_insert_eq by (rewrite length_app, Hnodes; simpl; lia).
      rewrite (lookup_nodes_of rg (ws ++ [v]) _ x)
        by (by rewrite lookup_app_l by lia).
      rewrite length_app. simpl length.
      rewrite decide_True by lia. do 3 f_equal. lia.
    - rewrite list_lookup_insert_ne by done.
      destruct (decide (i < length ws)) as [Hlt|Hge].
      + rewrite (lookup_app_l (nodes_of rg ws)) by lia.
        destruct (lookup_lt_is_Some_2 ws i Hlt) as [y Hy].
        rewrite (lookup_nodes_of _ _ _ _ Hy).
        rewrite (lookup_nodes_of rg (ws ++ [v]) _ y)
          by (by rewrite lookup_app_l by lia).
        rewrite length_app. simpl length.
        by rewrite !decide_True by lia.
      + rewrite (lookup_app_r (nodes_of rg ws)) by lia. rewrite Hnodes.
        destruct (decide (i = length ws)) as [->|Hgt].
        * rewrite Nat.sub_diag. simpl.
          rewrite (lookup_nodes_of rg (ws ++ [v]) _ v).
          2:{ rewrite lookup_app_r by lia. by rewrite Nat.sub_diag. }
          rewrite length_app. simpl length.
          rewrite decide_False by lia. do 3 f_equal. lia.
        * rewrite !lookup_ge_None_2; [done| |simpl; lia].
          rewrite length_nodes_of, length_app. simpl. lia. }
  unfold Add. cbn [head tail ring].
  unfold is_nil. rewrite !bool_decide_eq_false_2 by done. cbn [andb].
  destruct rg; cbn [negb]; unfold NewNode; rewrite Hnodes, Hset.
  - simpl. rewrite Hheap; [done|].
    unfold last_next. by rewrite bool_decide_eq_true_2 by lia.
  - simpl. by rewrite Hheap.
Qed.

Lemma Add_built rg (vs : list T) v :
  Add v (nodes_of rg vs, list_of rg vs)
  = Done (nodes_of rg (vs ++ [v]), list_of rg (vs ++ [v])).
Proof.
  destruct vs as [|a [|b vs]]; [by destruct rg..|].
  apply Add_built_long. simpl. lia.
Qed.

Lemma build_built rg (vs : list T) :
  build rg vs = Done (nodes_of rg vs, list_of rg vs).
Proof.
  induction vs as [|v vs IH] using rev_ind; [done|].
  unfold build in *. rewrite foldl_snoc, IH. simpl. apply Add_built.
Qed.

Lemma lseg_nodes_of rg (vs : list T) k j :
  j + k = length vs →
  lseg (nodes_of rg vs)
    (match k with 0 => last_next rg (length vs) | S _ => Some j end)
    (seq j k) (last_next rg (length vs)).
Proof.
  revert j. induction k as [|k IH]; intros j Hjk; [constructor|].
  assert (∃ x, vs !! j = Some x) as [x Hx].
  { apply lookup_lt_is_Some. lia. }
  simpl. econstructor.
  { by apply lookup_nodes_of. }
  simpl. specialize (IH (S j) ltac:(lia)).
  destruct k as [|k].
  - by rewrite decide_False by lia.
  - by rewrite decide_True by lia.
Qed.

(** The lists [Add] builds have the shapes of the iterator theorem. *)
Lemma build_shapes rg (vs : list T) :
  ∃ st, build rg vs = Done st ∧
    (rg = false → linear_shape st (seq 0 (length vs))) ∧
    (rg = true → length vs = 1 → ring_single st 0) ∧
    (rg = true → 2 ≤ length vs → ring_cycle st (seq 0 (length vs))).
Proof.
  eexists. split; [apply build_built|].
  pose proof (lseg_nodes_of rg vs (length vs) 0 eq_refl) as Hseg.
  split_and!.
  - intros ->. split; [done|]. simpl.
    destruct vs as [|v vs]; [constructor|]. apply Hseg.
  - intros -> Hlen. destruct vs as [|v [|? ?]]; try done.
    split_and!; [done..|]. by eexists.
  - intros -> Hlen. destruct vs as [|v vs]; [simpl in Hlen; lia|].
    split_and!; [done..|]. simpl in *.
    unfold last_next in Hseg. simpl in Hseg.
    by rewrite bool_decide_eq_true_2 in Hseg by lia.
Qed.

End linked_list_facts.

Section linked_list_examples.
Import LinkedList.

Example build_examples :
  build false [10; 20; 30] = Done linear_three ∧
  build true [10] = Done ring_one ∧
  build true [10; 20] = Done ring_two.
Proof. by split_and!. Qed.

Lemma Iter_linear_finite_ring_infinite_witness :
  linear_shape linear_three [0; 1; 2] ∧
  Iter 4 linear_three = ([0; 1; 2], true) ∧
  ring_single ring_one 0 ∧
  Iter 3 ring_one = ([0; 0; 0], false) ∧
  ring_cycle ring_two [0; 1] ∧
  ∃ sent, Iter 5 ring_two = (sent, false) ∧ sent !! 4 = Some 0.
Proof.
  assert (linear_shape linear_three [0; 1; 2]) as Hlinear.
  { split; [reflexivity|]. simpl. repeat econstructor. }
  assert (ring_single ring_one 0) as Hsingle.
  { split_and!; [reflexivity..|]. by eexists. }
  assert (ring_cycle ring_two [0; 1]) as Hcycle.
  { split_and!; [reflexivity|done|]. simpl. repeat econstructor. }
  split; [exact Hlinear|]. split.
  { refine (proj2 (proj1 (Iter_linear_finite_ring_infinite linear_three)
                     [0; 1; 2] Hlinear) 4 _).
    simpl. lia. }
  split; [exact Hsingle|]. split.
  { exact (proj1 (proj2 (Iter_linear_finite_ring_infinite ring_one))
             0 Hsingle 3). }
  split; [exact Hcycle|].
  destruct (proj2 (proj2 (Iter_linear_finite_ring_infinite ring_two))
              [0; 1] Hcycle 5) as (sent & Hrun & _ & Hsent).
  exists sent. split; [exact Hrun|]. rewrite Hsent by lia. reflexivity.
Defined.

(** C7 on the code. [Remove] does not repair the list on every path.
    (1) Removing the second node of a ring of two leaves [tail] on the
    removed node; (2) the next [Add] then links its node behind the removed
    one, so that it cannot be reached from the head; (3) the loop of the
    ring branch goes on after it has unlinked a node, and unlinks a second
    node with the same value; (4) after the head of a ring of two has been
    removed, removing the node that is left dereferences the nil [tail];
    (5) the loop of the linear branch removes the first match only; (6) in
    linear mode, removing the one node that is left keeps [tail] on it,
    and of two nodes added afterwards the second cannot be reached. *)
Theorem Remove_does_not_repair_list :
  (st ← build true [1; 2]; Remove 4 2 st)
    = Done ([mkNode 1 None; mkNode 2 (Some 0)], mkList (Some 0) (Some 1) true) ∧
  (st ← build true [1; 2]; st ← Remove 4 2 st; st ← Add 3 st;
   c ← Contains 4 3 st; mret (c, values 4 st)) = Done (false, [1]) ∧
  (st ← build true [1; 2; 3; 4; 3; 5]; st ← Remove 8 3 st; mret (values 8 st))
    = Done [1; 2; 4; 5] ∧
  (st ← build true [1; 2]; st ← Remove 4 1 st; Remove 4 2 st)
    = Panic NilDereference ∧
  (st ← build false [1; 2; 3; 4; 3; 5]; st ← Remove 8 3 st; mret (values 8 st))
    = Done [1; 2; 4; 3; 5] ∧
  (st ← build false [1; 2]; st ← Remove 4 1 st; st ← Remove 4 2 st;
   st ← Add 3 st; st ← Add 4 st; c ← Contains 4 4 st; mret (c, values 4 st))
    = Done (false, [3]).
Proof. split_and!; reflexivity. Qed.

End linked_list_examples.

(** * Facts about the per-key locks *)
Section keyspace_facts.
Import main.
Implicit Types (s : Server) (ctx : Context) (others : Others) (key : string)
  (md : mode) (tr : list Event).

Lemma set_keyLocks_twice s kl1 kl2 :
  set_keyLocks (set_keyLocks s kl1) kl2 = set_keyLocks s kl2.
Proof. done. Qed.

Lemma set_keyLocks_same s : set_keyLocks s (keyLocks s) = s.
Proof. by destruct s. Qed.

(** The general form of the polling lemma, for a loop entered at turn [i0]. *)
Lemma keyLockLoop_turns md ctx others key n :
  ∀ fuel i0 s,
  n < fuel →
  (∀ k, k < n →
     ctx (i0 + k) = None ∧
     ∃ m, locks_from others i0 (keyLocks s) k !! key = Some m ∧
          (try md m).1 = false) →
  (∀ cause, ctx (i0 + n) = Some cause →
     keyLockLoop md fuel ctx others i0 s key =
       (Done (false, Some cause),
        set_keyLocks s (locks_from others i0 (keyLocks s) n),
        waits md key n)) ∧
  (∀ m, ctx (i0 + n) = None →
     locks_from others i0 (keyLocks s) n !! key = Some m →
     (try md m).1 = true →
     keyLockLoop md fuel ctx others i0 s key =
       (Done (true, None),
        set_keyLocks s
          (<[key := (try md m).2]> (locks_from others i0 (keyLocks s) n)),
        waits md key n ++ [EvTry md key true])).
Proof.
  induction n as [|n IH]; intros fuel i0 s Hfuel Hbusy.
  - destruct fuel as [|fuel]; [lia|]. rewrite Nat.add_0_r. simpl. split.
    + intros cause ->. by rewrite set_keyLocks_same.
    + intros m -> -> Htry. destruct (try md m) as [ok m'] eqn:Hm.
      simpl in Htry. by subst ok.
  - destruct fuel as [|fuel]; [lia|].
    destruct (Hbusy 0 ltac:(lia)) as (Hctx & m0 & Hm0 & Htry0).
    rewrite Nat.add_0_r in Hctx. simpl in Hm0.
    destruct (IH fuel (S i0) (set_keyLocks s (others i0 (keyLocks s))))
      as [IHdone IHlock]; [lia| |].
    { intros k Hk. destruct (Hbusy (S k) ltac:(lia)) as (Hc & m & Hm & Ht).
      rewrite Nat.add_succ_r in Hc. split; [done|]. by exists m. }
    replace (i0 + S n) with (S i0 + n) by lia.
    simpl keyLockLoop. rewrite Hctx, Hm0.
    destruct (try md m0) as [ok m0'] eqn:Htry. simpl in Htry0. subst ok.
    split.
    + intros cause Hcause. by rewrite (IHdone cause Hcause).
    + intros m Hnone Hm Hok. by rewrite (IHlock m Hnone Hm Hok).
Qed.

Lemma keyLockLoop_gate md fuel ctx others i s key :
  keyCreationLock (keyLockLoop md fuel ctx others i s key).1.2
  = keyCreationLock s.
Proof.
  revert i s. induction fuel as [|fuel IH]; intros i s; [done|].
  simpl. destruct (ctx i); [done|].
  destruct (keyLocks s !! key) as [m|]; [|done].
  destruct (try md m) as [[] m']; [done|].
  specialize (IH (S i) (set_keyLocks s (others i (keyLocks s)))).
  destruct (keyLockLoop md fuel ctx others (S i) _ key) as [[r s'] tr].
  done.
Qed.

Lemma keyLockLoop_polls md fuel ctx others i s key :
  Forall (λ e, is_poll e = true) (keyLockLoop md fuel ctx others i s key).2.
Proof.
  revert i s. induction fuel as [|fuel IH]; intros i s; [by constructor|].
  simpl. destruct (ctx i); [by constructor|].
  destruct (keyLocks s !! key) as [m|]; [|by constructor].
  destruct (try md m) as [[] m'].
  - constructor; [by destruct md|constructor].
  - specialize (IH (S i) (set_keyLocks s (others i (keyLocks s)))).
    destruct (keyLockLoop md fuel ctx others (S i) _ key) as [[r s'] tr].
    simpl in *. constructor; [by destruct md|]. by constructor.
Qed.

Lemma gate_after_polls b tr :
  Forall (λ e, is_poll e = true) tr → gate_after b tr = b.
Proof.
  intros Hall. revert b. induction Hall as [|e tr He _ IH]; intros b; [done|].
  unfold gate_after in *. simpl. rewrite <- (IH b).
  by destruct e.
Qed.

Lemma KeyExists_true s key :
  KeyExists s key = true ↔ ∃ m, keyLocks s !! key = Some m.
Proof.
  unfold KeyExists. rewrite bool_decide_eq_true.
  destruct (keyLocks s !! key) as [m|]; split; try done.
  - by exists m.
  - by intros [m Hm].
Qed.

Lemma KeyExists_false s key :
  KeyExists s key = false ↔ keyLocks s !! key = None.
Proof.
  unfold KeyExists. rewrite bool_decide_eq_false.
  destruct (keyLocks s !! key) as [m|]; split; try done.
  - intros Hnn. by destruct Hnn.
  - intros _ Hne. by apply Hne.
Qed.

(** C1, as the code has it. [CreateKeyAndLock] takes the creation mutex on
    entry and gives it back through [defer], when the call returns. On an
    absent key the mutex is held just for the insertion of the new lock. On
    a key that exists it stays held during the whole of [KeyLock]: every
    poll and every tick of the wait happens with the mutex held, it is
    released after [KeyLock] has returned, and it is still held while
    [KeyLock] is polling. *)
Theorem CreateKeyAndLock_holds_gate_until_return fuel ctx others s key :
  keyCreationLock s = false →
  let '(r, s', tr) := CreateKeyAndLock fuel ctx others s key in
  (KeyExists s key = false →
     r = Done (true, None) ∧
     tr = [EvGateLock; EvInstall key; EvGateUnlock] ∧
     keyCreationLock s' = false) ∧
  (KeyExists s key = true →
     polls_with_gate_held tr ∧
     tr = EvGateLock ::
          (KeyLock fuel ctx others (set_keyCreationLock s true) key).2 ++
          (if is_Timeout r then [] else [EvGateUnlock]) ∧
     r = (KeyLock fuel ctx others (set_keyCreationLock s true) key).1.1 ∧
     keyCreationLock s' = is_Timeout r).
Proof.
  intros Hfree. unfold CreateKeyAndLock. rewrite Hfree.
  replace (KeyExists (set_keyCreationLock s true) key) with (KeyExists s key)
    by done.
  destruct (KeyExists s key) eqn:Hex; simpl.
  2:{ split; [done|]. intros; discriminate. }
  pose proof (keyLockLoop_gate Write fuel ctx others 0
                (set_keyCreationLock s true) key) as Hgate.
  pose proof (keyLockLoop_polls Write fuel ctx others 0
                (set_keyCreationLock s true) key) as Hpolls.
  unfold KeyLock.
  destruct (keyLockLoop Write fuel ctx others 0 (set_keyCreationLock s true) key)
    as [[r s2] trk]. simpl in Hgate, Hpolls.
  assert (∀ tail, (∀ e, e ∈ tail → is_poll e = false) →
            polls_with_gate_held (EvGateLock :: trk ++ tail)) as Hheld.
  { intros tail Htail [|i] e Hi Hpoll.
    { injection Hi as <-. discriminate. }
    simpl in Hi. simpl take.
    destruct (decide (i < length trk)) as [Hlt|Hge].
    - rewrite take_app_le by lia.
      change (gate_after true (take i trk) = true).
      apply gate_after_polls.
      by apply Forall_take.
    - rewrite lookup_app_r in Hi by lia.
      apply list_elem_of_lookup_2 in Hi. apply Htail in Hi. congruence. }
  destruct r as [[ok err]|why|]; simpl.
  - split; [intros; discriminate|]. intros _. split_and!; try done.
    apply Hheld. by intros e ->%list_elem_of_singleton.
  - split; [intros; discriminate|]. intros _. split_and!; try done.
    apply Hheld. by intros e ->%list_elem_of_singleton.
  - split; [intros; discriminate|]. intros _. split_and!; try done.
    + rewrite <- (app_nil_r trk). apply Hheld. by intros e ?%elem_of_nil.
    + by rewrite app_nil_r.
Qed.

(** C6, as the code has it. At each turn [KeyLock] and [KeyRLock] look at
    the context first and at the lock second. As long as the context is not
    done and the lock is taken ([n] turns), the call waits for the 5 ms
    ticker after each failed try. At the first turn where the context is
    done it returns [false] with the cause of the context, whatever the
    state of the lock; at the first turn where the context is not done and
    the lock is free it takes the lock and returns [true]. With [n = 0]
    the call returns without any wait. *)
Theorem KeyLock_polls_until_locked_or_done md fuel ctx others s key n :
  n < fuel →
  (∀ k, k < n →
     ctx k = None ∧
     ∃ m, locks_from others 0 (keyLocks s) k !! key = Some m ∧
          (try md m).1 = false) →
  let lock := match md with Write => KeyLock | Read => KeyRLock end in
  (∀ cause, ctx n = Some cause →
     lock fuel ctx others s key =
       (Done (false, Some cause),
        set_keyLocks s (locks_from others 0 (keyLocks s) n),
        waits md key n)) ∧
  (∀ m, ctx n = None →
     locks_from others 0 (keyLocks s) n !! key = Some m →
     (try md m).1 = true →
     lock fuel ctx others s key =
       (Done (true, None),
        set_keyLocks s
          (<[key := (try md m).2]> (locks_from others 0 (keyLocks s) n)),
        waits md key n ++ [EvTry md key true])).
Proof.
  intros Hfuel Hbusy.
  destruct (keyLockLoop_turns md ctx others key n fuel 0 s Hfuel Hbusy)
    as [Hdone Hlock].
  destruct md; simpl; unfold KeyLock, KeyRLock; by split.
Qed.

(** C10, as the code has it. On a key without an entry in the lock table,
    [KeyUnlock] and [KeyRUnlock] always dereference nil; [KeyLock] and
    [KeyRLock] do so at their first turn when the context is not done, and
    return [false] with the cause, without a fault, when the context is
    already done. [CreateKeyAndLock] is the operation that works on such a
    key: it returns [true] and the key exists afterwards. *)
Theorem lock_operations_on_absent_key s key :
  KeyExists s key = false →
  KeyUnlock s key = Panic NilDereference ∧
  KeyRUnlock s key = Panic NilDereference ∧
  (∀ fuel ctx others, ctx 0 = None →
     KeyLock (S fuel) ctx others s key = (Panic NilDereference, s, []) ∧
     KeyRLock (S fuel) ctx others s key = (Panic NilDereference, s, [])) ∧
  (∀ fuel ctx others cause, ctx 0 = Some cause →
     KeyLock (S fuel) ctx others s key = (Done (false, Some cause), s, []) ∧
     KeyRLock (S fuel) ctx others s key = (Done (false, Some cause), s, [])) ∧
  (∀ fuel ctx others, keyCreationLock s = false →
     (CreateKeyAndLock fuel ctx others s key).1.1 = Done (true, None) ∧
     KeyExists (CreateKeyAndLock fuel ctx others s key).1.2 key = true).
Proof.
  intros Habsent. pose proof Habsent as Hnone.
  apply KeyExists_false in Hnone.
  unfold KeyUnlock, KeyRUnlock, KeyLock, KeyRLock. rewrite Hnone.
  split_and!; try done.
  - intros fuel ctx others Hctx. simpl. by rewrite Hctx, Hnone.
  - intros fuel ctx others cause Hctx. simpl. by rewrite Hctx.
  - intros fuel ctx others Hfree. unfold CreateKeyAndLock. rewrite Hfree.
    replace (KeyExists (set_keyCreationLock s true) key) with (KeyExists s key)
      by done.
    rewrite Habsent. simpl. split; [done|].
    apply KeyExists_true. eexists. apply lookup_insert_eq.
Qed.

(** The creation mutex is not released before [KeyLock]: on a key that
    exists and is free, the one poll of the call is made with the mutex
    held. *)
Lemma CreateKeyAndLock_polls_under_gate :
  ¬ (∀ fuel ctx others s key,
       keyCreationLock s = false → KeyExists s key = true →
       polls_with_gate_free (CreateKeyAndLock fuel ctx others s key).2).
Proof.
  intros Hclaim.
  specialize (Hclaim 1 never_done nobody server_free "k"%string
                eq_refl eq_refl 1 (EvTryLock "k" true) eq_refl eq_refl).
  vm_compute in Hclaim. discriminate.
Qed.

Lemma CreateKeyAndLock_holds_gate_until_return_witness :
  keyCreationLock server_held = false ∧
  polls_with_gate_held
    (CreateKeyAndLock 4 never_done (release_at 1) server_held "k").2 ∧
  (CreateKeyAndLock 4 never_done (release_at 1) server_held "k").2 =
    [EvGateLock; EvTryLock "k" false; EvTick 5; EvTryLock "k" false; EvTick 5;
     EvTryLock "k" true; EvGateUnlock].
Proof.
  split; [reflexivity|].
  pose proof (CreateKeyAndLock_holds_gate_until_return
                4 never_done (release_at 1) server_held "k"%string eq_refl)
    as Hthm.
  destruct (CreateKeyAndLock 4 never_done (release_at 1) server_held "k")
    as [[r s'] tr] eqn:Hrun.
  destruct Hthm as [_ Hexists].
  destruct (Hexists eq_refl) as (Hheld & Htr & _).
  split; [exact Hheld|].
  vm_compute in Hrun. injection Hrun as _ _ <-. reflexivity.
Defined.

(** A context that is already done wins over a free lock. *)
Lemma KeyLock_done_context_beats_free_lock :
  ¬ (∀ fuel ctx others s key m,
       0 < fuel → keyLocks s !! key = Some m → (TryLock m).1 = true →
       (KeyLock fuel ctx others s key).1.1 = Done (true, None)).
Proof.
  intros Hclaim.
  specialize (Hclaim 1 (done_from 0 Canceled) nobody server_free "k"%string
                (mkRWMutex false 0) (Nat.lt_0_succ 0) eq_refl eq_refl).
  vm_compute in Hclaim. discriminate.
Qed.

Lemma KeyLock_polls_until_locked_or_done_witness :
  KeyLock 3 never_done (release_at 1) server_held "k" =
    (Done (true, None),
     set_keyLocks server_held {["k"%string := mkRWMutex true 0]},
     [EvTryLock "k" false; EvTick 5; EvTryLock "k" false; EvTick 5;
      EvTryLock "k" true]) ∧
  KeyRLock 3 (done_from 2 DeadlineExceeded) nobody server_held "k" =
    (Done (false, Some DeadlineExceeded), server_held,
     [EvTryRLock "k" false; EvTick 5; EvTryRLock "k" false; EvTick 5]).
Proof.
  split.
  - assert (∀ k, k < 2 →
              never_done k = None ∧
              ∃ m, locks_from (release_at 1) 0 (keyLocks server_held) k
                     !! "k"%string = Some m ∧ (try Write m).1 = false)
      as Hbusy.
    { intros [|[|k]] Hk; [| |lia].
      - split; [reflexivity|]. exists (mkRWMutex true 0). by vm_compute.
      - split; [reflexivity|]. exists (mkRWMutex true 0). by vm_compute. }
    destruct (KeyLock_polls_until_locked_or_done Write 3 never_done
                (release_at 1) server_held "k"%string 2 (le_n 3) Hbusy)
      as [_ Hlock].
    rewrite (Hlock (mkRWMutex false 0)); [by vm_compute|reflexivity|
      by vm_compute|reflexivity].
  - assert (∀ k, k < 2 →
              done_from 2 DeadlineExceeded k = None ∧
              ∃ m, locks_from nobody 0 (keyLocks server_held) k
                     !! "k"%string = Some m ∧ (try Read m).1 = false)
      as Hbusy.
    { intros [|[|k]] Hk; [| |lia].
      - split; [reflexivity|]. exists (mkRWMutex true 0). by vm_compute.
      - split; [reflexivity|]. exists (mkRWMutex true 0). by vm_compute. }
    destruct (KeyLock_polls_until_locked_or_done Read 3
                (done_from 2 DeadlineExceeded) nobody server_held "k"%string 2
                (le_n 3) Hbusy) as [Hdone _].
    rewrite (Hdone DeadlineExceeded); [by vm_compute|reflexivity].
Defined.

(** With a context that is already done, [KeyLock] on an absent key returns
    instead of dereferencing nil. *)
Lemma KeyLock_absent_key_done_context_returns :
  ¬ (∀ fuel ctx others s key,
       0 < fuel → KeyExists s key = false →
       (KeyLock fuel ctx others s key).1.1 = Panic NilDereference).
Proof.
  intros Hclaim.
  specialize (Hclaim 1 (done_from 0 Canceled) nobody server_free "absent"%string
                (Nat.lt_0_succ 0) eq_refl).
  vm_compute in Hclaim. discriminate.
Qed.

Lemma lock_operations_on_absent_key_witness :
  KeyExists server_free "absent" = false ∧
  KeyUnlock server_free "absent" = Panic NilDereference ∧
  KeyRUnlock server_free "absent" = Panic NilDereference ∧
  KeyLock 1 never_done nobody server_free "absent"
    = (Panic NilDereference, server_free, []) ∧
  KeyRLock 1 (done_from 0 Canceled) nobody server_free "absent"
    = (Done (false, Some Canceled), server_free, []).
Proof.
  split; [reflexivity|].
  destruct (lock_operations_on_absent_key server_free "absent"%string eq_refl)
    as (Hunlock & Hrunlock & Hfault & Hdone & _).
  split_and!; [exact Hunlock|exact Hrunlock| |].
  - exact (proj1 (Hfault 0 never_done nobody eq_refl)).
  - exact (proj2 (Hdone 0 (done_from 0 Canceled) nobody Canceled eq_refl)).
Defined.

End keyspace_facts.

(** * Facts about the command map *)
Section registry_facts.
Import utils main strings.
Implicit Types (N key : string)
  (order : list (string * ServerCommand)).

Lemma ascii_eq_nat (c d : ascii) : c = d ↔ nat_of_ascii c = nat_of_ascii d.
Proof.
  split; [by intros ->|]. intros Heq.
  by rewrite <- (ascii_nat_embedding c), <- (ascii_nat_embedding d), Heq.
Qed.

Lemma lower_byte_nat (c : ascii) :
  nat_of_ascii (lower_byte c) =
    if is_upper c then nat_of_ascii c + 32 else nat_of_ascii c.
Proof.
  unfold lower_byte. destruct (is_upper c) eqn:Hup; [|done].
  apply nat_ascii_embedding.
  unfold is_upper in Hup. apply andb_true_iff in Hup as [_ Hle].
  apply Nat.leb_le in Hle. lia.
Qed.

Lemma lower_byte_upper_byte (c : ascii) : lower_byte (upper_byte c) = lower_byte c.
Proof. by destruct c as [[] [] [] [] [] [] [] []]. Qed.

Lemma lower_byte_idemp (c : ascii) : lower_byte (lower_byte c) = lower_byte c.
Proof. by destruct c as [[] [] [] [] [] [] [] []]. Qed.

(** The test of one turn of the loop of [EqualFold]. *)
Lemma fold_bytes_spec sr tr :
  (bool_decide (tr = sr) ||
   (let '(lo, hi) :=
      if nat_of_ascii tr <? nat_of_ascii sr then (tr, sr) else (sr, tr) in
    is_upper lo && (nat_of_ascii hi =? nat_of_ascii lo + 32)))
  = bool_decide (lower_byte sr = lower_byte tr).
Proof.
  apply eq_true_iff_eq.
  rewrite orb_true_iff, !bool_decide_eq_true.
  rewrite (ascii_eq_nat (lower_byte sr)), !lower_byte_nat, (ascii_eq_nat tr sr).
  unfold is_upper.
  destruct (nat_of_ascii tr <? nat_of_ascii sr) eqn:Hlt; cbv beta iota;
    [apply Nat.ltb_lt in Hlt|apply Nat.ltb_ge in Hlt];
    revert Hlt; generalize (nat_of_ascii sr) (nat_of_ascii tr); intros a b Hlt;
    destruct (Nat.leb_spec 65 a), (Nat.leb_spec a 90),
             (Nat.leb_spec 65 b), (Nat.leb_spec b 90);
    cbn [andb]; rewrite ?Nat.eqb_eq;
    intuition (try discriminate; try lia).
Qed.

Lemma EqualFold_ToLower s t :
  EqualFold s t = bool_decide (ToLower s = ToLower t).
Proof.
  revert t. induction s as [|sr s IH]; intros [|tr t]; try done.
  simpl. pose proof (fold_bytes_spec sr tr) as Hbytes.
  rewrite IH.
  destruct (bool_decide (tr = sr)) eqn:Heq.
  - apply bool_decide_eq_true in Heq as ->.
    apply eq_true_iff_eq. rewrite !bool_decide_eq_true.
    split; [by intros ->|]. by intros [= ->].
  - simpl in Hbytes.
    destruct (if nat_of_ascii tr <? nat_of_ascii sr then (tr, sr) else (sr, tr))
      as [lo hi].
    rewrite Hbytes. apply eq_true_iff_eq.
    destruct (bool_decide (lower_byte sr = lower_byte tr)) eqn:Hlow.
    + apply bool_decide_eq_true in Hlow. rewrite Hlow, !bool_decide_eq_true.
      split; [by intros ->|]. by intros [= ->].
    + apply bool_decide_eq_false in Hlow. rewrite bool_decide_eq_true.
      split; [done|]. intros [= ? ?]. done.
Qed.

Lemma EqualFold_true s t : EqualFold s t = true ↔ ToLower s = ToLower t.
Proof. by rewrite EqualFold_ToLower, bool_decide_eq_true. Qed.

Lemma EqualFold_refl s : EqualFold s s = true.
Proof. by apply EqualFold_true. Qed.

Lemma EqualFold_sym s t : EqualFold s t = EqualFold t s.
Proof.
  rewrite !EqualFold_ToLower. apply eq_true_iff_eq.
  rewrite !bool_decide_eq_true. by split.
Qed.

Lemma EqualFold_trans s t u :
  EqualFold s t = true → EqualFold t u = true → EqualFold s u = true.
Proof. rewrite !EqualFold_true. congruence. Qed.

Lemma ToLower_ToUpper s : ToLower (ToUpper s) = ToLower s.
Proof.
  induction s as [|c s IH]; [done|].
  simpl. by rewrite lower_byte_upper_byte, IH.
Qed.

Lemma ToLower_idemp s : ToLower (ToLower s) = ToLower s.
Proof.
  induction s as [|c s IH]; [done|].
  simpl. by rewrite lower_byte_idemp, IH.
Qed.

Lemma EqualFold_upper_lower key N :
  EqualFold key (ToUpper N) = EqualFold key (ToLower N).
Proof. by rewrite !EqualFold_ToLower, ToLower_ToUpper, ToLower_idemp. Qed.

Lemma getCommand_in_same_fold order N N' :
  (∀ key, EqualFold key N = EqualFold key N') →
  found (getCommand_in order N) = found (getCommand_in order N').
Proof.
  intros Hfold. induction order as [|[key command] order IH]; [done|].
  simpl. rewrite <- Hfold. by destruct (EqualFold key N).
Qed.

Lemma getCommand_in_inl order N command :
  getCommand_in order N = inl command →
  ∃ key, (key, command) ∈ order ∧ EqualFold key N = true.
Proof.
  induction order as [|[key c'] order IH]; [done|].
  simpl. destruct (EqualFold key N) eqn:Hfold.
  - intros [= ->]. exists key. split; [apply list_elem_of_here|done].
  - intros Hrest. destruct (IH Hrest) as (key' & Hin & Hf).
    exists key'. split; [by apply list_elem_of_further|done].
Qed.

Lemma getCommand_in_inr order N e :
  getCommand_in order N = inr e →
  ∀ key command, (key, command) ∈ order → EqualFold key N = false.
Proof.
  induction order as [|[key c'] order IH]; intros Hrun key' command Hin.
  { by apply elem_of_nil in Hin. }
  simpl in Hrun. destruct (EqualFold key N) eqn:Hfold; [done|].
  apply elem_of_cons in Hin as [[= -> ->]|Hin]; [done|]. by eapply IH.
Qed.

Lemma getCommand_total (s : Server) N : ∃ r, getCommand s N r.
Proof. eexists. by exists (map_to_list (commands s)). Qed.

(** C2, as the code has it. The map is keyed by the name as it is written.
    When two commands have the same name, the second registration replaces
    the first, and provided no other registered name differs from it by
    case only, every lookup of that name, in any case, returns the second
    command. *)
Theorem register_same_name_last_wins (s : Server) p1 p2 c1 c2 N r :
  cmd_Command c1 = cmd_Command c2 →
  (∀ key, is_Some (commands s !! key) →
          EqualFold key (cmd_Command c2) = true → key = cmd_Command c2) →
  EqualFold (cmd_Command c2) N = true →
  getCommand (register p2 (register p1 s c1) c2) N r ↔
  r = inl (mkServerCommand c2 p2).
Proof.
  intros Hname Hunique HN.
  set (m := commands (register p2 (register p1 s c1) c2)).
  assert (m = <[cmd_Command c2 := mkServerCommand c2 p2]> (commands s)) as Hm.
  { unfold m, register. simpl. rewrite Hname. apply insert_insert_eq. }
  assert (∀ order, order ≡ₚ map_to_list m →
            getCommand_in order N = inl (mkServerCommand c2 p2)) as Hall.
  { intros order Hperm.
    destruct (getCommand_in order N) as [command|e] eqn:Hrun.
    - f_equal. apply getCommand_in_inl in Hrun as (key & Hin & Hfold).
      rewrite Hperm in Hin. apply elem_of_map_to_list in Hin.
      rewrite Hm in Hin.
      destruct (decide (key = cmd_Command c2)) as [->|Hne].
      + rewrite lookup_insert_eq in Hin. by injection Hin.
      + rewrite lookup_insert_ne in Hin by done.
        destruct Hne. apply Hunique; [by eexists|].
        eapply EqualFold_trans; [done|]. by rewrite EqualFold_sym.
    - exfalso.
      assert (EqualFold (cmd_Command c2) N = false); [|congruence].
      eapply (getCommand_in_inr _ _ _ Hrun _ (mkServerCommand c2 p2)).
      rewrite Hperm. apply elem_of_map_to_list.
      rewrite Hm. apply lookup_insert_eq. }
  split.
  - intros (order & Hperm & <-). by apply Hall.
  - intros ->. exists (map_to_list m). split; [done|]. by apply Hall.
Qed.

(** Two names that differ by case only are two keys of the map: after
    ["get"] and then ["GET"] have been registered, a lookup of ["get"] may
    return the first command. *)
Lemma register_case_variant_keeps_first :
  ¬ (∀ s p1 p2 c1 c2 N r,
       EqualFold (cmd_Command c1) (cmd_Command c2) = true →
       EqualFold (cmd_Command c2) N = true →
       getCommand (register p2 (register p1 s c1) c2) N r →
       r = inl (mkServerCommand c2 p2)).
Proof.
  intros Hclaim.
  specialize (Hclaim server_empty plugin_a plugin_b command_get command_GET
                "get"%string (inl (mkServerCommand command_get plugin_a))
                eq_refl eq_refl).
  assert (inl (mkServerCommand command_get plugin_a)
          = inl (B:=string) (mkServerCommand command_GET plugin_b)) as Heq;
    [|discriminate Heq].
  apply Hclaim.
  exists [("get"%string, mkServerCommand command_get plugin_a);
          ("GET"%string, mkServerCommand command_GET plugin_b)].
  split; [|reflexivity].
  unfold register. simpl.
  rewrite map_to_list_insert by done.
  rewrite map_to_list_insert by done.
  rewrite map_to_list_empty. apply perm_swap.
Qed.

Lemma register_same_name_last_wins_witness :
  getCommand
    (register plugin_b (register plugin_a server_empty command_GET) command_GET)
    "get" (inl (mkServerCommand command_GET plugin_b)).
Proof.
  apply (register_same_name_last_wins server_empty plugin_a plugin_b
           command_GET command_GET "get"%string).
  - reflexivity.
  - intros key [x Hx]. simpl in Hx. by rewrite lookup_empty in Hx.
  - reflexivity.
  - reflexivity.
Defined.

End registry_facts.

(** * Facts about the connection loop *)
Section dispatcher_facts.
Import utils main strings.
Implicit Types (w : Env) (evs : list ConnEvent) (cmd : list string)
  (order : list (string * ServerCommand)).

Lemma append_assoc (a b c : string) : (a +:+ b) +:+ c = a +:+ b +:+ c.
Proof.
  induction a as [|x a IH]; [done|].
  change (String x ((a +:+ b) +:+ c) = String x (a +:+ b +:+ c)).
  by rewrite IH.
Qed.

Lemma error_line_intro pre msg :
  error_line (("-" +:+ pre) +:+ msg +:+ CRLF +:+ NL).
Proof.
  exists (pre +:+ msg).
  change (String "-" (pre +:+ msg +:+ CRLF +:+ NL)
          = String "-" ((pre +:+ msg) +:+ CRLF +:+ NL)).
  by rewrite append_assoc.
Qed.

Lemma getCommand_in_perm order1 order2 N command :
  order1 ≡ₚ order2 →
  getCommand_in order1 N = inl command →
  ∃ command', getCommand_in order2 N = inl command'.
Proof.
  intros Hperm Hrun.
  apply getCommand_in_inl in Hrun as (key & Hin & Hfold).
  destruct (getCommand_in order2 N) as [command'|e] eqn:Hrun2; [by eexists|].
  rewrite Hperm in Hin.
  by rewrite (getCommand_in_inr _ _ _ Hrun2 _ _ Hin) in Hfold.
Qed.

Lemma replicate_no_handler w sid cid cmd plugin cmd' :
  EvHandle plugin cmd' ∉ replicate w sid cid cmd.
Proof.
  unfold replicate. intros Hin.
  destruct (json_Marshal w _) as [b|e]; [|not_in_list Hin].
  destruct (isRaftLeader w); [|not_in_list Hin].
  destruct (raft_Apply w b 500) as [e| |r]; [not_in_list Hin..|].
  destruct (resp_Error r); not_in_list Hin.
Qed.

Lemma write_flush_inv bytes bytes' :
  EvWrite bytes ∈ [EvWrite bytes'; EvFlush] → bytes = bytes'.
Proof.
  intros [Heq|Hin]%elem_of_cons; [by injection Heq|].
  by apply list_elem_of_singleton in Hin.
Qed.

Lemma replicate_writes w sid cid cmd bytes :
  EvWrite bytes ∈ replicate w sid cid cmd →
  (error_line bytes ∨ applied_payload w (replicate w sid cid cmd) bytes) ∧
  (∀ res, applied_payload w (replicate w sid cid cmd) res → bytes = res).
Proof.
  unfold applied_payload, replicate.
  destruct (json_Marshal w _) as [b|e].
  2:{ intros ->%write_flush_inv. split.
      - left. apply (error_line_intro "Error could not parse request"
                       EmptyString).
      - intros res (b & r & Hin & _). not_in_list Hin. }
  destruct (isRaftLeader w).
  2:{ intros ->%write_flush_inv. split.
      - left. apply (error_line_intro
                       "Error not cluster leader, cannot carry out command"
                       EmptyString).
      - intros res (b' & r & Hin & _). not_in_list Hin. }
  intros [?|Hin]%elem_of_cons; [done|].
  assert (∀ b' t evs, EvRaftApply b' t ∈ EvRaftApply b 500 :: evs →
            EvRaftApply b' t ∉ evs → b' = b) as Hsame.
  { intros b' t evs [Heq|?]%elem_of_cons ?; [by injection Heq|done]. }
  destruct (raft_Apply w b 500) as [e| |r] eqn:Happly.
  - apply write_flush_inv in Hin as ->. split.
    + left. apply (error_line_intro "Error " e).
    + intros res (b' & r & Hin & Hr & _).
      apply Hsame in Hin as ->; [|intros Hin'; not_in_list Hin'].
      rewrite Happly in Hr. discriminate Hr.
  - apply write_flush_inv in Hin as ->. split.
    + left. apply (error_line_intro "Error unprocessable entity " _).
    + intros res (b' & r & Hin & Hr & _).
      apply Hsame in Hin as ->; [|intros Hin'; not_in_list Hin'].
      rewrite Happly in Hr. discriminate Hr.
  - destruct (resp_Error r) as [e|] eqn:Herr.
    + apply write_flush_inv in Hin as ->. split.
      * left. apply (error_line_intro "Error " e).
      * intros res (b' & r' & Hin & Hr & Herr' & _).
        apply Hsame in Hin as ->; [|intros Hin'; not_in_list Hin'].
        rewrite Happly in Hr. injection Hr as <-.
        rewrite Herr in Herr'. discriminate Herr'.
    + apply write_flush_inv in Hin as ->. split.
      * right. exists b, r. split_and!; try done. apply list_elem_of_here.
      * intros res (b' & r' & Hin & Hr & _ & <-).
        apply Hsame in Hin as ->; [|intros Hin'; not_in_list Hin'].
        rewrite Happly in Hr. by injection Hr as <-.
Qed.

(** What one turn of the loop writes. *)
Lemma handleMessage_writes (s : Server) w sid cid message bytes :
  let evs := (handleMessage s w sid cid message).1 in
  EvWrite bytes ∈ evs →
  (error_line bytes ∨ handler_payload w evs bytes ∨ applied_payload w evs bytes) ∧
  (∀ res, handler_payload w evs res ∨ applied_payload w evs res → bytes = res) ∧
  (∀ plugin cmd e, EvHandle plugin cmd ∈ evs →
     HandleCommand w plugin cmd = inr e →
     bytes = "-" +:+ e +:+ CRLF +:+ NL).
Proof.
  assert (∀ bytes',
            EvWrite bytes ∈ [EvWrite bytes'; EvFlush] → error_line bytes' →
            (error_line bytes ∨
             handler_payload w [EvWrite bytes'; EvFlush] bytes ∨
             applied_payload w [EvWrite bytes'; EvFlush] bytes) ∧
            (∀ res, handler_payload w [EvWrite bytes'; EvFlush] res ∨
                    applied_payload w [EvWrite bytes'; EvFlush] res →
                    bytes = res) ∧
            (∀ plugin cmd e, EvHandle plugin cmd ∈ [EvWrite bytes'; EvFlush] →
               HandleCommand w plugin cmd = inr e →
               bytes = "-" +:+ e +:+ CRLF +:+ NL)) as Herror.
  { intros bytes' ->%write_flush_inv Hline. split_and!.
    - by left.
    - intros res [(p & c & Hin & _)|(b & r & Hin & _)]; not_in_list Hin.
    - intros p c e Hin. not_in_list Hin. }
  unfold handleMessage.
  destruct (Decode w message) as [cmd|e]; simpl.
  2:{ intros Hin. apply (Herror _ Hin). apply (error_line_intro "Error " e). }
  destruct cmd as [|name rest]; simpl; [by intros ?%elem_of_nil|].
  destruct (getCommand_in (range_dispatch w) name) as [command|e]; simpl.
  2:{ intros Hin. apply (Herror _ Hin).
      apply (error_line_intro EmptyString e). }
  destruct (AuthorizeConnection w _ _ _) as [e|]; simpl.
  { intros Hin. apply (Herror _ Hin). apply (error_line_intro EmptyString e). }
  destruct (negb (IsInCluster s) || negb (synchronize w command (name :: rest))).
  2:{ simpl. intros Hin. apply replicate_writes in Hin as [Hkind Hraw].
      split_and!.
      - destruct Hkind as [?|?]; auto.
      - intros res [(p & c & Hin & _)|Hpay]; [|by apply Hraw].
        by apply replicate_no_handler in Hin.
      - intros p c e Hin. by apply replicate_no_handler in Hin. }
  destruct (getCommand_in (range_plugin w) name) as [command'|e]; simpl.
  2:{ intros Hin. apply (Herror _ Hin).
      apply (error_line_intro EmptyString e). }
  assert (∀ p c evs, EvHandle p c ∈ EvHandle (sc_Plugin command') (name :: rest)
                                    :: evs →
            EvHandle p c ∉ evs →
            p = sc_Plugin command' ∧ c = name :: rest) as Hsame.
  { intros p c evs [Heq|?]%elem_of_cons ?; [by injection Heq|done]. }
  destruct (HandleCommand w (sc_Plugin command') (name :: rest))
    as [res|e] eqn:Hres; simpl.
  - intros [?|Hin]%elem_of_cons; [done|].
    apply write_flush_inv in Hin as ->. split_and!.
    + right. left. exists (sc_Plugin command'), (name :: rest).
      split; [apply list_elem_of_here|done].
    + intros res' [(p & c & Hin & Hres')|(b & r & Hin & _)];
        [|not_in_list Hin].
      apply Hsame in Hin as [-> ->]; [|intros Hin'; not_in_list Hin'].
      rewrite Hres in Hres'. by injection Hres'.
    + intros p c e Hin Hres'.
      apply Hsame in Hin as [-> ->]; [|intros Hin'; not_in_list Hin'].
      rewrite Hres in Hres'. discriminate Hres'.
  - intros [?|Hin]%elem_of_cons; [done|].
    apply write_flush_inv in Hin as ->. split_and!.
    + left. apply (error_line_intro EmptyString e).
    + intros res' [(p & c & Hin & Hres')|(b & r & Hin & _)];
        [|not_in_list Hin].
      apply Hsame in Hin as [-> ->]; [|intros Hin'; not_in_list Hin'].
      rewrite Hres in Hres'. discriminate Hres'.
    + intros p c e' Hin Hres'.
      apply Hsame in Hin as [-> ->]; [|intros Hin'; not_in_list Hin'].
      rewrite Hres in Hres'. by injection Hres' as <-.
Qed.

(** C9. Whatever the loop of [handleConnection] writes to the client is
    written by the turn of one of the messages, and it is either an error
    line, which ends with ["\\r\\n"] and one more ["\\n"] (decoding error,
    unknown command, denied by the ACL, error of the handler, request that
    cannot be marshalled, error of the replication, node that is not the
    leader), or the bytes a handler or an applied request returned without
    an error. These bytes are written as they are, with no suffix: when
    the handler of the turn, or its applied request, returned bytes without
    an error, what the turn writes is exactly these bytes. And when the
    handler returned an error, what the turn writes is exactly ["-"], the
    text of the error, ["\\r\\n"] and ["\\n"]. *)
Theorem error_responses_end_with_extra_newline (s : Server) sid cid input bytes :
  EvWrite bytes ∈ handleConnection s sid cid input →
  ∃ message w, (ReadMessage message, w) ∈ input ∧
    let evs := (handleMessage s w sid cid message).1 in
    EvWrite bytes ∈ evs ∧
    (error_line bytes ∨ handler_payload w evs bytes ∨
     applied_payload w evs bytes) ∧
    (∀ res, handler_payload w evs res ∨ applied_payload w evs res →
            bytes = res) ∧
    (∀ plugin cmd e, EvHandle plugin cmd ∈ evs →
       HandleCommand w plugin cmd = inr e →
       bytes = "-" +:+ e +:+ CRLF +:+ NL).
Proof.
  set (good := λ inp : list (ReadResult * Env),
         ∃ message w, (ReadMessage message, w) ∈ inp ∧
           let evs := (handleMessage s w sid cid message).1 in
           EvWrite bytes ∈ evs ∧
           (error_line bytes ∨ handler_payload w evs bytes ∨
            applied_payload w evs bytes) ∧
           (∀ res, handler_payload w evs res ∨ applied_payload w evs res →
                   bytes = res) ∧
           (∀ plugin cmd e, EvHandle plugin cmd ∈ evs →
              HandleCommand w plugin cmd = inr e →
              bytes = "-" +:+ e +:+ CRLF +:+ NL)).
  change (EvWrite bytes ∈ handleConnection s sid cid input → good input).
  assert (∀ x inp, good inp → good (x :: inp)) as Hlater.
  { intros x inp (m & w' & Hm & Hrest).
    exists m, w'. split; [by apply list_elem_of_further|done]. }
  induction input as [|[rd w] input IH]; simpl.
  { by intros ?%elem_of_nil. }
  destruct rd as [|e|message].
  - intros Hin. apply list_elem_of_singleton in Hin. discriminate.
  - intros [?|Hin]%elem_of_cons; [done|]. by apply Hlater, IH.
  - pose proof (handleMessage_writes s w sid cid message bytes) as Hturn.
    assert (EvWrite bytes ∈ (handleMessage s w sid cid message).1 →
            good ((ReadMessage message, w) :: input)) as Hnow.
    { intros Hin. exists message, w.
      split; [apply list_elem_of_here|]. split; [done|]. by apply Hturn. }
    destruct (handleMessage s w sid cid message) as [evs [why|]]; simpl in *.
    + intros [Hin|Hin]%elem_of_app; [by apply Hnow|].
      apply list_elem_of_singleton in Hin. discriminate.
    + intros [Hin|Hin]%elem_of_app; [by apply Hnow|]. by apply Hlater, IH.
Qed.

Lemma error_responses_end_with_extra_newline_witness :
  EvWrite "+OK"
    ∈ handleConnection (server_SET false) "node1" "node1-1"
        [(ReadMessage "SET foo 1", env_SET false (inl "+OK"%string));
         (ReadEOF, env_SET false (inl "+OK"%string))] ∧
  EvWrite ("-denied" +:+ CRLF +:+ NL)
    ∈ handleConnection (server_SET false) "node1" "node1-1"
        [(ReadMessage "SET foo 1", env_SET false (inr "denied"%string));
         (ReadEOF, env_SET false (inl "+OK"%string))] ∧
  (∀ res,
     HandleCommand (env_SET false (inl "+OK"%string)) plugin_str
       ["set"; "foo"; "1"]%string = inl res →
     "+OK"%string = res) ∧
  error_line ("-denied" +:+ CRLF +:+ NL).
Proof.
  assert (EvWrite "+OK"
            ∈ handleConnection (server_SET false) "node1" "node1-1"
                [(ReadMessage "SET foo 1", env_SET false (inl "+OK"%string));
                 (ReadEOF, env_SET false (inl "+OK"%string))]) as Hok.
  { vm_compute. apply list_elem_of_further, list_elem_of_here. }
  assert (EvWrite ("-denied" +:+ CRLF +:+ NL)
            ∈ handleConnection (server_SET false) "node1" "node1-1"
                [(ReadMessage "SET foo 1", env_SET false (inr "denied"%string));
                 (ReadEOF, env_SET false (inl "+OK"%string))]) as Herr.
  { vm_compute. apply list_elem_of_further, list_elem_of_here. }
  split; [exact Hok|]. split; [exact Herr|]. split.
  - destruct (error_responses_end_with_extra_newline _ _ _ _ _ Hok)
      as (message & w & Hmem & Hin & _ & Hraw & _).
    apply elem_of_cons in Hmem as [Heq|Hmem].
    2:{ apply list_elem_of_singleton in Hmem. discriminate Hmem. }
    injection Heq as -> ->.
    intros res Hres. apply Hraw. left.
    exists plugin_str, ["set"; "foo"; "1"]%string.
    split; [apply list_elem_of_here|exact Hres].
  - destruct (error_responses_end_with_extra_newline _ _ _ _ _ Herr)
      as (message & w & Hmem & Hin & [Hline|[Hpay|Hpay]] & _).
    + exact Hline.
    + exfalso. destruct Hpay as (plugin & cmd & _ & Hres).
      apply elem_of_cons in Hmem as [Heq|Hmem].
      * injection Heq as -> ->. simpl in Hres. discriminate Hres.
      * apply list_elem_of_singleton in Hmem. discriminate Hmem.
    + exfalso. destruct Hpay as (b & r & _ & Hres & _).
      apply elem_of_cons in Hmem as [Heq|Hmem].
      * injection Heq as -> ->. simpl in Hres. discriminate Hres.
      * apply list_elem_of_singleton in Hmem. discriminate Hmem.
Defined.

(** C4. A command that was decoded and authorized, whose [synchronize]
    flag is set, on a node that is in a cluster and is not the raft leader
    (the request itself being marshalled, as a struct of strings always
    is): the turn writes the line
    ["-Error not cluster leader, cannot carry out command\r\n"], with the
    one more ["\n"] of every error line, and flushes; no handler is run
    and nothing is submitted to raft. *)
Theorem follower_rejects_replicated_command (s : Server) w sid cid message
    name rest command b :
  Decode w message = inl (name :: rest) →
  getCommand_in (range_dispatch w) name = inl command →
  AuthorizeConnection w (name :: rest) (sc_Command command)
    (GetSubCommand w command (name :: rest)) = None →
  synchronize w command (name :: rest) = true →
  IsInCluster s = true →
  isRaftLeader w = false →
  json_Marshal w (mkApplyRequest sid cid (name :: rest)) = inl b →
  let evs := (handleMessage s w sid cid message).1 in
  evs = [EvWrite (("-Error not cluster leader, cannot carry out command"
                   +:+ CRLF) +:+ NL); EvFlush] ∧
  (handleMessage s w sid cid message).2 = None ∧
  (∀ plugin cmd, EvHandle plugin cmd ∉ evs) ∧
  (∀ b' t, EvRaftApply b' t ∉ evs).
Proof.
  intros Hdecode Hfound Hauth Hsync Hcluster Hleader Hjson.
  unfold handleMessage.
  rewrite Hdecode, Hfound, Hauth, Hsync, Hcluster. simpl.
  unfold replicate. rewrite Hjson, Hleader.
  split_and!; try done.
  - intros plugin cmd Hin. not_in_list Hin.
  - intros b' t Hin. not_in_list Hin.
Qed.

Lemma follower_rejects_replicated_command_witness :
  (handleMessage (server_SET true) (env_SET false (inl "+OK"%string))
     "node1" "node1-1" "SET foo 1").1
  = [EvWrite (("-Error not cluster leader, cannot carry out command"
               +:+ CRLF) +:+ NL); EvFlush].
Proof.
  apply (follower_rejects_replicated_command (server_SET true)
           (env_SET false (inl "+OK"%string)) "node1" "node1-1" "SET foo 1"
           "set" ["foo"; "1"]%string
           (mkServerCommand command_SET plugin_str) "{}");
    reflexivity.
Defined.

(** C5. For a command that was decoded, found and authorized, the handler
    is run by this turn of the loop exactly when the node is not in a
    cluster or the [synchronize] flag is not set; the flag is the [Sync] of
    the subcommand when [GetSubCommand] gives one and the [Sync] of the
    command otherwise. In a cluster with the flag set, the turn is the
    replication of the command, which runs no handler. *)
Theorem handler_runs_locally_iff_not_replicated (s : Server) w sid cid message
    name rest command :
  range_dispatch w ≡ₚ map_to_list (commands s) →
  range_plugin w ≡ₚ map_to_list (commands s) →
  Decode w message = inl (name :: rest) →
  getCommand_in (range_dispatch w) name = inl command →
  AuthorizeConnection w (name :: rest) (sc_Command command)
    (GetSubCommand w command (name :: rest)) = None →
  let cmd := name :: rest in
  let evs := (handleMessage s w sid cid message).1 in
  let sync :=
    match GetSubCommand w command cmd with
    | Some subCommand => sub_Sync subCommand
    | None => cmd_Sync (sc_Command command)
    end in
  ((∃ plugin, EvHandle plugin cmd ∈ evs) ↔
     IsInCluster s = false ∨ sync = false) ∧
  (IsInCluster s = true → sync = true →
     evs = replicate w sid cid cmd ∧
     ∀ plugin cmd', EvHandle plugin cmd' ∉ evs).
Proof.
  intros Hperm1 Hperm2 Hdecode Hfound Hauth cmd evs sync.
  assert (sync = synchronize w command cmd) as Hsync by done.
  destruct (getCommand_in_perm (range_dispatch w) (range_plugin w) name command)
    as [command' Hfound']; [by rewrite Hperm1, Hperm2|done|].
  unfold evs, handleMessage.
  rewrite Hdecode, Hfound, Hauth. fold cmd. rewrite <- Hsync.
  destruct (IsInCluster s) eqn:Hcluster, sync eqn:Hflag; simpl.
  - split.
    + split; [|by intros [|]].
      intros [plugin Hin]. by apply replicate_no_handler in Hin.
    + intros _ _. split; [done|]. intros plugin cmd'.
      apply replicate_no_handler.
  - split; [|done]. split; [by right|]. intros _.
    unfold cmd. rewrite Hfound'. exists (sc_Plugin command').
    destruct (HandleCommand w _ _); apply list_elem_of_here.
  - split; [|done]. split; [by left|]. intros _.
    unfold cmd. rewrite Hfound'. exists (sc_Plugin command').
    destruct (HandleCommand w _ _); apply list_elem_of_here.
  - split; [|done]. split; [by left|]. intros _.
    unfold cmd. rewrite Hfound'. exists (sc_Plugin command').
    destruct (HandleCommand w _ _); apply list_elem_of_here.
Qed.

Lemma handler_runs_locally_iff_not_replicated_witness :
  (∃ plugin, EvHandle plugin ["set"; "foo"; "1"]%string
     ∈ (handleMessage (server_SET false) (env_SET false (inl "+OK"%string))
          "node1" "node1-1" "SET foo 1").1) ∧
  (handleMessage (server_SET true) (env_SET true (inl "+OK"%string))
     "node1" "node1-1" "SET foo 1").1
  = replicate (env_SET true (inl "+OK"%string)) "node1" "node1-1"
      ["set"; "foo"; "1"]%string.
Proof.
  split.
  - apply (handler_runs_locally_iff_not_replicated (server_SET false)
             (env_SET false (inl "+OK"%string)) "node1" "node1-1" "SET foo 1"
             "set" ["foo"; "1"]%string
             (mkServerCommand command_SET plugin_str)).
    + simpl. by rewrite map_to_list_singleton.
    + simpl. by rewrite map_to_list_singleton.
    + reflexivity.
    + reflexivity.
    + reflexivity.
    + left. reflexivity.
  - apply (handler_runs_locally_iff_not_replicated (server_SET true)
             (env_SET true (inl "+OK"%string)) "node1" "node1-1" "SET foo 1"
             "set" ["foo"; "1"]%string
             (mkServerCommand command_SET plugin_str)).
    + simpl. by rewrite map_to_list_singleton.
    + simpl. by rewrite map_to_list_singleton.
    + reflexivity.
    + reflexivity.
    + reflexivity.
    + reflexivity.
    + reflexivity.
Defined.

End dispatcher_facts.

(** * More facts about the linked list *)
Section linked_list_chains.
Import LinkedList.
Context {T : Type} `{EqDecision T}.
Implicit Types (h : list (@Node T)) (l : LinkedList) (st : @state T) (p q : ptr)
  (ns : list nat) (vs : list T).

Lemma node_values_unfold h a ns :
  node_values h (a :: ns) =
    match value <$> h !! a with
    | Some x => x :: node_values h ns
    | None => node_values h ns
    end.
Proof. done. Qed.

Lemma node_values_cons h a nd ns :
  h !! a = Some nd → node_values h (a :: ns) = value nd :: node_values h ns.
Proof. intros Ha. by rewrite node_values_unfold, Ha. Qed.

Lemma node_values_app h ns1 ns2 :
  node_values h (ns1 ++ ns2) = node_values h ns1 ++ node_values h ns2.
Proof. apply omap_app. Qed.

Lemma node_values_same_values h h' ns :
  (∀ a, value <$> h' !! a = value <$> h !! a) →
  node_values h' ns = node_values h ns.
Proof.
  intros Hsame. induction ns as [|a ns IH]; [done|].
  by rewrite !node_values_unfold, Hsame, IH.
Qed.

Lemma lseg_app_inv h p ns1 ns2 q :
  lseg h p (ns1 ++ ns2) q → ∃ m, lseg h p ns1 m ∧ lseg h m ns2 q.
Proof.
  revert p. induction ns1 as [|a ns1 IH]; intros p Hseg.
  - exists p. split; [constructor|done].
  - inversion Hseg as [|a' nd ns' q' Ha Hrest]; subst.
    destruct (IH _ Hrest) as (m & H1 & H2).
    exists m. split; [by econstructor|done].
Qed.

Lemma lseg_app_intro h p ns1 m ns2 q :
  lseg h p ns1 m → lseg h m ns2 q → lseg h p (ns1 ++ ns2) q.
Proof.
  induction 1 as [p|a nd ns1 m Ha Hrest IH]; intros H2; [done|].
  simpl. econstructor; [done|]. by apply IH.
Qed.

(** Writing to a node outside a segment leaves the segment as it is. *)
Lemma lseg_frame h p ns q a x :
  lseg h p ns q → a ∉ ns → lseg (<[a := x]> h) p ns q.
Proof.
  induction 1 as [p|b nd ns q Hb Hrest IH]; intros Hnotin; [constructor|].
  apply not_elem_of_cons in Hnotin as [Hne Hnotin].
  econstructor; [|by apply IH].
  by rewrite list_lookup_insert_ne.
Qed.

(** The traversal of [Print] over a segment that ends at nil or at the
    node where the traversal stops. *)
Lemma walk_lseg h stop p ns q fuel :
  lseg h p ns q → (q = None ∨ q = stop) →
  (∀ a, a ∈ drop 1 ns → stop ≠ Some a) →
  ns ≠ [] → length ns ≤ fuel →
  walk fuel h stop p = node_values h ns.
Proof.
  intros Hseg Hq. revert fuel.
  induction Hseg as [p|a nd ns q Ha Hrest IH]; intros fuel Hstop Hne Hfuel;
    [by destruct Hne|].
  destruct fuel as [|fuel]; [simpl in Hfuel; lia|].
  rewrite (node_values_cons _ _ _ _ Ha). simpl. rewrite Ha. f_equal.
  simpl in Hstop.
  destruct ns as [|b ns].
  - inversion Hrest; subst. unfold ptr_eqb.
    case_bool_decide as Hstop'; [done|].
    destruct Hq as [Hq|Hq]; [|by destruct Hstop'].
    rewrite Hq. by destruct fuel.
  - assert (next nd = Some b) as Hb by by eapply lseg_first.
    rewrite Hb. unfold ptr_eqb. rewrite bool_decide_eq_false_2.
    2:{ intros Heq. eapply Hstop; [apply list_elem_of_here|done]. }
    rewrite <- Hb. apply IH; [done| |done|simpl in *; lia].
    intros c Hc. apply Hstop. by apply list_elem_of_further.
Qed.




End linked_list_chains.

Section linked_list_built.
Import LinkedList.
Context {T : Type} `{EqDecision T}.
Implicit Types (h : list (@Node T)) (l : LinkedList) (st : @state T) (p q : ptr)
  (ns : list nat) (vs : list T).

Lemma bind_Done {A B} (a : A) (k : A → result B) : (Done a ≫= k) = k a.
Proof. done. Qed.

Lemma node_values_seq h vs j k :
  (∀ i x, vs !! i = Some x → ∃ nd, h !! i = Some nd ∧ value nd = x) →
  j + k ≤ length vs →
  node_values h (seq j k) = take k (drop j vs).
Proof.
  intros Hh. revert j. induction k as [|k IH]; intros j Hjk; [done|].
  destruct (lookup_lt_is_Some_2 vs j ltac:(lia)) as [x Hx].
  destruct (Hh _ _ Hx) as (nd & Hnd & <-).
  simpl. rewrite (node_values_cons _ _ _ _ Hnd), (drop_S _ _ _ Hx). simpl.
  f_equal. apply IH. lia.
Qed.

Lemma nodes_of_values rg vs i x :
  vs !! i = Some x → ∃ nd, nodes_of rg vs !! i = Some nd ∧ value nd = x.
Proof. intros Hx. eexists. split; [by apply lookup_nodes_of|done]. Qed.

Lemma node_values_nodes_of rg vs :
  node_values (nodes_of rg vs) (seq 0 (length vs)) = vs.
Proof.
  rewrite (node_values_seq _ vs); [|apply nodes_of_values|lia].
  by rewrite drop_0, firstn_all.
Qed.

Lemma built_chain rg vs :
  vs ≠ [] →
  lseg (nodes_of rg vs) (Some 0) (seq 0 (length vs))
    (last_next rg (length vs)).
Proof.
  intros Hne. pose proof (lseg_nodes_of rg vs (length vs) 0 eq_refl) as Hseg.
  by destruct vs.
Qed.

Lemma last_next_cases rg n : last_next rg n = None ∨ last_next rg n = Some 0.
Proof. unfold last_next. destruct (rg && _); auto. Qed.

Lemma built_head rg vs : vs ≠ [] → head (list_of rg vs) = Some 0.
Proof. by destruct vs. Qed.

Lemma seq_1_no_0 n a : a ∈ seq 1 n → Some 0 ≠ Some a.
Proof. intros Hin%elem_of_seq [= <-]. lia. Qed.

(** X1. What a sequence of [Add] builds, in both modes: node [i] holds the
    [i]-th value added; [head] is the first node; [tail] is nil until the
    second [Add] and the last node from then on; following [next] from the
    head goes through the nodes in the order of the [Add]s and ends at nil,
    or, in a ring of two nodes or more, at the head again. *)
Theorem Add_builds_chain_or_ring rg vs :
  ∃ h l, build rg vs = Done (h, l) ∧
    ring l = rg ∧
    length h = length vs ∧
    node_values h (seq 0 (length vs)) = vs ∧
    head l = match vs with [] => None | _ => Some 0 end ∧
    tail l = (if decide (2 ≤ length vs) then Some (length vs - 1) else None) ∧
    lseg h (head l) (seq 0 (length vs))
      (if rg && bool_decide (2 ≤ length vs) then head l else None).
Proof.
  exists (nodes_of rg vs), (list_of rg vs).
  split; [apply build_built|].
  split_and!; try done.
  - apply length_nodes_of.
  - apply node_values_nodes_of.
  - destruct vs as [|v vs]; [by rewrite andb_false_r; constructor|].
    pose proof (built_chain rg (v :: vs) ltac:(done)) as Hseg.
    unfold last_next in Hseg. simpl in *.
    by destruct (rg && _).
Qed.

Lemma values_built rg vs fuel :
  length vs ≤ fuel → values fuel (nodes_of rg vs, list_of rg vs) = vs.
Proof.
  intros Hfuel. unfold values. cbn [fst snd].
  destruct (decide (vs = [])) as [->|Hne]; [by destruct fuel|].
  rewrite (built_head rg _ Hne).
  rewrite (walk_lseg _ _ _ (seq 0 (length vs)) (last_next rg (length vs))).
  - apply node_values_nodes_of.
  - by apply built_chain.
  - apply last_next_cases.
  - destruct vs as [|v vs]; [done|]. simpl. rewrite drop_0.
    intros a. apply seq_1_no_0.
  - by destruct vs.
  - by rewrite length_seq.
Qed.

(** X2. The traversal of [Print] over a list built by [Add] meets exactly
    the values that were added, in the order of the [Add]s, in linear mode
    and in ring mode (where it stops when it is back at the head). *)
Theorem Print_traversal_of_built_list rg vs fuel :
  length vs ≤ fuel →
  (st ← build rg vs; mret (values fuel st)) = Done vs.
Proof.
  intros Hfuel. rewrite build_built.
  change (Done (values fuel (nodes_of rg vs, list_of rg vs)) = Done vs).
  f_equal. by apply values_built.
Qed.



(** X5. [Iter] over a list built by [Add]. In linear mode it sends the
    nodes in the order of the [Add]s, each once, and closes the channel. In
    ring mode, on a list that is not empty, it never closes the channel:
    the [i]-th node sent is the node of the [(i mod n)]-th [Add]. *)
Theorem Iter_over_built_list vs :
  (∀ fuel, length vs < fuel →
     (st ← build false vs; mret (Iter fuel st))
     = Done (seq 0 (length vs), true)) ∧
  (vs ≠ [] → ∀ fuel, ∃ sent,
     (st ← build true vs; mret (Iter fuel st)) = Done (sent, false) ∧
     length sent = fuel ∧
     ∀ i, i < fuel → sent !! i = Some (i mod length vs)).
Proof.
  split.
  - intros fuel Hfuel. rewrite build_built.
    change (Done (Iter fuel (nodes_of false vs, list_of false vs))
            = Done (seq 0 (length vs), true)).
    f_equal. unfold Iter. cbn [fst snd].
    apply Iter_loop_linear; [done| |by rewrite length_seq].
    destruct vs as [|v vs]; [constructor|].
    apply (built_chain false (v :: vs)). done.
  - intros Hne fuel. rewrite build_built.
    change (∃ sent,
      Done (Iter fuel (nodes_of true vs, list_of true vs)) = Done (sent, false) ∧
      length sent = fuel ∧ ∀ i, i < fuel → sent !! i = Some (i mod length vs)).
    unfold Iter. cbn [fst snd].
    rewrite (built_head true _ Hne).
    destruct (decide (length vs = 1)) as [Hone|Hmore].
    + destruct vs as [|v [|? ?]]; try done.
      exists (replicate fuel 0). split_and!.
      * f_equal. by eapply Iter_loop_single.
      * apply length_replicate.
      * intros i Hi. by rewrite lookup_replicate_2.
    + assert (2 ≤ length vs) as Hlen.
      { destruct vs as [|? [|? ?]]; simpl in *; try done; lia. }
      pose proof (built_chain true vs Hne) as Hseg.
      unfold last_next in Hseg. rewrite bool_decide_eq_true_2 in Hseg by done.
      simpl in Hseg. rewrite <- (built_head true vs Hne) in Hseg.
      destruct (Iter_loop_cycle (nodes_of true vs) (list_of true vs)
                  (seq 0 (length vs)) fuel 0 0 Hseg)
        as (sent & Hrun & Hlength & Hsent).
      { apply lookup_seq_lt. lia. }
      exists sent. split_and!; [by rewrite Hrun|done|].
      intros i Hi. rewrite Hsent by done. rewrite length_seq. simpl.
      apply lookup_seq_lt. apply Nat.mod_upper_bound. lia.
Qed.

End linked_list_built.


(** * More facts about chains of nodes *)
Section linked_list_more_chains.
Import LinkedList.
Context {T : Type}.
Implicit Types (h : list (@Node T)) (l : LinkedList) (st : @state T) (p q : ptr)
  (ns : list nat) (vs : list T).

(** The chain after a node has been unlinked. *)
Lemma lseg_unlink h p front c b post nd_c nd_b :
  lseg h p (front ++ c :: b :: post) None →
  h !! c = Some nd_c → h !! b = Some nd_b →
  lseg (<[c := mkNode (value nd_c) (next nd_b)]> h) p (front ++ c :: post) None.
Proof.
  intros Hseg Hc Hb.
  pose proof (lseg_to_nil_NoDup _ _ _ Hseg) as Hnodup.
  apply NoDup_app in Hnodup as (_ & Hfront & Hnodup).
  apply NoDup_cons in Hnodup as [Hcb Hnodup].
  apply lseg_app_inv in Hseg as (m & Hseg1 & Hseg2).
  inversion Hseg2 as [|c' nd_c' ns' q' Hc' Hrest]; subst.
  inversion Hrest as [|b' nd_b' ns' q' Hb' Hrest']; subst.
  rewrite Hb in Hb'. injection Hb' as <-.
  eapply lseg_app_intro.
  - apply lseg_frame; [done|]. intros Hin. by apply (Hfront c Hin), list_elem_of_here.
  - econstructor.
    + apply list_lookup_insert_eq. by eapply lookup_lt_Some.
    + simpl. apply lseg_frame; [done|].
      intros Hin. apply Hcb. by apply list_elem_of_further.
Qed.

Lemma insert_next_same_values h c nd_c nx a :
  h !! c = Some nd_c →
  value <$> <[c := mkNode (value nd_c) nx]> h !! a = value <$> h !! a.
Proof.
  intros Hc. destruct (decide (a = c)) as [->|Hne].
  - rewrite list_lookup_insert_eq by by eapply lookup_lt_Some. by rewrite Hc.
  - by rewrite list_lookup_insert_ne.
Qed.


Lemma lseg_heap_app h h' p ns q : lseg h p ns q → lseg (h ++ h') p ns q.
Proof.
  induction 1 as [p|a nd ns q Ha Hrest IH]; [constructor|].
  econstructor; [|done]. by apply lookup_app_l_Some.
Qed.

Lemma lseg_nodes_allocated h p ns q a :
  lseg h p ns q → a ∈ ns → ∃ nd, h !! a = Some nd.
Proof.
  induction 1 as [p|b nd ns q Hb Hrest IH]; intros Hin.
  - by apply elem_of_nil in Hin.
  - apply elem_of_cons in Hin as [->|Hin]; [by eexists|by apply IH].
Qed.

Lemma lseg_nil_start h ns q : lseg h None ns q → ns = [] ∧ q = None.
Proof. by inversion 1. Qed.

Lemma lseg_empty h p q : lseg h p [] q → p = q.
Proof. by inversion 1. Qed.

Lemma node_values_ext h h' ns :
  (∀ a, a ∈ ns → value <$> h' !! a = value <$> h !! a) →
  node_values h' ns = node_values h ns.
Proof.
  induction ns as [|a ns IH]; intros Hsame; [done|].
  rewrite !node_values_unfold, Hsame by apply list_elem_of_here.
  rewrite IH; [done|]. intros b Hb. apply Hsame. by apply list_elem_of_further.
Qed.

(** The traversal of [Print] over a linear chain. *)
Lemma values_linear_chain st ns fuel :
  linear_shape st ns → length ns ≤ fuel →
  values fuel st = node_values (fst st) ns.
Proof.
  destruct st as [h l]. intros [_ Hseg] Hfuel. cbn [fst snd] in *.
  unfold values. cbn [fst snd].
  destruct ns as [|a ns].
  { rewrite (lseg_empty _ _ _ Hseg). by destruct fuel. }
  pose proof (lseg_to_nil_NoDup _ _ _ Hseg) as [Hnotin _]%NoDup_cons.
  assert (head l = Some a) as Hhead by (by eapply lseg_first).
  rewrite Hhead in *.
  apply (walk_lseg _ _ _ _ None); [done|by left| |done|done].
  simpl. rewrite drop_0. by intros b Hb [= <-].
Qed.

(** [Add] on a linear chain whose [tail] is its last node, or is still nil
    with one node at most: the new node comes after the last one. *)
Lemma Add_linear_chain h l w ns :
  ring l = false →
  lseg h (head l) ns None →
  (tail l = last ns ∨ (length ns ≤ 1 ∧ tail l = None)) →
  ∃ h' l',
    Add w (h, l) = Done (h', l') ∧
    ring l' = false ∧
    lseg h' (head l') (ns ++ [length h]) None ∧
    node_values h' (ns ++ [length h]) = node_values h ns ++ [w] ∧
    tail l' = (if decide (ns = []) then None else Some (length h)).
Proof.
  intros Hring Hseg Htail.
  assert (length h < length (h ++ [mkNode w None])) as Hlt.
  { rewrite length_app. simpl. lia. }
  assert ((h ++ [mkNode w None]) !! length h = Some (mkNode w None)) as Hnew.
  { rewrite lookup_app_r by lia. by rewrite Nat.sub_diag. }
  destruct (last ns) as [t|] eqn:Hlast.
  2:{ (* no node yet *)
    apply last_None in Hlast as ->.
    apply lseg_empty in Hseg.
    assert (tail l = None) as Htl by (by destruct Htail as [?|[_ ?]]).
    eexists _, _. split.
    { unfold Add. rewrite Hseg. unfold is_nil at 1.
      rewrite bool_decide_eq_true_2 by done. unfold NewNode. done. }
    split_and!; try done.
    - cbn [head app]. econstructor; [exact Hnew|constructor].
    - cbn [app]. by rewrite (node_values_cons _ _ _ _ Hnew). }
  (* the new node goes behind the last node [t] *)
  pose proof Hlast as [front Hfront]%last_Some.
  assert (∃ a, head l = Some a ∧ ns !! 0 = Some a) as (a & Hhead & Hfirst).
  { destruct ns as [|a ns']; [by destruct front|].
    exists a. split; [by eapply lseg_first|done]. }
  assert (t ∈ ns) as Hin.
  { rewrite Hfront. apply elem_of_app. right. apply list_elem_of_here. }
  destruct (lseg_nodes_allocated _ _ _ _ _ Hseg Hin) as [nd_t Ht].
  assert (t < length h) as Htlt by by eapply lookup_lt_Some.
  set (h1 := h ++ [mkNode w None]).
  set (h2 := <[t := mkNode (value nd_t) (Some (length h))]> h1).
  assert (set_next h1 (Some t) (Some (length h)) = Done h2) as Hset.
  { unfold set_next. cbn [load]. unfold h1.
    by rewrite (lookup_app_l_Some _ _ _ _ Ht), bind_Done. }
  assert (Add w (h, l) = Done (h2, mkList (head l) (Some (length h)) false))
    as Hadd.
  { unfold Add. rewrite Hhead. unfold is_nil at 1.
    rewrite bool_decide_eq_false_2 by done.
    rewrite Hring. cbn [negb andb]. rewrite andb_true_r, andb_false_r.
    unfold NewNode. fold h1.
    destruct Htail as [Htl|[Hlen Htl]].
    - rewrite Htl. unfold is_nil. rewrite bool_decide_eq_false_2 by done.
      by rewrite Hset.
    - rewrite Htl. unfold is_nil. rewrite bool_decide_eq_true_2 by done.
      assert (a = t) as ->.
      { clear Hfront Hin. destruct ns as [|a' [|? ?]]; simpl in *; [done| |lia].
        congruence. }
      by rewrite Hset. }
  pose proof (lseg_to_nil_NoDup _ _ _ Hseg) as Hnodup.
  pose proof Hseg as Hseg0.
  rewrite Hfront in Hnodup, Hseg.
  apply NoDup_app in Hnodup as (_ & Hnotin & _).
  apply lseg_app_inv in Hseg as (m & Hseg1 & Hseg2).
  inversion Hseg2 as [|t' nd' ns' q' Ht' Hend]; subst t' ns' q' m.
  assert (h2 !! t = Some (mkNode (value nd_t) (Some (length h)))) as Ht2.
  { unfold h2. apply list_lookup_insert_eq. unfold h1. lia. }
  assert (h2 !! length h = Some (mkNode w None)) as Hnew2.
  { unfold h2. rewrite list_lookup_insert_ne by lia. exact Hnew. }
  exists h2, (mkList (head l) (Some (length h)) false).
  split; [exact Hadd|]. split_and!; try done.
  - cbn [head]. rewrite Hfront, <- app_assoc.
    eapply lseg_app_intro.
    + apply lseg_frame; [by apply lseg_heap_app|].
      intros Hin'. by apply (Hnotin t Hin'), list_elem_of_here.
    + econstructor; [exact Ht2|]. econstructor; [exact Hnew2|constructor].
  - rewrite node_values_app, (node_values_cons _ _ _ _ Hnew2). f_equal.
    apply node_values_ext. intros b Hb.
    destruct (lseg_nodes_allocated _ _ _ _ b Hseg0 Hb) as [nd_b Hnd_b].
    destruct (decide (b = t)) as [->|Hne].
    + by rewrite Ht2, Ht.
    + unfold h2, h1. rewrite list_lookup_insert_ne by done.
      by rewrite (lookup_app_l_Some _ _ _ _ Hnd_b), Hnd_b.
  - cbn [tail]. rewrite decide_False; [done|].
    rewrite Hfront. by destruct front.
Qed.

Lemma length_node_values h p ns q :
  lseg h p ns q → length (node_values h ns) = length ns.
Proof.
  induction 1 as [p|a nd ns q Ha Hrest IH]; [done|].
  rewrite (node_values_cons _ _ _ _ Ha). simpl. by rewrite IH.
Qed.

(** The cycle that is left when the last node of a ring built by [Add] is
    made to point to the second node. *)
Lemma lseg_ring_without_head (vs : list T) nd k j :
  2 ≤ length vs → 1 ≤ j → j + k = length vs →
  lseg (<[length vs - 1 := mkNode (value nd) (Some 1)]> (nodes_of true vs))
    (match k with 0 => Some 1 | S _ => Some j end) (seq j k) (Some 1).
Proof.
  intros Hlen. revert j. induction k as [|k IH]; intros j Hj Hjk; [constructor|].
  simpl. destruct (decide (j = length vs - 1)) as [->|Hne].
  - assert (k = 0) as -> by lia. econstructor.
    + apply list_lookup_insert_eq. rewrite length_nodes_of. lia.
    + constructor.
  - destruct (lookup_lt_is_Some_2 vs j ltac:(lia)) as [x Hx].
    econstructor.
    + rewrite list_lookup_insert_ne by done. by apply lookup_nodes_of.
    + simpl. rewrite decide_True by lia.
      specialize (IH (S j) ltac:(lia) ltac:(lia)).
      destruct k as [|k]; [lia|done].
Qed.

End linked_list_more_chains.

(** * [Contains] and [Remove] under any [==] *)
Section linked_list_equality.
Import LinkedList.
Context {T : Type} `{EqDecision T}.

(** [Contains] and [Remove] of [LinkedList] are those of [Comparable] at
    the test that decides the equality of values. *)
Lemma Contains_loop_at_equality fuel (h : list (@Node T)) l v n :
  Contains_loop fuel h l v n
  = Comparable.Contains_loop (λ x y, bool_decide (x = y)) fuel h l v n.
Proof.
  revert n. induction fuel as [|fuel IH]; intros n; [done|].
  simpl. destruct (is_nil n || ptr_eqb n (head l)); [done|].
  destruct (load h n) as [nd| |]; [|done..]. simpl.
  by destruct (bool_decide (value nd = v)).
Qed.

Lemma Contains_at_equality fuel (v : T) st :
  Contains fuel v st
  = Comparable.Contains (λ x y, bool_decide (x = y)) fuel v st.
Proof.
  destruct st as [h l]. unfold Contains, Comparable.Contains.
  destruct (is_nil (head l)); [done|].
  destruct (load h (head l)) as [hd| |]; [|done..]. simpl.
  destruct (bool_decide (value hd = v)); [done|].
  destruct (is_nil (next hd) && _); [done|].
  apply Contains_loop_at_equality.
Qed.

Lemma Remove_linear_loop_at_equality fuel (h : list (@Node T)) l v n :
  Remove_linear_loop fuel h l v n
  = Comparable.Remove_linear_loop (λ x y, bool_decide (x = y)) fuel h l v n.
Proof.
  revert n. induction fuel as [|fuel IH]; intros n; [done|].
  simpl. destruct (load h n) as [nd| |]; [|done..]. simpl.
  destruct (load h (next nd)) as [nx| |]; [|done..]. simpl.
  by destruct (bool_decide (value nx = v)).
Qed.

Lemma Remove_ring_loop_at_equality fuel (h : list (@Node T)) l v n :
  Remove_ring_loop fuel h l v n
  = Comparable.Remove_ring_loop (λ x y, bool_decide (x = y)) fuel h l v n.
Proof.
  revert h n. induction fuel as [|fuel IH]; intros h n; [done|].
  simpl. destruct (ptr_eqb n (head l)); [done|].
  destruct (load h n) as [nd| |]; [|done..]. simpl.
  destruct (load h (next nd)) as [nx| |]; [|done..]. simpl.
  destruct (bool_decide (value nx = v)); [|done].
  destruct (ptr_eqb (next nd) (tail l)); [done|].
  destruct (set_next h n (next nx)) as [h1| |]; [|done..]. simpl.
  apply IH.
Qed.

Lemma Remove_at_equality fuel (v : T) st :
  Remove fuel v st
  = Comparable.Remove (λ x y, bool_decide (x = y)) fuel v st.
Proof.
  destruct st as [h l]. unfold Remove, Comparable.Remove.
  rewrite <- Contains_at_equality.
  destruct (Contains fuel v (h, l)) as [c| |]; [|done..]. simpl.
  destruct (negb c); [done|].
  destruct (is_nil (head l)); [done|].
  destruct (load h (head l)) as [hd| |]; [|done..]. simpl.
  destruct (is_nil (next hd) && negb _); [done|].
  destruct (is_nil (next hd) && bool_decide _); [done|].
  destruct (negb (ring l)).
  { destruct (bool_decide (value hd = v)); [done|].
    apply Remove_linear_loop_at_equality. }
  destruct (bool_decide (value hd = v)); [done|].
  destruct (load h (next hd)) as [nx| |]; [|done..]. simpl.
  destruct (bool_decide (value nx = v)); [done|].
  apply Remove_ring_loop_at_equality.
Qed.

End linked_list_equality.

Section linked_list_comparable.
Import LinkedList.
Context {T : Type} (eqb : T → T → bool).
Implicit Types (h : list (@Node T)) (l : LinkedList) (st : @state T) (p q : ptr)
  (ns : list nat) (vs : list T).

(** The loop of [Contains] over a segment. *)
Lemma cmp_Contains_loop_lseg h l v p ns q fuel :
  lseg h p ns q → (q = None ∨ q = head l) →
  (∀ a, a ∈ ns → head l ≠ Some a) →
  length ns < fuel →
  Comparable.Contains_loop eqb fuel h l v p = Done (existsb (λ x, eqb x v) (node_values h ns)).
Proof.
  intros Hseg Hq. revert fuel.
  induction Hseg as [p|a nd ns q Ha Hrest IH]; intros fuel Hhead Hfuel.
  - destruct fuel as [|fuel]; [simpl in Hfuel; lia|].
    cbn [Comparable.Contains_loop]. unfold is_nil, ptr_eqb.
    destruct Hq as [-> | ->].
    + by rewrite bool_decide_eq_true_2.
    + rewrite (bool_decide_eq_true_2 (head l = head l)) by done.
      by rewrite orb_true_r.
  - destruct fuel as [|fuel]; [simpl in Hfuel; lia|].
    cbn [Comparable.Contains_loop]. unfold is_nil, ptr_eqb.
    rewrite (bool_decide_eq_false_2 (Some a = None)) by done.
    rewrite (bool_decide_eq_false_2 (Some a = head l)).
    2:{ intros Heq. eapply Hhead; [apply list_elem_of_here|done]. }
    cbn [orb load]. rewrite Ha. simpl.
    rewrite (node_values_cons _ _ _ _ Ha). simpl.
    destruct (eqb (value nd) v); [done|]. simpl.
    apply IH; [done| |simpl in Hfuel; lia].
    intros c Hc. apply Hhead. by apply list_elem_of_further.
Qed.

Lemma cmp_Contains_chain h l v a ns q fuel :
  head l = Some a →
  lseg h (Some a) (a :: ns) q → (q = None ∨ q = Some a) →
  a ∉ ns → length ns < fuel →
  Comparable.Contains eqb fuel v (h, l)
  = Done (existsb (λ x, eqb x v) (node_values h (a :: ns))).
Proof.
  intros Hhead Hseg Hq Hnotin Hfuel.
  inversion Hseg as [|a' nd ns' q' Ha Hrest]; subst.
  unfold Comparable.Contains. rewrite Hhead. unfold is_nil at 1.
  rewrite bool_decide_eq_false_2 by done.
  cbn [load]. rewrite Ha. simpl.
  rewrite (node_values_cons _ _ _ _ Ha). simpl.
  destruct (eqb (value nd) v); [done|]. simpl.
  assert (Comparable.Contains_loop eqb fuel h l v (next nd)
          = Done (existsb (λ x, eqb x v) (node_values h ns))) as Hloop.
  { eapply cmp_Contains_loop_lseg; [done|by rewrite Hhead| |done].
    intros c Hc. rewrite Hhead. intros [= ->]. done. }
  unfold is_nil. destruct (bool_decide (next nd = None)) eqn:Hnil; [|done].
  apply bool_decide_eq_true in Hnil.
  simpl. rewrite Hnil in Hrest. inversion Hrest; by subst.
Qed.

Lemma cmp_Contains_built rg vs v fuel :
  length vs ≤ fuel →
  Comparable.Contains eqb fuel v (nodes_of rg vs, list_of rg vs)
  = Done (existsb (λ x, eqb x v) vs).
Proof.
  intros Hfuel.
  destruct vs as [|x vs]; [done|].
  pose proof (built_chain rg (x :: vs) ltac:(done)) as Hseg.
  pose proof (node_values_nodes_of rg (x :: vs)) as Hvalues.
  simpl length in *. simpl seq in *.
  rewrite (cmp_Contains_chain _ _ _ 0 (seq 1 (length vs))
             (last_next rg (S (length vs)))).
  - by rewrite Hvalues.
  - done.
  - done.
  - apply last_next_cases.
  - intros Hin%elem_of_seq. lia.
  - rewrite length_seq. lia.
Qed.

(** X3. On a list built by [Add], in both modes, [Contains] returns, and
    it says [true] exactly when one of the values added is [==] to the value
    looked for. So a value that differs from itself, as NaN does, is never
    found, even after it was added. *)
Theorem Contains_finds_added_values rg vs v fuel :
  length vs ≤ fuel →
  (st ← build rg vs; Comparable.Contains eqb fuel v st)
  = Done (existsb (λ x, eqb x v) vs).
Proof.
  intros Hfuel. rewrite build_built, bind_Done. by apply cmp_Contains_built.
Qed.

Lemma cmp_Remove_absent_unchanged fuel v st :
  Comparable.Contains eqb fuel v st = Done false →
  Comparable.Remove eqb fuel v st = Done st.
Proof.
  intros Hc. unfold Comparable.Remove. destruct st as [h l]. by rewrite Hc.
Qed.

Lemma without_first_absent v vs :
  existsb (λ x, eqb x v) vs = false → without_first eqb v vs = vs.
Proof.
  induction vs as [|x vs IH]; [done|]. simpl.
  destruct (eqb x v); [done|]. simpl. intros Hno. by rewrite IH.
Qed.

Lemma without_first_app v xs x ys :
  existsb (λ x, eqb x v) xs = false → eqb x v = true →
  without_first eqb v (xs ++ x :: ys) = xs ++ ys.
Proof.
  intros Hno Hx. induction xs as [|y xs IH]; simpl in *.
  - by rewrite Hx.
  - destruct (eqb y v); [done|]. simpl in Hno. by rewrite IH.
Qed.

Lemma length_without_first v vs :
  length (without_first eqb v vs) ≤ length vs.
Proof.
  induction vs as [|x vs IH]; [done|]. simpl.
  destruct (eqb x v); simpl; lia.
Qed.

(** The loop of the linear branch of [Remove], started at a node of a chain
    in which a later node holds a value [==] to [v]: it unlinks the first
    such node. *)
Lemma cmp_Remove_linear_loop_chain h l v rest :
  ∀ a fuel,
  lseg h (Some a) (a :: rest) None →
  existsb (λ x, eqb x v) (node_values h rest) = true →
  length rest ≤ fuel →
  ∃ mid b nd_b post c nd_c,
    rest = mid ++ b :: post ∧
    existsb (λ x, eqb x v) (node_values h mid) = false ∧
    h !! b = Some nd_b ∧ eqb (value nd_b) v = true ∧
    last (a :: mid) = Some c ∧ h !! c = Some nd_c ∧
    Comparable.Remove_linear_loop eqb fuel h l v (Some a) =
      Done (<[c := mkNode (value nd_c) (next nd_b)]> h,
            if is_nil (next nd_b) then mkList (head l) (Some c) (ring l)
            else l).
Proof.
  induction rest as [|b rest IH]; intros a fuel Hseg Hin Hfuel; [done|].
  inversion Hseg as [|a' nd_a ns' q' Ha Hrest]; subst.
  assert (next nd_a = Some b) as Hnext by (by eapply lseg_first).
  rewrite Hnext in Hrest.
  inversion Hrest as [|b' nd_b ns' q' Hb Hrest']; subst.
  destruct fuel as [|fuel]; [simpl in Hfuel; lia|].
  cbn [Comparable.Remove_linear_loop load]. rewrite Ha. rewrite bind_Done, Hnext.
  cbn [load]. rewrite Hb, bind_Done.
  rewrite (node_values_cons _ _ _ _ Hb) in Hin. simpl in Hin.
  destruct (eqb (value nd_b) v) eqn:Hv.
  - exists [], b, nd_b, rest, a, nd_a.
    split_and!; try done.
    unfold set_next. cbn [load]. rewrite Ha, !bind_Done.
    by destruct (is_nil (next nd_b)).
  - simpl in Hin.
    destruct (IH b fuel) as (mid & b2 & nd_b2 & post & c & nd_c & -> & Hmid
                             & Hb2 & Hv2 & Hlast & Hc & Hrun);
      [done|done|simpl in Hfuel; lia|].
    exists (b :: mid), b2, nd_b2, post, c, nd_c.
    split_and!; try done.
    rewrite (node_values_cons _ _ _ _ Hb). simpl. by rewrite Hv.
Qed.

(** [Remove] in linear mode once [Contains] has said [true]. *)
Lemma cmp_Remove_linear_unfold h l v a nd fuel :
  Comparable.Contains eqb fuel v (h, l) = Done true →
  ring l = false → head l = Some a → h !! a = Some nd →
  Comparable.Remove eqb fuel v (h, l) =
    if is_nil (next nd) && negb (eqb (value nd) v) then Done (h, l)
    else if is_nil (next nd) && eqb (value nd) v
    then Done (h, mkList None (tail l) false)
    else if eqb (value nd) v
    then Done (h, mkList (next nd) (tail l) false)
    else Comparable.Remove_linear_loop eqb fuel h l v (Some a).
Proof.
  intros Hcontains Hring Hhead Ha.
  unfold Comparable.Remove. rewrite Hcontains, bind_Done, Hhead.
  cbn [negb load].
  unfold is_nil at 1. rewrite bool_decide_eq_false_2 by done.
  by rewrite Ha, bind_Done, Hring.
Qed.

(** [Remove] on a linear chain of two nodes or more whose head does not
    hold a value [==] to [v] and one of whose later nodes does. *)
Lemma cmp_Remove_linear_chain h l v a nd_a rest fuel :
  ring l = false → head l = Some a →
  lseg h (Some a) (a :: rest) None →
  h !! a = Some nd_a → eqb (value nd_a) v = false →
  existsb (λ x, eqb x v) (node_values h rest) = true → length rest < fuel →
  ∃ h1 l1 mid b post xb,
    Comparable.Remove eqb fuel v (h, l) = Done (h1, l1) ∧
    rest = mid ++ b :: post ∧
    existsb (λ x, eqb x v) (node_values h mid) = false ∧
    node_values h [b] = [xb] ∧ eqb xb v = true ∧
    ring l1 = false ∧ head l1 = Some a ∧
    tail l1 = (if decide (post = []) then last (a :: mid) else tail l) ∧
    lseg h1 (Some a) (a :: mid ++ post) None ∧
    node_values h1 (a :: mid ++ post) = node_values h (a :: mid ++ post).
Proof.
  intros Hring Hhead Hseg Ha Hva Hin Hfuel.
  pose proof (lseg_to_nil_NoDup _ _ _ Hseg) as Hnodup.
  apply NoDup_cons in Hnodup as [Hnotin _].
  assert (Comparable.Contains eqb fuel v (h, l) = Done true) as Hcontains.
  { rewrite (cmp_Contains_chain h l v a rest None) by auto.
    rewrite (node_values_cons _ _ _ _ Ha). simpl. by rewrite Hva, Hin. }
  destruct (cmp_Remove_linear_loop_chain h l v rest a fuel Hseg Hin ltac:(lia))
    as (mid & b & nd_b & post & c & nd_c & -> & Hmid & Hb & Hvb & Hlast & Hc
        & Hloop).
  assert (∃ x, next nd_a = Some x) as [x Hnext].
  { inversion Hseg as [|a' nd ns' q' Ha' Hrest]; subst.
    rewrite Ha in Ha'. injection Ha' as <-.
    destruct mid; eexists; by eapply lseg_first. }
  assert (Comparable.Remove eqb fuel v (h, l)
          = Comparable.Remove_linear_loop eqb fuel h l v (Some a)) as ->.
  { rewrite (cmp_Remove_linear_unfold _ _ _ _ _ _ Hcontains Hring Hhead Ha).
    rewrite Hnext, Hva.
    unfold is_nil. by rewrite bool_decide_eq_false_2 by done. }
  apply last_Some in Hlast as [front Hfront].
  assert (a :: mid ++ b :: post = front ++ c :: b :: post) as Hchain.
  { by rewrite app_comm_cons, Hfront, <- app_assoc. }
  assert (a :: mid ++ post = front ++ c :: post) as Hchain'.
  { by rewrite app_comm_cons, Hfront, <- app_assoc. }
  assert (is_nil (next nd_b) = bool_decide (post = [])) as Hnil.
  { rewrite Hchain in Hseg.
    apply lseg_app_inv in Hseg as (m & _ & Hseg).
    inversion Hseg as [|? ? ? ? ? Hseg']; subst.
    inversion Hseg' as [|? nd_b' ? ? Hb' Hpost]; subst.
    rewrite Hb in Hb'. injection Hb' as <-.
    unfold is_nil. inversion Hpost; subst.
    - by rewrite !bool_decide_eq_true_2.
    - by rewrite !bool_decide_eq_false_2. }
  eexists _, _, mid, b, post, (value nd_b). split; [exact Hloop|].
  split_and!; try done.
  - by rewrite (node_values_cons _ _ _ _ Hb).
  - rewrite Hnil. by case_bool_decide.
  - rewrite Hnil. by case_bool_decide.
  - rewrite Hnil. case_bool_decide; case_decide; try done.
    simpl. by rewrite Hfront, last_snoc.
  - rewrite Hchain'. eapply lseg_unlink; [by rewrite <- Hchain|done..].
  - apply node_values_same_values. intros a'.
    by apply insert_next_same_values.
Qed.

Lemma cmp_Remove_built_linear vs v fuel :
  length vs ≤ fuel →
  ∃ st' ns',
    (st ← build false vs; Comparable.Remove eqb fuel v st) = Done st' ∧
    linear_shape st' ns' ∧
    node_values (fst st') ns' = without_first eqb v vs ∧
    values fuel st' = without_first eqb v vs ∧
    tail (snd st') = (if decide (2 ≤ length vs) then last ns' else None).
Proof.
  intros Hfuel. rewrite build_built, bind_Done.
  set (h := nodes_of false vs). set (l := list_of false vs).
  assert (∀ n, last (seq 0 (S n)) = Some n) as Hlast_seq.
  { intros n. rewrite last_lookup, length_seq.
    change (pred (S n)) with n. by rewrite lookup_seq_lt by lia. }
  destruct (existsb (λ x, eqb x v) vs) eqn:Hin.
  2:{ (* no value is == to v *)
    exists (h, l), (seq 0 (length vs)).
    rewrite without_first_absent by done.
    split_and!.
    - apply cmp_Remove_absent_unchanged. unfold h, l.
      rewrite cmp_Contains_built by done. by rewrite Hin.
    - split; [done|]. cbn [fst snd]. destruct vs as [|x vs]; [constructor|].
      apply (built_chain false (x :: vs)). done.
    - apply node_values_nodes_of.
    - by apply values_built.
    - unfold l, list_of. cbn [snd tail]. case_decide; [|done].
      destruct vs as [|x vs]; [simpl in *; lia|].
      simpl length. rewrite Hlast_seq. do 2 f_equal. lia. }
  destruct vs as [|x vs]; [done|].
  assert (h !! 0 = Some (mkNode x (if decide (1 < length (x :: vs))
                                   then Some 1 else None))) as Hh0.
  { apply (lookup_nodes_of false (x :: vs) 0 x). done. }
  assert (Comparable.Contains eqb fuel v (h, l) = Done true) as Hcontains.
  { unfold h, l. rewrite cmp_Contains_built by done. by rewrite Hin. }
  destruct vs as [|y vs].
  { (* one node, which holds the value *)
    simpl in Hin. rewrite orb_false_r in Hin.
    exists (h, mkList None None false), [].
    split_and!.
    - rewrite (cmp_Remove_linear_unfold _ _ _ 0 _ _ Hcontains eq_refl eq_refl Hh0).
      simpl. unfold is_nil. by rewrite Hin.
    - split; [done|]. constructor.
    - simpl. by rewrite Hin.
    - simpl. rewrite Hin. by destruct fuel.
    - done. }
  set (ws := x :: y :: vs) in *.
  assert (2 ≤ length ws) as Hlen by (simpl; lia).
  assert (length ws = S (S (length vs))) as Hlen' by done.
  rewrite decide_True in Hh0 by lia.
  assert (tail l = Some (length ws - 1)) as Htail.
  { unfold l, list_of. cbn [tail]. by rewrite decide_True. }
  assert (lseg h (Some 1) (seq 1 (length ws - 1)) None) as Hseg1.
  { pose proof (lseg_nodes_of false ws (length ws - 1) 1 ltac:(lia)) as Hseg.
    rewrite Hlen' in *. simpl in Hseg. apply Hseg. }
  assert (node_values h (seq 1 (length ws - 1)) = y :: vs) as Hvalues1.
  { unfold h. rewrite (node_values_seq _ ws); [|apply nodes_of_values|lia].
    rewrite Hlen'. simpl. by rewrite firstn_all. }
  destruct (eqb x v) eqn:Hxv.
  { (* the head holds the value *)
    exists (h, mkList (Some 1) (tail l) false), (seq 1 (length ws - 1)).
    split_and!.
    - rewrite (cmp_Remove_linear_unfold _ _ _ 0 _ _ Hcontains eq_refl eq_refl Hh0).
      simpl. by rewrite Hxv.
    - done.
    - cbn [fst]. rewrite Hvalues1. unfold ws. simpl. by rewrite Hxv.
    - unfold values. cbn [fst snd head].
      rewrite (walk_lseg _ _ _ (seq 1 (length ws - 1)) None).
      + rewrite Hvalues1. unfold ws. simpl. by rewrite Hxv.
      + done.
      + by left.
      + rewrite Hlen'. simpl. intros a Hin' [= <-].
        apply elem_of_seq in Hin'. lia.
      + rewrite Hlen'. simpl. done.
      + rewrite length_seq. lia.
    - cbn [snd tail]. rewrite decide_True by done.
      rewrite Htail, last_lookup, length_seq, Hlen'.
      change (pred (S (S (length vs)) - 1)) with (length vs).
      rewrite lookup_seq_lt by lia. f_equal; lia. }
  (* a later node holds the value *)
  assert (existsb (λ x, eqb x v) (y :: vs) = true) as Hin'.
  { unfold ws in Hin. simpl in Hin. by rewrite Hxv in Hin. }
  assert (lseg h (Some 0) (0 :: seq 1 (length ws - 1)) None) as Hseg0.
  { econstructor; [exact Hh0|done]. }
  destruct (cmp_Remove_linear_chain h l v 0 (mkNode x (Some 1))
              (seq 1 (length ws - 1)) fuel)
    as (h1 & l1 & mid & b & post & xb & Hrun & Hsplit & Hmid & Hb & Hxb & Hring1
        & Hhead1 & Htail1 & Hseg' & Hvalues');
    [done|done|exact Hseg0|exact Hh0|done|by rewrite Hvalues1|
     rewrite length_seq; lia|].
  assert (node_values h (0 :: mid ++ post) = without_first eqb v ws) as Hresult.
  { assert (ws = node_values h (0 :: mid) ++ xb :: node_values h post) as Hws.
    { rewrite !(node_values_cons _ _ _ _ Hh0). simpl. unfold ws. f_equal.
      rewrite <- Hvalues1, Hsplit, cons_middle.
      by rewrite !node_values_app, Hb. }
    rewrite Hws, without_first_app.
    - by rewrite <- node_values_app.
    - rewrite (node_values_cons _ _ _ _ Hh0). simpl. by rewrite Hxv.
    - done. }
  assert (∀ a, a ∈ mid ++ post → Some 0 ≠ Some a) as Hno0.
  { intros a Ha [= <-].
    assert (0 ∈ seq 1 (length ws - 1)) as H0.
    { rewrite Hsplit. apply elem_of_app in Ha as [?|?];
        apply elem_of_app; [by left|right; by apply list_elem_of_further]. }
    apply elem_of_seq in H0. lia. }
  exists (h1, l1), (0 :: mid ++ post).
  split_and!.
  - exact Hrun.
  - split; [done|]. cbn [fst snd]. by rewrite Hhead1.
  - cbn [fst]. by rewrite Hvalues'.
  - unfold values. cbn [fst snd]. rewrite Hhead1.
    rewrite (walk_lseg _ _ _ (0 :: mid ++ post) None).
    + by rewrite Hvalues'.
    + done.
    + by left.
    + simpl. rewrite drop_0. exact Hno0.
    + done.
    + apply (f_equal length) in Hsplit.
      rewrite length_seq, length_app in Hsplit. simpl in *.
      rewrite length_app. lia.
  - cbn [snd]. rewrite decide_True by done.
    rewrite Htail1. case_decide as Hpost.
    + subst post. by rewrite app_nil_r.
    + rewrite Htail. rewrite app_comm_cons, last_app.
      assert (last (seq 1 (length ws - 1)) = Some (length ws - 1)) as Hl.
      { rewrite last_lookup, length_seq, Hlen'.
        change (pred (S (S (length vs)) - 1)) with (length vs).
        rewrite lookup_seq_lt by lia. f_equal; lia. }
      rewrite Hsplit, last_app in Hl. simpl in Hl.
      destruct post as [|z post]; [done|].
      rewrite last_cons_cons in Hl.
      destruct (last (z :: post)) eqn:Hz; [done|].
      by apply last_None in Hz.
Qed.

(** X6. One [Remove] on a linear list built by [Add]: the call returns;
    what is left is a chain from the head to nil that holds the values
    added, in their order, without the first one that is [==] to the value
    removed (all of them when no value is: so a value that differs from
    itself, as NaN does, is never removed); the traversal of [Print] meets
    these values; and [tail] is still nil when fewer than two values were
    added, and is the last node of the chain otherwise. *)
Theorem Remove_from_built_linear_list vs v fuel :
  length vs ≤ fuel →
  ∃ st' ns',
    (st ← build false vs; Comparable.Remove eqb fuel v st) = Done st' ∧
    linear_shape st' ns' ∧
    node_values (fst st') ns' = without_first eqb v vs ∧
    values fuel st' = without_first eqb v vs ∧
    tail (snd st') = (if decide (2 ≤ length vs) then last ns' else None).
Proof. apply cmp_Remove_built_linear. Qed.

(** X7. [Add] after one [Remove] on a linear list built by [Add]: the new
    value comes at the end of what [Remove] has left (the values added
    without the first one [==] to the value removed), so [tail] was where
    it had to be. *)
Theorem Add_after_Remove_appends vs v w fuel :
  length vs ≤ fuel →
  (st ← build false vs; st ← Comparable.Remove eqb fuel v st; st ← Add w st;
   mret (values (S fuel) st))
  = Done (without_first eqb v vs ++ [w]).
Proof.
  intros Hfuel.
  destruct (cmp_Remove_built_linear vs v fuel Hfuel)
    as ([h1 l1] & ns1 & Hrun & [Hring Hseg] & Hvalues & _ & Htail).
  rewrite build_built in Hrun.
  change (Comparable.Remove eqb fuel v (nodes_of false vs, list_of false vs)
          = Done (h1, l1)) in Hrun.
  rewrite build_built, bind_Done, Hrun, bind_Done. cbn [fst snd] in *.
  pose proof (length_node_values _ _ _ _ Hseg) as Hlen.
  rewrite Hvalues in Hlen.
  pose proof (length_without_first v vs) as Hle.
  destruct (Add_linear_chain h1 l1 w ns1 Hring Hseg)
    as (h2 & l2 & Hadd & Hring2 & Hseg2 & Hvalues2 & _).
  { case_decide; [by left|right]. split; [lia|done]. }
  rewrite Hadd, bind_Done.
  change (Done (values (S fuel) (h2, l2))
          = Done (without_first eqb v vs ++ [w])).
  f_equal.
  rewrite (values_linear_chain (h2, l2) (ns1 ++ [length h1])).
  - cbn [fst]. by rewrite Hvalues2, Hvalues.
  - by split.
  - rewrite length_app. simpl. lia.
Qed.

(** X8. [Remove] of a value that the head's value is [==] to, on a ring of
    two nodes or more built by [Add]: the second node becomes the head, the
    last node is made to point to it, so what is left is again a cycle,
    through the other nodes in their order; the traversal of [Print] meets
    their values; and [tail] goes back to nil when one node is left, whose
    [next] is then the node itself. *)
Theorem Remove_head_of_built_ring x y (rest : list T) v fuel :
  eqb x v = true →
  S (length rest) ≤ fuel →
  ∃ h' l',
    (st ← build true (x :: y :: rest); Comparable.Remove eqb fuel v st)
    = Done (h', l') ∧
    ring l' = true ∧ head l' = Some 1 ∧
    tail l' = (if decide (rest = []) then None else Some (S (length rest))) ∧
    lseg h' (Some 1) (seq 1 (S (length rest))) (Some 1) ∧
    node_values h' (seq 1 (S (length rest))) = y :: rest ∧
    values fuel (h', l') = y :: rest.
Proof.
  intros Hxv Hfuel. rewrite build_built, bind_Done.
  set (vs := x :: y :: rest).
  assert (length vs = S (S (length rest))) as Hlen by done.
  assert (Comparable.Contains eqb fuel v (nodes_of true vs, list_of true vs)
          = Done true) as Hcontains.
  { unfold Comparable.Contains, vs. simpl. by rewrite Hxv. }
  destruct (lookup_lt_is_Some_2 vs (S (length rest)) ltac:(lia)) as [z Hz].
  pose proof (lookup_nodes_of true vs 0 x eq_refl) as Hhead.
  rewrite decide_True in Hhead by lia.
  pose proof (lookup_nodes_of true vs _ z Hz) as Hlast.
  rewrite decide_False in Hlast by lia.
  set (nd := mkNode z (last_next true (length vs))) in Hlast.
  set (h' := <[length vs - 1 := mkNode (value nd) (Some 1)]> (nodes_of true vs)).
  assert (lseg h' (Some 1) (seq 1 (S (length rest))) (Some 1)) as Hseg.
  { apply (lseg_ring_without_head vs nd (S (length rest)) 1); lia. }
  assert (node_values h' (seq 1 (S (length rest))) = y :: rest) as Hvalues.
  { unfold h'.
    rewrite (node_values_same_values (nodes_of true vs)).
    2:{ intros a. apply insert_next_same_values.
        by replace (length vs - 1) with (S (length rest)) by lia. }
    rewrite (node_values_seq _ vs); [|apply nodes_of_values|lia].
    unfold vs. simpl. by rewrite firstn_all. }
  assert (∀ tl, values fuel (h', mkList (Some 1) tl true) = y :: rest) as Hwalk.
  { intros tl. unfold values. cbn [fst snd head].
    rewrite (walk_lseg _ _ _ (seq 1 (S (length rest))) (Some 1));
      [done|done|by right| |done|by rewrite length_seq].
    simpl. rewrite drop_0. intros a Hin%elem_of_seq [= <-]. lia. }
  assert (Comparable.Remove eqb fuel v (nodes_of true vs, list_of true vs)
          = Done (h', mkList (Some 1)
                        (if decide (rest = []) then None
                         else Some (S (length rest))) true)) as Hrun.
  { unfold Comparable.Remove. rewrite Hcontains, bind_Done.
    assert (list_of true vs = mkList (Some 0) (Some (S (length rest))) true)
      as ->.
    { unfold list_of. rewrite decide_True by lia. rewrite Hlen.
      by replace (S (S (length rest)) - 1) with (S (length rest)) by lia. }
    cbn [negb head tail ring load]. unfold is_nil.
    rewrite (bool_decide_eq_false_2 (Some 0 = None)) by done.
    rewrite Hhead, bind_Done. cbn [next value].
    rewrite (bool_decide_eq_false_2 (Some 1 = None)) by done.
    rewrite Hxv.
    cbn [andb negb head tail ring]. unfold set_next, load.
    rewrite Hlast, bind_Done.
    replace (S (length rest)) with (length vs - 1) by lia. fold h'.
    unfold ptr_eqb. destruct rest as [|r rest'].
    - by rewrite bool_decide_eq_true_2.
    - rewrite bool_decide_eq_false_2; [done|]. simpl. intros [=]. }
  eexists h', _. rewrite Hrun. split_and!; try done.
Qed.

End linked_list_comparable.

Section linked_list_more_examples.
Import LinkedList.

Lemma Print_traversal_of_built_list_witness :
  3 ≤ 3 ∧
  (st ← build true [10; 20; 30]; mret (values 3 st)) = Done [10; 20; 30].
Proof.
  assert (length [10; 20; 30] ≤ 3) as Hfuel by (simpl; lia).
  split; [exact Hfuel|].
  exact (Print_traversal_of_built_list true [10; 20; 30] 3 Hfuel).
Defined.

Lemma Contains_finds_added_values_witness :
  (st ← build true [0; 20; 30]; Comparable.Contains nan_eqb 3 30 st)
  = Done true ∧
  (st ← build true [0; 20; 30]; Comparable.Contains nan_eqb 3 40 st)
  = Done false ∧
  (st ← build true [0; 20; 30]; Comparable.Contains nan_eqb 3 0 st)
  = Done false.
Proof.
  assert (length [0; 20; 30] ≤ 3) as Hfuel by (simpl; lia).
  split_and!.
  - exact (Contains_finds_added_values nan_eqb true [0; 20; 30] 30 3 Hfuel).
  - exact (Contains_finds_added_values nan_eqb true [0; 20; 30] 40 3 Hfuel).
  - exact (Contains_finds_added_values nan_eqb true [0; 20; 30] 0 3 Hfuel).
Defined.


Lemma Iter_over_built_list_witness :
  (st ← build false [10; 20; 30]; mret (Iter 4 st)) = Done ([0; 1; 2], true) ∧
  ∃ sent, (st ← build true [10; 20; 30]; mret (Iter 5 st)) = Done (sent, false) ∧
          sent !! 4 = Some 1.
Proof.
  assert (length [10; 20; 30] < 4) as Hfuel by (simpl; lia).
  assert ([10; 20; 30] ≠ []) as Hne by discriminate.
  split.
  - exact (proj1 (Iter_over_built_list [10; 20; 30]) 4 Hfuel).
  - destruct (proj2 (Iter_over_built_list [10; 20; 30]) Hne 5)
      as (sent & Hrun & _ & Hsent).
    exists sent. split; [exact Hrun|].
    assert (4 < 5) as Hi by lia.
    exact (Hsent 4 Hi).
Defined.

Lemma Remove_from_built_linear_list_witness :
  (∃ st' ns',
     (st ← build false [10; 20; 30; 20]; Comparable.Remove nan_eqb 4 20 st)
     = Done st' ∧
     linear_shape st' ns' ∧
     node_values st'.1 ns' = [10; 30; 20] ∧
     values 4 st' = [10; 30; 20] ∧
     tail st'.2 = last ns') ∧
  (∃ st' ns',
     (st ← build false [10; 0]; Comparable.Remove nan_eqb 2 0 st) = Done st' ∧
     linear_shape st' ns' ∧
     node_values st'.1 ns' = [10; 0] ∧
     values 2 st' = [10; 0] ∧
     tail st'.2 = last ns').
Proof.
  assert (length [10; 20; 30; 20] ≤ 4) as Hfuel by (simpl; lia).
  assert (length [10; 0] ≤ 2) as Hfuel' by (simpl; lia).
  split.
  - exact (Remove_from_built_linear_list nan_eqb [10; 20; 30; 20] 20 4 Hfuel).
  - exact (Remove_from_built_linear_list nan_eqb [10; 0] 0 2 Hfuel').
Defined.

Lemma Add_after_Remove_appends_witness :
  (st ← build false [10; 20; 30]; st ← Comparable.Remove nan_eqb 3 30 st;
   st ← Add 40 st; mret (values 4 st))
  = Done [10; 20; 40] ∧
  (st ← build false [10; 0]; st ← Comparable.Remove nan_eqb 2 0 st;
   st ← Add 40 st; mret (values 3 st))
  = Done [10; 0; 40].
Proof.
  assert (length [10; 20; 30] ≤ 3) as Hfuel by (simpl; lia).
  assert (length [10; 0] ≤ 2) as Hfuel' by (simpl; lia).
  split.
  - exact (Add_after_Remove_appends nan_eqb [10; 20; 30] 30 40 3 Hfuel).
  - exact (Add_after_Remove_appends nan_eqb [10; 0] 0 40 2 Hfuel').
Defined.

Lemma Remove_head_of_built_ring_witness :
  nan_eqb 10 10 = true ∧
  ∃ h' l',
    (st ← build true [10; 20; 30]; Comparable.Remove nan_eqb 2 10 st)
    = Done (h', l') ∧
    ring l' = true ∧ head l' = Some 1 ∧ tail l' = Some 2 ∧
    lseg h' (Some 1) [1; 2] (Some 1) ∧
    node_values h' [1; 2] = [20; 30] ∧
    values 2 (h', l') = [20; 30].
Proof.
  assert (nan_eqb 10 10 = true) as Heq by reflexivity.
  assert (S (length [30]) ≤ 2) as Hfuel by (simpl; lia).
  split; [exact Heq|].
  exact (Remove_head_of_built_ring nan_eqb 10 20 [30] 10 2 Heq Hfuel).
Defined.

End linked_list_more_examples.

(** * More facts about the per-key locks *)
Section keyspace_more.
Import main.
Implicit Types (s : Server) (ctx : Context) (others : Others) (key : string)
  (md : mode) (tr : list Event) (m : RWMutex).




(** The loop leaves the rest of the server alone. *)
Lemma keyLockLoop_frame md fuel ctx others i s key :
  let '(r, s', tr) := keyLockLoop md fuel ctx others i s key in
  config s' = config s ∧ commands s' = commands s ∧
  keyCreationLock s' = keyCreationLock s.
Proof.
  revert i s. induction fuel as [|fuel IH]; intros i s; [done|].
  simpl. destruct (ctx i); [done|].
  destruct (keyLocks s !! key) as [m|]; [|done].
  destruct (try md m) as [[] m']; [done|].
  specialize (IH (S i) (set_keyLocks s (others i (keyLocks s)))).
  by destruct (keyLockLoop md fuel ctx others (S i) _ key) as [[r s'] tr].
Qed.

Lemma keyLockLoop_alone md fuel ctx i s key :
  let '(r, s', tr) := keyLockLoop md fuel ctx nobody i s key in
  (∀ k, k ≠ key → keyLocks s' !! k = keyLocks s !! k) ∧
  ((∃ m, keyLocks s !! key = Some m ∧ (try md m).1 = true ∧
         r = Done (true, None) ∧
         keyLocks s' = <[key := (try md m).2]> (keyLocks s)) ∨
   ((∀ e, r ≠ Done (true, e)) ∧ s' = s)).
Proof.
  revert i. induction fuel as [|fuel IH]; intros i; simpl.
  { split; [done|]. by right. }
  destruct (ctx i); simpl.
  { split; [done|]. by right. }
  destruct (keyLocks s !! key) as [m|] eqn:Hm; simpl.
  2:{ split; [done|]. by right. }
  destruct (try md m) as [[] m'] eqn:Htry; simpl.
  - split.
    + intros k Hk. by rewrite lookup_insert_ne.
    + left. exists m. by rewrite Htry.
  - unfold nobody at 2. rewrite set_keyLocks_same.
    specialize (IH (S i)).
    destruct (keyLockLoop md fuel ctx nobody (S i) s key) as [[r s'] tr].
    destruct IH as [Hother [(m2 & Hm2 & Hok & _)|Hsame]].
    + injection Hm2 as <-. rewrite Htry in Hok. done.
    + split; [done|]. by right.
Qed.

(** X10. A call of [KeyLock] or [KeyRLock] never touches the configuration,
    the command map or the creation mutex. When no other goroutine changes
    the lock table meanwhile, it leaves the locks of all other keys as they
    are, and unless it takes the lock (returns [true]) it leaves the whole
    server as it found it. *)
Theorem KeyLock_changes_only_its_lock md fuel ctx others s key :
  let lock := match md with Write => KeyLock | Read => KeyRLock end in
  (config (lock fuel ctx others s key).1.2 = config s ∧
   commands (lock fuel ctx others s key).1.2 = commands s ∧
   keyCreationLock (lock fuel ctx others s key).1.2 = keyCreationLock s) ∧
  (∀ k, k ≠ key →
     keyLocks (lock fuel ctx nobody s key).1.2 !! k = keyLocks s !! k) ∧
  ((lock fuel ctx nobody s key).1.1 = Done (true, None) ∨
   (lock fuel ctx nobody s key).1.2 = s).
Proof.
  pose proof (keyLockLoop_frame md fuel ctx others 0 s key) as Hframe.
  pose proof (keyLockLoop_alone md fuel ctx 0 s key) as Halone.
  assert (∀ o, (match md with Write => KeyLock | Read => KeyRLock end)
                 fuel ctx o s key = keyLockLoop md fuel ctx o 0 s key) as Hlock.
  { intros o. by destruct md. }
  simpl. rewrite !Hlock.
  destruct (keyLockLoop md fuel ctx others 0 s key) as [[r s'] tr].
  destruct (keyLockLoop md fuel ctx nobody 0 s key) as [[r0 s0] tr0].
  simpl. split; [done|]. destruct Halone as [Hother Hcases].
  split; [done|].
  destruct Hcases as [(m & _ & _ & -> & _)|[_ ->]]; [by left|by right].
Qed.

Lemma try_fails_under_writer md m : writer m = true → (try md m).1 = false.
Proof. intros Hw. destruct md; simpl; unfold TryLock, TryRLock; by rewrite Hw. Qed.

Lemma lock_is_loop md fuel ctx others s key :
  (match md with Write => KeyLock | Read => KeyRLock end) fuel ctx others s key
  = keyLockLoop md fuel ctx others 0 s key.
Proof. by destruct md. Qed.

Lemma keyLockLoop_never_acquires md fuel ctx s key m :
  keyLocks s !! key = Some m → (try md m).1 = false →
  (∀ e, (keyLockLoop md fuel ctx nobody 0 s key).1.1 ≠ Done (true, e)) ∧
  (keyLockLoop md fuel ctx nobody 0 s key).1.2 = s.
Proof.
  intros Hm Hfail.
  pose proof (keyLockLoop_alone md fuel ctx 0 s key) as Halone.
  destruct (keyLockLoop md fuel ctx nobody 0 s key) as [[r s'] tr].
  destruct Halone as [_ [(m2 & Hm2 & Hok & _)|[Hnot ->]]]; [|done].
  rewrite Hm in Hm2. injection Hm2 as <-. congruence.
Qed.

Lemma keyLockLoop_acquires_at_once md fuel ctx others s key m :
  keyLocks s !! key = Some m → (try md m).1 = true → ctx 0 = None →
  keyLockLoop md (S fuel) ctx others 0 s key =
    (Done (true, None), set_keyLocks s (<[key := (try md m).2]> (keyLocks s)),
     [EvTry md key true]).
Proof.
  intros Hm Hok Hctx. simpl. rewrite Hctx, Hm.
  destruct (try md m) as [ok m']. simpl in Hok. by subst ok.
Qed.

(** X11. The lock of a key excludes as a reader/writer lock does. While a
    writer holds it and nobody releases it, no call of [KeyLock] or
    [KeyRLock] returns [true], and each leaves the server as it is; while
    readers hold it, the same goes for [KeyLock]; and when no writer holds
    it, [KeyRLock] under a live context returns [true] at its first turn
    and counts one more reader. *)
Theorem key_lock_excludes_writers_and_readers s key m :
  keyLocks s !! key = Some m →
  (writer m = true → ∀ md fuel ctx,
     let lock := match md with Write => KeyLock | Read => KeyRLock end in
     (∀ e, (lock fuel ctx nobody s key).1.1 ≠ Done (true, e)) ∧
     (lock fuel ctx nobody s key).1.2 = s) ∧
  (readers m ≠ 0 → ∀ fuel ctx,
     (∀ e, (KeyLock fuel ctx nobody s key).1.1 ≠ Done (true, e)) ∧
     (KeyLock fuel ctx nobody s key).1.2 = s) ∧
  (writer m = false → ∀ fuel ctx others, ctx 0 = None →
     KeyRLock (S fuel) ctx others s key =
       (Done (true, None),
        set_keyLocks s
          (<[key := mkRWMutex false (S (readers m))]> (keyLocks s)),
        [EvTryRLock key true])).
Proof.
  intros Hm. split_and!.
  - intros Hw md fuel ctx. simpl. rewrite lock_is_loop.
    apply (keyLockLoop_never_acquires md fuel ctx s key m Hm).
    by apply try_fails_under_writer.
  - intros Hr fuel ctx.
    apply (keyLockLoop_never_acquires Write fuel ctx s key m Hm).
    simpl. unfold TryLock. destruct (writer m); [done|].
    destruct (readers m); done.
  - intros Hw fuel ctx others Hctx. unfold KeyRLock.
    assert ((try Read m) = (true, mkRWMutex false (S (readers m)))) as Htry.
    { simpl. unfold TryRLock. by rewrite Hw. }
    rewrite (keyLockLoop_acquires_at_once Read fuel ctx others s key m Hm);
      by rewrite ?Htry.
Qed.

Lemma key_lock_excludes_writers_and_readers_witness :
  (∀ e, (KeyRLock 3 never_done nobody server_held "k").1.1 ≠ Done (true, e)) ∧
  KeyRLock 1 never_done nobody server_free "k" =
    (Done (true, None),
     set_keyLocks server_free
       (<["k"%string := mkRWMutex false 1]> (keyLocks server_free)),
     [EvTryRLock "k" true]).
Proof.
  split.
  - exact (proj1 (proj1 (key_lock_excludes_writers_and_readers server_held
             "k"%string (mkRWMutex true 0) eq_refl) eq_refl Read 3 never_done)).
  - exact (proj2 (proj2 (key_lock_excludes_writers_and_readers server_free
             "k"%string (mkRWMutex false 0) eq_refl)) eq_refl 0 never_done
             nobody eq_refl).
Defined.

Lemma set_keyLocks_insert_id s key m :
  keyLocks s !! key = Some m →
  ∀ m', set_keyLocks s (<[key := m]> (<[key := m']> (keyLocks s))) = s.
Proof.
  intros Hm m'. rewrite insert_insert_eq, insert_id by done.
  apply set_keyLocks_same.
Qed.

(** X12. Locking and unlocking undo each other. On a lock that nobody
    holds, [KeyLock] under a live context followed by [KeyUnlock] gives
    back the server as it was; so does [KeyRLock] followed by [KeyRUnlock]
    on a lock without a writer. Unlocking what is not locked is a fault:
    [KeyUnlock] without a writer, [KeyRUnlock] without a reader. *)
Theorem lock_then_unlock_restores_server s key m fuel ctx others :
  keyLocks s !! key = Some m → ctx 0 = None →
  (writer m = false → readers m = 0 →
     (KeyLock (S fuel) ctx others s key).1.1 = Done (true, None) ∧
     KeyUnlock (KeyLock (S fuel) ctx others s key).1.2 key = Done s) ∧
  (writer m = false →
     (KeyRLock (S fuel) ctx others s key).1.1 = Done (true, None) ∧
     KeyRUnlock (KeyRLock (S fuel) ctx others s key).1.2 key = Done s) ∧
  (writer m = false → KeyUnlock s key = Panic UnlockOfUnlocked) ∧
  (readers m = 0 → KeyRUnlock s key = Panic UnlockOfUnlocked).
Proof.
  intros Hm Hctx. destruct m as [w r]. simpl. split_and!.
  - intros -> ->. unfold KeyLock.
    rewrite (keyLockLoop_acquires_at_once Write fuel ctx others s key _ Hm)
      by done.
    split; [done|]. simpl. unfold KeyUnlock. simpl.
    rewrite lookup_insert_eq. simpl.
    by rewrite set_keyLocks_twice, (set_keyLocks_insert_id _ _ _ Hm).
  - intros ->. unfold KeyRLock.
    rewrite (keyLockLoop_acquires_at_once Read fuel ctx others s key _ Hm)
      by done.
    split; [done|]. simpl. unfold KeyRUnlock. simpl.
    rewrite lookup_insert_eq. simpl.
    by rewrite set_keyLocks_twice, (set_keyLocks_insert_id _ _ _ Hm).
  - intros ->. unfold KeyUnlock. by rewrite Hm.
  - intros ->. unfold KeyRUnlock. by rewrite Hm.
Qed.

Lemma lock_then_unlock_restores_server_witness :
  KeyUnlock (KeyLock 1 never_done nobody server_free "k").1.2 "k"
    = Done server_free ∧
  KeyRUnlock (KeyRLock 1 never_done nobody server_free "k").1.2 "k"
    = Done server_free ∧
  KeyUnlock server_free "k" = Panic UnlockOfUnlocked.
Proof.
  destruct (lock_then_unlock_restores_server server_free "k"%string
              (mkRWMutex false 0) 0 never_done nobody eq_refl eq_refl)
    as (Hw & Hr & Hu & _).
  split; [exact (proj2 (Hw eq_refl eq_refl))|].
  split; [exact (proj2 (Hr eq_refl))|exact (Hu eq_refl)].
Defined.

(** X13. The lock that [CreateKeyAndLock] puts into the table for a new
    key is already held by a writer, and the other keys keep their locks.
    Until [KeyUnlock], no call of [KeyLock] or [KeyRLock] on the key
    returns [true]; [KeyUnlock] then releases it without a fault, after
    which both return [true] at their first turn under a live context. *)
Theorem CreateKeyAndLock_installs_held_lock s key fuel ctx others :
  keyCreationLock s = false → KeyExists s key = false →
  let s1 := (CreateKeyAndLock fuel ctx others s key).1.2 in
  keyLocks s1 !! key = Some (mkRWMutex true 0) ∧
  (∀ k, k ≠ key → keyLocks s1 !! k = keyLocks s !! k) ∧
  (∀ md fuel' ctx' e,
     ((match md with Write => KeyLock | Read => KeyRLock end)
        fuel' ctx' nobody s1 key).1.1 ≠ Done (true, e)) ∧
  ∃ s2, KeyUnlock s1 key = Done s2 ∧
    keyLocks s2 !! key = Some (mkRWMutex false 0) ∧
    ∀ md fuel' ctx' others', ctx' 0 = None →
      ((match md with Write => KeyLock | Read => KeyRLock end)
         (S fuel') ctx' others' s2 key).1.1 = Done (true, None).
Proof.
  intros Hfree Habsent. unfold CreateKeyAndLock. rewrite Hfree.
  replace (KeyExists (set_keyCreationLock s true) key) with (KeyExists s key)
    by done.
  rewrite Habsent. simpl.
  set (s1 := set_keyCreationLock _ false).
  assert (keyLocks s1 !! key = Some (mkRWMutex true 0)) as Hheld.
  { apply lookup_insert_eq. }
  split_and!.
  - done.
  - intros k Hk. unfold s1. simpl. by rewrite lookup_insert_ne.
  - intros md fuel' ctx' e. rewrite lock_is_loop.
    by apply (keyLockLoop_never_acquires md fuel' ctx' s1 key _ Hheld),
             try_fails_under_writer.
  - unfold KeyUnlock. rewrite Hheld. simpl. eexists. split; [done|].
    split; [apply lookup_insert_eq|].
    intros md fuel' ctx' others' Hctx. rewrite lock_is_loop.
    erewrite keyLockLoop_acquires_at_once; [done|apply lookup_insert_eq| |done].
    by destruct md.
Qed.

Lemma CreateKeyAndLock_installs_held_lock_witness :
  keyLocks (CreateKeyAndLock 1 never_done nobody server_free "new").1.2
    !! "new"%string = Some (mkRWMutex true 0) ∧
  ∀ e, (KeyRLock 5 never_done nobody
          (CreateKeyAndLock 1 never_done nobody server_free "new").1.2
          "new").1.1 ≠ Done (true, e).
Proof.
  destruct (CreateKeyAndLock_installs_held_lock server_free "new"%string 1
              never_done nobody eq_refl eq_refl) as (Hheld & _ & Hnever & _).
  split; [exact Hheld|]. intros e. exact (Hnever Read 5 never_done e).
Defined.

Lemma waits_S md key n :
  waits md key (S n) = EvTry md key false :: EvTick 5 :: waits md key n.
Proof. done. Qed.

Lemma keyLockLoop_busy md ctx s key m fuel :
  (∀ i, ctx i = None) →
  keyLocks s !! key = Some m → (try md m).1 = false →
  ∀ i, keyLockLoop md fuel ctx nobody i s key = (Timeout, s, waits md key fuel).
Proof.
  intros Hctx Hm Hfail.
  induction fuel as [|fuel IH]; intros i; [done|].
  simpl. rewrite Hctx, Hm.
  destruct (try md m) as [ok m']. simpl in Hfail. subst ok.
  unfold nobody at 2. rewrite set_keyLocks_same, IH. by rewrite waits_S.
Qed.

(** X14. [CreateKeyAndLock] on a key that exists and whose lock stays
    taken, under a context that is never done: the call does not return;
    after any number of turns it has tried the lock that many times and
    still holds the creation mutex, and a [CreateKeyAndLock] of any other
    key that starts meanwhile waits for that mutex without doing
    anything. *)
Theorem CreateKeyAndLock_waits_with_mutex_held s key m ctx :
  keyCreationLock s = false →
  keyLocks s !! key = Some m → (TryLock m).1 = false →
  (∀ i, ctx i = None) →
  ∀ fuel,
    CreateKeyAndLock fuel ctx nobody s key =
      (Timeout, set_keyCreationLock s true,
       EvGateLock :: waits Write key fuel) ∧
    ∀ key' fuel' ctx' others',
      CreateKeyAndLock fuel' ctx' others' (set_keyCreationLock s true) key'
      = (Timeout, set_keyCreationLock s true, []).
Proof.
  intros Hfree Hm Hfail Hctx fuel. split; [|done].
  unfold CreateKeyAndLock. rewrite Hfree.
  assert (KeyExists (set_keyCreationLock s true) key = true) as ->.
  { apply KeyExists_true. by exists m. }
  simpl. unfold KeyLock.
  by rewrite (keyLockLoop_busy Write ctx (set_keyCreationLock s true) key m fuel).
Qed.

Lemma CreateKeyAndLock_waits_with_mutex_held_witness :
  CreateKeyAndLock 2 never_done nobody server_held "k" =
    (Timeout, set_keyCreationLock server_held true,
     [EvGateLock; EvTryLock "k" false; EvTick 5; EvTryLock "k" false;
      EvTick 5]).
Proof.
  exact (proj1 (CreateKeyAndLock_waits_with_mutex_held server_held "k"%string
                  (mkRWMutex true 0) never_done eq_refl eq_refl eq_refl
                  (fun _ => eq_refl) 2)).
Defined.

End keyspace_more.

(** * More facts about the command map *)
Section registry_more.
Import utils main strings.
Implicit Types (N key : string) (order : list (string * ServerCommand)).

Lemma getCommand_in_error order N e :
  getCommand_in order N = inr e → e = "command " +:+ N +:+ " not supported".
Proof.
  induction order as [|[key command] order IH]; simpl.
  - by intros [= <-].
  - destruct (EqualFold key N); [done|]. apply IH.
Qed.

Lemma getCommand_sound (s : Server) N r :
  getCommand s N r →
  (∃ key sc, r = inl sc ∧ commands s !! key = Some sc ∧
             EqualFold key N = true) ∨
  (r = inr ("command " +:+ N +:+ " not supported") ∧
   ∀ key, is_Some (commands s !! key) → EqualFold key N = false).
Proof.
  intros (order & Hperm & Hrun). destruct r as [sc|e].
  - left. apply getCommand_in_inl in Hrun as (key & Hin & Hfold).
    exists key, sc. split_and!; [done| |done].
    apply elem_of_map_to_list. by rewrite <- Hperm.
  - right. split.
    + f_equal. by eapply getCommand_in_error.
    + intros key [sc Hsc].
      eapply (getCommand_in_inr _ _ _ Hrun key sc).
      rewrite Hperm. by apply elem_of_map_to_list.
Qed.

Lemma EqualFold_ToUpper key N : EqualFold key (ToUpper N) = EqualFold key N.
Proof. by rewrite !EqualFold_ToLower, ToLower_ToUpper. Qed.

(** The two orders in which the map of [server_SET_GET] can be ranged over,
    and those of [server_get_GET]. *)
Lemma server_SET_GET_orders :
  [("SET"%string, mkServerCommand command_SET plugin_str);
   ("GET"%string, mkServerCommand command_GET plugin_b)]
    ≡ₚ map_to_list (commands server_SET_GET) ∧
  [("GET"%string, mkServerCommand command_GET plugin_b);
   ("SET"%string, mkServerCommand command_SET plugin_str)]
    ≡ₚ map_to_list (commands server_SET_GET).
Proof.
  assert (map_to_list (commands server_SET_GET)
          ≡ₚ [("GET"%string, mkServerCommand command_GET plugin_b);
              ("SET"%string, mkServerCommand command_SET plugin_str)]) as Hperm.
  { unfold server_SET_GET, LoadCommands, register. simpl.
    rewrite map_to_list_insert by done.
    rewrite map_to_list_insert by done.
    by rewrite map_to_list_empty. }
  split; [|done]. rewrite Hperm. apply perm_swap.
Qed.

Lemma server_get_GET_orders :
  [("get"%string, mkServerCommand command_get plugin_a);
   ("GET"%string, mkServerCommand command_GET plugin_b)]
    ≡ₚ map_to_list (commands server_get_GET) ∧
  [("GET"%string, mkServerCommand command_GET plugin_b);
   ("get"%string, mkServerCommand command_get plugin_a)]
    ≡ₚ map_to_list (commands server_get_GET).
Proof.
  assert (map_to_list (commands server_get_GET)
          ≡ₚ [("GET"%string, mkServerCommand command_GET plugin_b);
              ("get"%string, mkServerCommand command_get plugin_a)]) as Hperm.
  { unfold server_get_GET, LoadCommands, register. simpl.
    rewrite map_to_list_insert by done.
    rewrite map_to_list_insert by done.
    by rewrite map_to_list_empty. }
  split; [|done]. rewrite Hperm. apply perm_swap.
Qed.

Lemma server_SET_GET_no_case_variants k1 k2 :
  is_Some (commands server_SET_GET !! k1) →
  is_Some (commands server_SET_GET !! k2) →
  EqualFold k1 k2 = true → k1 = k2.
Proof.
  assert (∀ k, is_Some (commands server_SET_GET !! k) →
               k = "GET"%string ∨ k = "SET"%string) as Hkeys.
  { intros k [sc Hsc]. unfold server_SET_GET, LoadCommands, register in Hsc.
    simpl in Hsc.
    apply lookup_insert_Some in Hsc as [[<- _]|[_ Hsc]]; [by left|].
    apply lookup_insert_Some in Hsc as [[<- _]|[_ Hsc]]; [by right|].
    by rewrite lookup_empty in Hsc. }
  intros [-> | ->]%Hkeys [-> | ->]%Hkeys Hfold; try done;
    vm_compute in Hfold; discriminate Hfold.
Qed.

(** C3, as the code has it. For a name of ASCII characters, the lookup of
    its upper-case form and the lookup of its lower-case form agree on
    whether a command is found; a command that is found is registered under
    a key equal to the name up to case; and the outcomes the two lookups
    may have, over the orders in which the map can be ranged over, are the
    same. The two lookups return the same command when no two keys of the
    map are equal up to case. (The text of the error quotes the name as it
    was given, so it is the outcome without that text that is compared.) *)
Theorem getCommand_case_insensitive (s : Server) N r1 r2 :
  is_ascii N = true →
  getCommand s (ToUpper N) r1 → getCommand s (ToLower N) r2 →
  (is_Some (found r1) ↔ is_Some (found r2)) ∧
  (∀ sc, found r1 = Some sc ∨ found r2 = Some sc →
     ∃ key, commands s !! key = Some sc ∧ EqualFold key N = true) ∧
  (∀ o, (∃ r, getCommand s (ToUpper N) r ∧ found r = o) ↔
        (∃ r, getCommand s (ToLower N) r ∧ found r = o)) ∧
  ((∀ k1 k2, is_Some (commands s !! k1) → is_Some (commands s !! k2) →
             EqualFold k1 k2 = true → k1 = k2) →
   found r1 = found r2).
Proof.
  intros _ H1 H2.
  assert (∀ key, EqualFold key (ToLower N) = EqualFold key N) as Hlower.
  { intros key. by rewrite <- EqualFold_upper_lower, EqualFold_ToUpper. }
  assert (∀ order, found (getCommand_in order (ToUpper N))
                   = found (getCommand_in order (ToLower N))) as Hsame.
  { intros order. apply getCommand_in_same_fold.
    intros key. apply EqualFold_upper_lower. }
  split_and!.
  - destruct (getCommand_sound _ _ _ H1)
      as [(k1 & sc1 & -> & Hk1 & Hf1)|[-> Hn1]];
    destruct (getCommand_sound _ _ _ H2)
      as [(k2 & sc2 & -> & Hk2 & Hf2)|[-> Hn2]]; simpl.
    + split; by eexists.
    + rewrite EqualFold_upper_lower, Hn2 in Hf1; [done|by eexists].
    + rewrite <- EqualFold_upper_lower, Hn1 in Hf2; [done|by eexists].
    + split; by intros [? ?].
  - intros sc [Hsc|Hsc].
    + destruct (getCommand_sound _ _ _ H1)
        as [(k1 & sc1 & -> & Hk1 & Hf1)|[-> Hn1]]; [|done].
      injection Hsc as <-. exists k1. by rewrite <- EqualFold_ToUpper.
    + destruct (getCommand_sound _ _ _ H2)
        as [(k2 & sc2 & -> & Hk2 & Hf2)|[-> Hn2]]; [|done].
      injection Hsc as <-. exists k2. by rewrite <- Hlower.
  - intros o. split.
    + intros (r & (order & Hperm & <-) & <-).
      exists (getCommand_in order (ToLower N)). split; [by exists order|done].
    + intros (r & (order & Hperm & <-) & <-).
      exists (getCommand_in order (ToUpper N)). split; [by exists order|done].
  - intros Hunique.
    destruct (getCommand_sound _ _ _ H1)
      as [(k1 & sc1 & -> & Hk1 & Hf1)|[-> Hn1]];
    destruct (getCommand_sound _ _ _ H2)
      as [(k2 & sc2 & -> & Hk2 & Hf2)|[-> Hn2]]; simpl.
    + assert (k1 = k2) as ->.
      { apply Hunique; [by eexists..|].
        rewrite EqualFold_ToUpper in Hf1. rewrite Hlower in Hf2.
        eapply EqualFold_trans; [exact Hf1|]. by rewrite EqualFold_sym. }
      rewrite Hk1 in Hk2. by injection Hk2 as ->.
    + rewrite EqualFold_upper_lower, Hn2 in Hf1; [done|by eexists].
    + rewrite <- EqualFold_upper_lower, Hn1 in Hf2; [done|by eexists].
    + done.
Qed.

Lemma getCommand_case_insensitive_witness :
  is_ascii "get" = true ∧
  getCommand server_SET_GET (ToUpper "get")
    (inl (mkServerCommand command_GET plugin_b)) ∧
  getCommand server_SET_GET (ToLower "get")
    (inl (mkServerCommand command_GET plugin_b)) ∧
  (∀ r1 r2, getCommand server_SET_GET (ToUpper "get") r1 →
            getCommand server_SET_GET (ToLower "get") r2 →
            found r1 = found r2).
Proof.
  assert (is_ascii "get" = true) as Hascii by reflexivity.
  assert (getCommand server_SET_GET (ToUpper "get")
            (inl (mkServerCommand command_GET plugin_b))) as Hupper.
  { eexists. split; [exact (proj1 server_SET_GET_orders)|reflexivity]. }
  assert (getCommand server_SET_GET (ToLower "get")
            (inl (mkServerCommand command_GET plugin_b))) as Hlower.
  { eexists. split; [exact (proj2 server_SET_GET_orders)|reflexivity]. }
  split; [exact Hascii|]. split; [exact Hupper|]. split; [exact Hlower|].
  intros r1 r2 H1 H2.
  exact (proj2 (proj2 (proj2
           (getCommand_case_insensitive server_SET_GET "get" r1 r2
              Hascii H1 H2)))
         server_SET_GET_no_case_variants).
Defined.

(** Two keys that differ by case only: with both [get] and [GET] in the
    map, the lookup of the upper-case form of a name may return the one
    command and the lookup of its lower-case form the other, since either
    key matches and the first one met in the range over the map is
    returned. *)
Lemma getCommand_case_variants_differ :
  ¬ (∀ (s : Server) N r1 r2,
       is_ascii N = true →
       getCommand s (ToUpper N) r1 → getCommand s (ToLower N) r2 →
       found r1 = found r2).
Proof.
  intros Hclaim.
  specialize (Hclaim server_get_GET "get"%string
                (inl (mkServerCommand command_get plugin_a))
                (inl (mkServerCommand command_GET plugin_b)) eq_refl).
  assert (found
            (inl (mkServerCommand command_get plugin_a))
          = found (inl (mkServerCommand command_GET plugin_b))) as Heq;
    [|discriminate Heq].
  apply Hclaim.
  - eexists. split; [exact (proj1 server_get_GET_orders)|reflexivity].
  - eexists. split; [exact (proj2 server_get_GET_orders)|reflexivity].
Qed.

(** X15. What [getCommand] returns. A command it returns is registered
    under a key equal to the name up to case. It returns an error only when
    no key of the map is equal to the name up to case, and the text of the
    error is then ["command "], the name as it was given, and
    [" not supported"]; this does not depend on the order in which the map
    is ranged over. *)
Theorem getCommand_returns_registered_or_not_supported (s : Server) N r :
  getCommand s N r →
  (∃ key sc, r = inl sc ∧ commands s !! key = Some sc ∧
             EqualFold key N = true) ∨
  (r = inr ("command " +:+ N +:+ " not supported") ∧
   ∀ key, is_Some (commands s !! key) → EqualFold key N = false).
Proof. apply getCommand_sound. Qed.

Lemma getCommand_returns_registered_or_not_supported_witness :
  getCommand (server_SET true) "GET" (inr "command GET not supported") ∧
  ∀ key, is_Some (commands (server_SET true) !! key) →
         EqualFold key "GET" = false.
Proof.
  assert (getCommand (server_SET true) "GET" (inr "command GET not supported"))
    as Hrun.
  { exists [("SET"%string, mkServerCommand command_SET plugin_str)].
    split; [|reflexivity]. simpl. by rewrite map_to_list_singleton. }
  split; [exact Hrun|].
  destruct (getCommand_returns_registered_or_not_supported _ _ _ Hrun)
    as [(key & sc & Heq & _)|[_ Hnone]]; [discriminate Heq|exact Hnone].
Defined.

(** X16. When no two keys of the map are equal up to case, [getCommand] has
    one outcome only: whatever the order in which the map is ranged over,
    the same command, or the same error, comes back for a name. *)
Theorem getCommand_is_determined_without_case_variants (s : Server) N r1 r2 :
  (∀ k1 k2, is_Some (commands s !! k1) → is_Some (commands s !! k2) →
            EqualFold k1 k2 = true → k1 = k2) →
  getCommand s N r1 → getCommand s N r2 → r1 = r2.
Proof.
  intros Hunique H1 H2.
  destruct (getCommand_sound _ _ _ H1) as [(k1 & sc1 & -> & Hk1 & Hf1)|[-> Hn1]];
  destruct (getCommand_sound _ _ _ H2) as [(k2 & sc2 & -> & Hk2 & Hf2)|[-> Hn2]].
  - assert (k1 = k2) as ->.
    { apply Hunique; [by eexists..|].
      eapply EqualFold_trans; [done|]. by rewrite EqualFold_sym. }
    by rewrite Hk1 in Hk2; injection Hk2 as ->.
  - rewrite Hn2 in Hf1; [done|by eexists].
  - rewrite Hn1 in Hf2; [done|by eexists].
  - done.
Qed.

Lemma getCommand_is_determined_without_case_variants_witness :
  (∀ k1 k2, is_Some (commands server_SET_GET !! k1) →
            is_Some (commands server_SET_GET !! k2) →
            EqualFold k1 k2 = true → k1 = k2) ∧
  getCommand_in [("SET"%string, mkServerCommand command_SET plugin_str);
                 ("GET"%string, mkServerCommand command_GET plugin_b)] "set"
  = getCommand_in [("GET"%string, mkServerCommand command_GET plugin_b);
                   ("SET"%string, mkServerCommand command_SET plugin_str)] "set"
  ∧
  (∀ order, order ≡ₚ map_to_list (commands server_SET_GET) →
            getCommand_in order "set"
            = inl (mkServerCommand command_SET plugin_str)).
Proof.
  assert (getCommand server_SET_GET "set"
            (getCommand_in
               [("SET"%string, mkServerCommand command_SET plugin_str);
                ("GET"%string, mkServerCommand command_GET plugin_b)] "set"))
    as Hrun1.
  { eexists. split; [exact (proj1 server_SET_GET_orders)|reflexivity]. }
  assert (getCommand server_SET_GET "set"
            (getCommand_in
               [("GET"%string, mkServerCommand command_GET plugin_b);
                ("SET"%string, mkServerCommand command_SET plugin_str)] "set"))
    as Hrun2.
  { eexists. split; [exact (proj2 server_SET_GET_orders)|reflexivity]. }
  split; [exact server_SET_GET_no_case_variants|]. split.
  - exact (getCommand_is_determined_without_case_variants server_SET_GET
             "set"%string _ _ server_SET_GET_no_case_variants Hrun1 Hrun2).
  - intros order Hperm.
    refine (getCommand_is_determined_without_case_variants server_SET_GET
              "set"%string (getCommand_in order "set")
              (inl (mkServerCommand command_SET plugin_str))
              server_SET_GET_no_case_variants _ _).
    + by exists order.
    + eexists. split; [exact (proj1 server_SET_GET_orders)|reflexivity].
Defined.

Lemma register_frame plugin (s : Server) command :
  config (register plugin s command) = config s ∧
  keyLocks (register plugin s command) = keyLocks s ∧
  keyCreationLock (register plugin s command) = keyCreationLock s.
Proof. done. Qed.

(** The map after the commands [cs] of a plugin have been registered. *)
Lemma register_all plugin (s : Server) cs name :
  commands (foldl (register plugin) s cs) !! name =
    match last (filter (λ c, cmd_Command c = name) cs) with
    | Some c => Some (mkServerCommand c plugin)
    | None => commands s !! name
    end.
Proof.
  induction cs as [|c cs IH] using rev_ind; [done|].
  rewrite foldl_snoc, filter_app. unfold register at 1. simpl.
  destruct (decide (cmd_Command c = name)) as [Hname|Hname].
  - rewrite filter_cons_True by done. rewrite filter_nil, last_snoc.
    by rewrite Hname, lookup_insert_eq.
  - rewrite filter_cons_False by done. rewrite filter_nil, app_nil_r.
    by rewrite lookup_insert_ne.
Qed.

Lemma register_all_frame plugin (s : Server) cs :
  config (foldl (register plugin) s cs) = config s ∧
  keyLocks (foldl (register plugin) s cs) = keyLocks s ∧
  keyCreationLock (foldl (register plugin) s cs) = keyCreationLock s.
Proof.
  induction cs as [|c cs IH] using rev_ind; [done|].
  by rewrite foldl_snoc.
Qed.

(** X17. [LoadCommands] changes the command map only, and in it only the
    names the plugin lists: every such name is mapped to the last command
    of the plugin with that name, together with the plugin; every other
    name keeps what it was mapped to. *)
Theorem LoadCommands_maps_each_name_to_last_command (s : Server) plugin name :
  commands (LoadCommands s plugin) !! name =
    match last (filter (λ c, cmd_Command c = name) (plugin_Commands plugin)) with
    | Some c => Some (mkServerCommand c plugin)
    | None => commands s !! name
    end ∧
  config (LoadCommands s plugin) = config s ∧
  keyLocks (LoadCommands s plugin) = keyLocks s ∧
  keyCreationLock (LoadCommands s plugin) = keyCreationLock s.
Proof.
  unfold LoadCommands. split; [apply register_all|apply register_all_frame].
Qed.

(** X18. After [LoadCommands], every command the plugin lists is found:
    a lookup of its name, written in any case, never fails, and returns a
    command registered under a key equal to that name up to case. *)
Theorem LoadCommands_then_getCommand_finds (s : Server) plugin c N r :
  c ∈ plugin_Commands plugin →
  EqualFold (cmd_Command c) N = true →
  getCommand (LoadCommands s plugin) N r →
  ∃ key sc, r = inl sc ∧
    commands (LoadCommands s plugin) !! key = Some sc ∧
    EqualFold key N = true.
Proof.
  intros Hin Hfold Hrun.
  destruct (getCommand_sound _ _ _ Hrun) as [?|[_ Hnone]]; [done|].
  exfalso.
  assert (is_Some (commands (LoadCommands s plugin) !! cmd_Command c)) as Hsome.
  { unfold LoadCommands. rewrite register_all.
    destruct (last _) as [c'|] eqn:Hlast; [by eexists|].
    apply last_None in Hlast.
    assert (c ∈ filter (λ c', cmd_Command c' = cmd_Command c)
                  (plugin_Commands plugin)) as Hc.
    { by apply list_elem_of_filter. }
    rewrite Hlast in Hc. by apply elem_of_nil in Hc. }
  by rewrite (Hnone _ Hsome) in Hfold.
Qed.

Lemma LoadCommands_SET :
  commands (LoadCommands server_empty plugin_str)
  = {["SET"%string := mkServerCommand command_SET plugin_str]}.
Proof. unfold LoadCommands, register. simpl. apply insert_empty. Qed.

Lemma LoadCommands_then_getCommand_finds_witness :
  getCommand (LoadCommands server_empty plugin_str) "set"
    (inl (mkServerCommand command_SET plugin_str)) ∧
  ∃ key sc,
    inl (B:=string) (mkServerCommand command_SET plugin_str) = inl sc ∧
    commands (LoadCommands server_empty plugin_str) !! key = Some sc ∧
    EqualFold key "set" = true.
Proof.
  assert (getCommand (LoadCommands server_empty plugin_str) "set"
            (inl (mkServerCommand command_SET plugin_str))) as Hrun.
  { exists [("SET"%string, mkServerCommand command_SET plugin_str)].
    split; [|reflexivity]. by rewrite LoadCommands_SET, map_to_list_singleton. }
  split; [exact Hrun|].
  apply (LoadCommands_then_getCommand_finds server_empty plugin_str
           command_SET "set"%string).
  - apply list_elem_of_here.
  - reflexivity.
  - exact Hrun.
Defined.

End registry_more.

(** * More facts about the connection loop *)
Section dispatcher_more.
Import utils main strings.
Implicit Types (w : Env) (evs : list ConnEvent) (cmd : list string)
  (input : list (ReadResult * Env)).

Lemma replicate_shape w sid cid cmd :
  ∃ pre bytes,
    replicate w sid cid cmd = pre ++ [EvWrite bytes; EvFlush] ∧
    (pre = [] ∨ ∃ b, pre = [EvRaftApply b 500] ∧ isRaftLeader w = true ∧
                     json_Marshal w (mkApplyRequest sid cid cmd) = inl b).
Proof.
  unfold replicate.
  destruct (json_Marshal w _) as [b|e] eqn:Hjson;
    [|eexists [], _; split; [done|by left]].
  destruct (isRaftLeader w) eqn:Hleader;
    [|eexists [], _; split; [done|by left]].
  destruct (raft_Apply w b 500) as [e| |r]; [| |destruct (resp_Error r)];
    (eexists [EvRaftApply b 500], _; split; [done|right; by exists b]).
Qed.

(** The shape of a turn of the loop. *)
Lemma handleMessage_shape (s : Server) w sid cid message :
  (Decode w message = inl [] ∧
   handleMessage s w sid cid message = ([], Some IndexOutOfRange)) ∨
  (∃ pre bytes,
     handleMessage s w sid cid message = (pre ++ [EvWrite bytes; EvFlush], None) ∧
     length pre ≤ 1 ∧ Forall (λ e, is_action e = true) pre).
Proof.
  pose proof (Nat.le_0_1) as H01. pose proof (Nat.le_refl 1) as H11.
  unfold handleMessage.
  destruct (Decode w message) as [cmd|e].
  2:{ right. eexists [], _. split_and!; [done|done|constructor]. }
  destruct cmd as [|name rest]; [by left|]. right.
  destruct (getCommand_in (range_dispatch w) name) as [command|e].
  2:{ eexists [], _. split_and!; [done|done|constructor]. }
  destruct (AuthorizeConnection w _ _ _) as [e|].
  { eexists [], _. split_and!; [done|done|constructor]. }
  destruct (negb (IsInCluster s) || negb (synchronize w command (name :: rest))).
  - unfold handlePluginCommand.
    destruct (getCommand_in (range_plugin w) name) as [command'|e].
    + destruct (HandleCommand w _ _);
        (eexists [EvHandle _ _], _; split_and!; [done|done|]);
        by repeat constructor.
    + eexists [], _. split_and!; [done|done|constructor].
  - destruct (replicate_shape w sid cid (name :: rest))
      as (pre & bytes & -> & [-> | (b & -> & _)]).
    + eexists [], _. split_and!; [done|done|constructor].
    + eexists [EvRaftApply b 500], _. split_and!; [done|done|].
      by repeat constructor.
Qed.

Lemma written_app evs1 evs2 : written (evs1 ++ evs2) = written evs1 ++ written evs2.
Proof. apply omap_app. Qed.

Lemma written_actions evs : Forall (λ e, is_action e = true) evs → written evs = [].
Proof.
  induction 1 as [|e evs He _ IH]; [done|].
  by destruct e.
Qed.

(** X19. A turn of the loop on a message answers once: it writes one byte
    string and flushes right after, and the only thing it may do before is
    to run one handler or to submit one request to raft. The one exception
    is a message that [Decode] turns into an empty command: [cmd[0]]
    panics before anything is written. *)
Theorem every_message_gets_one_response (s : Server) w sid cid message :
  (Decode w message = inl [] ∧
   handleMessage s w sid cid message = ([], Some IndexOutOfRange)) ∨
  (∃ pre bytes,
     handleMessage s w sid cid message = (pre ++ [EvWrite bytes; EvFlush], None) ∧
     length pre ≤ 1 ∧ Forall (λ e, is_action e = true) pre ∧
     written (handleMessage s w sid cid message).1 = [bytes]).
Proof.
  destruct (handleMessage_shape s w sid cid message)
    as [?|(pre & bytes & Hrun & Hlen & Hpre)]; [by left|right].
  exists pre, bytes. split_and!; try done.
  rewrite Hrun. simpl. by rewrite written_app, written_actions.
Qed.

(** X20. A handler is run only for a command that was decoded, found in
    the command map and authorized, and only on a node outside a cluster or
    for a command that is not to be replicated; the handler is that of the
    plugin the second lookup of the name returns, and it gets the command
    as decoded. *)
Theorem handler_runs_only_when_authorized (s : Server) w sid cid message
    plugin cmd :
  EvHandle plugin cmd ∈ (handleMessage s w sid cid message).1 →
  Decode w message = inl cmd ∧
  ∃ name rest command command',
    cmd = name :: rest ∧
    getCommand_in (range_dispatch w) name = inl command ∧
    AuthorizeConnection w cmd (sc_Command command)
      (GetSubCommand w command cmd) = None ∧
    (IsInCluster s = false ∨ synchronize w command cmd = false) ∧
    getCommand_in (range_plugin w) name = inl command' ∧
    plugin = sc_Plugin command'.
Proof.
  unfold handleMessage.
  destruct (Decode w message) as [cmd'|e]; [|intros Hin; not_in_list Hin].
  destruct cmd' as [|name rest]; [intros Hin; not_in_list Hin|].
  destruct (getCommand_in (range_dispatch w) name) as [command|e] eqn:Hfound;
    [|intros Hin; not_in_list Hin].
  destruct (AuthorizeConnection w _ _ _) as [e|] eqn:Hauth;
    [intros Hin; not_in_list Hin|].
  destruct (IsInCluster s) eqn:Hcluster;
    destruct (synchronize w command (name :: rest)) eqn:Hsync; simpl.
  1:{ intros Hin. by apply replicate_no_handler in Hin. }
  all: destruct (getCommand_in (range_plugin w) name) as [command'|e] eqn:Hfound';
    [|intros Hin; not_in_list Hin].
  all: destruct (HandleCommand w _ _); simpl;
    intros [Heq|Hin]%elem_of_cons; [|not_in_list Hin| |not_in_list Hin];
    injection Heq as -> ->; (split; [done|]);
    exists name, rest, command, command'; split_and!; auto.
Qed.

Lemma handler_runs_only_when_authorized_witness :
  EvHandle plugin_str ["set"; "foo"; "1"]%string
    ∈ (handleMessage (server_SET false) (env_SET false (inl "+OK"%string))
         "node1" "node1-1" "SET foo 1").1 ∧
  Decode (env_SET false (inl "+OK"%string)) "SET foo 1"
    = inl ["set"; "foo"; "1"]%string.
Proof.
  assert (EvHandle plugin_str ["set"; "foo"; "1"]%string
            ∈ (handleMessage (server_SET false)
                 (env_SET false (inl "+OK"%string))
                 "node1" "node1-1" "SET foo 1").1) as Hin.
  { vm_compute. apply list_elem_of_here. }
  split; [exact Hin|].
  exact (proj1 (handler_runs_only_when_authorized _ _ _ _ _ _ _ Hin)).
Defined.

(** X21. A request is submitted to raft only by the leader of a cluster,
    for a command that was decoded, found and authorized and whose
    [synchronize] flag is set; what is submitted is the marshalled request
    made of the server id, the connection id and the command as decoded,
    with a timeout of 500 ms; and no handler is run in that turn. *)
Theorem raft_apply_only_on_leader (s : Server) w sid cid message b t :
  EvRaftApply b t ∈ (handleMessage s w sid cid message).1 →
  t = 500 ∧ isRaftLeader w = true ∧ IsInCluster s = true ∧
  (∀ plugin cmd, EvHandle plugin cmd ∉ (handleMessage s w sid cid message).1) ∧
  ∃ name rest command,
    Decode w message = inl (name :: rest) ∧
    getCommand_in (range_dispatch w) name = inl command ∧
    AuthorizeConnection w (name :: rest) (sc_Command command)
      (GetSubCommand w command (name :: rest)) = None ∧
    synchronize w command (name :: rest) = true ∧
    json_Marshal w (mkApplyRequest sid cid (name :: rest)) = inl b.
Proof.
  unfold handleMessage.
  destruct (Decode w message) as [cmd'|e]; [|intros Hin; not_in_list Hin].
  destruct cmd' as [|name rest]; [intros Hin; not_in_list Hin|].
  destruct (getCommand_in (range_dispatch w) name) as [command|e] eqn:Hfound;
    [|intros Hin; not_in_list Hin].
  destruct (AuthorizeConnection w _ _ _) as [e|] eqn:Hauth;
    [intros Hin; not_in_list Hin|].
  destruct (IsInCluster s) eqn:Hcluster;
    destruct (synchronize w command (name :: rest)) eqn:Hsync; simpl.
  2-4: unfold handlePluginCommand;
    destruct (getCommand_in (range_plugin w) name) as [command'|e];
    [destruct (HandleCommand w _ _)|]; simpl; intros Hin; not_in_list Hin.
  intros Hin.
  assert (t = 500 ∧ isRaftLeader w = true ∧
          json_Marshal w (mkApplyRequest sid cid (name :: rest)) = inl b)
    as (-> & Hleader & Hjson).
  { unfold replicate in Hin.
    destruct (json_Marshal w _) as [b'|e]; [|not_in_list Hin].
    destruct (isRaftLeader w); [|not_in_list Hin].
    apply elem_of_cons in Hin as [Heq|Hin]; [by injection Heq as -> ->|].
    destruct (raft_Apply w b' 500) as [e| |r]; [| |destruct (resp_Error r)];
      not_in_list Hin. }
  split_and!; try done.
  - intros plugin cmd. apply replicate_no_handler.
  - by exists name, rest, command.
Qed.

Lemma raft_apply_only_on_leader_witness :
  EvRaftApply "{}" 500
    ∈ (handleMessage (server_SET true) (env_SET true (inl "+OK"%string))
         "node1" "node1-1" "SET foo 1").1 ∧
  isRaftLeader (env_SET true (inl "+OK"%string)) = true.
Proof.
  assert (EvRaftApply "{}" 500
            ∈ (handleMessage (server_SET true)
                 (env_SET true (inl "+OK"%string))
                 "node1" "node1-1" "SET foo 1").1) as Hin.
  { vm_compute. apply list_elem_of_here. }
  split; [exact Hin|].
  exact (proj1 (proj2 (raft_apply_only_on_leader _ _ _ _ _ _ _ Hin))).
Defined.

Lemma handleMessage_written (s : Server) w sid cid message :
  Decode w message ≠ inl [] →
  ∃ bytes, (handleMessage s w sid cid message).2 = None ∧
           written (handleMessage s w sid cid message).1 = [bytes].
Proof.
  intros Hcmd.
  destruct (handleMessage_shape s w sid cid message)
    as [[? _]|(pre & bytes & Hrun & _ & Hpre)]; [done|].
  exists bytes. rewrite Hrun. simpl. split; [done|].
  by rewrite written_app, written_actions.
Qed.

Lemma handleMessage_no_close (s : Server) w sid cid message e :
  e ∈ (handleMessage s w sid cid message).1 →
  e ≠ EvClose ∧ ∀ why, e ≠ EvPanic why.
Proof.
  destruct (handleMessage_shape s w sid cid message)
    as [[_ ->]|(pre & bytes & -> & _ & Hpre)]; simpl.
  { by intros ?%elem_of_nil. }
  rewrite elem_of_app. intros [Hin|Hin].
  - rewrite Forall_forall in Hpre. apply Hpre in Hin. by destruct e.
  - apply elem_of_cons in Hin as [->|Hin]; [done|].
    apply list_elem_of_singleton in Hin as ->. done.
Qed.

(** X22. In a connection on which no read reports the end of the input and
    no message decodes to an empty command, the client gets exactly one
    response for each message, in the order of the messages: the i-th byte
    string written is the one the turn of the i-th message writes. Reads
    that fail write nothing. *)
Theorem responses_follow_the_messages (s : Server) sid cid input :
  (∀ w, (ReadEOF, w) ∉ input) →
  (∀ message w, (ReadMessage message, w) ∈ input → Decode w message ≠ inl []) →
  Forall2 (λ mw bytes, written (handleMessage s mw.2 sid cid mw.1).1 = [bytes])
    (messages input) (written (handleConnection s sid cid input)).
Proof.
  induction input as [|[rd w] input IH]; intros Heof Hcmd; [constructor|].
  assert (Forall2
            (λ mw bytes, written (handleMessage s mw.2 sid cid mw.1).1 = [bytes])
            (messages input) (written (handleConnection s sid cid input)))
    as Hrest.
  { apply IH.
    - intros w' Hin. apply (Heof w'). by apply list_elem_of_further.
    - intros m w' Hin. apply Hcmd. by apply list_elem_of_further. }
  destruct rd as [|e|message].
  - destruct (Heof w). apply list_elem_of_here.
  - exact Hrest.
  - destruct (handleMessage_written s w sid cid message) as (bytes & Hok & Hw).
    { apply Hcmd, list_elem_of_here. }
    change (messages ((ReadMessage message, w) :: input))
      with ((message, w) :: messages input).
    simpl. destruct (handleMessage s w sid cid message) as [evs [why|]] eqn:Hrun;
      simpl in Hok, Hw; [done|].
    rewrite written_app, Hw. simpl. constructor; [|exact Hrest].
    simpl. by rewrite Hrun.
Qed.

Lemma responses_follow_the_messages_witness :
  Forall2
    (λ mw bytes,
       written (handleMessage (server_SET false) mw.2 "node1" "node1-1" mw.1).1
       = [bytes])
    (messages [(ReadMessage "SET foo 1", env_SET false (inl "+OK"%string));
               (ReadError "reset", env_SET false (inl "+OK"%string));
               (ReadMessage "SET foo 1", env_SET false (inr "denied"%string))])
    (written (handleConnection (server_SET false) "node1" "node1-1"
       [(ReadMessage "SET foo 1", env_SET false (inl "+OK"%string));
        (ReadError "reset", env_SET false (inl "+OK"%string));
        (ReadMessage "SET foo 1", env_SET false (inr "denied"%string))])).
Proof.
  apply responses_follow_the_messages.
  - intros w Hin. not_in_list Hin.
  - intros message w Hin.
    apply elem_of_cons in Hin as [Heq|Hin]; [by injection Heq as -> ->|].
    apply elem_of_cons in Hin as [Heq|Hin]; [discriminate Heq|].
    apply elem_of_cons in Hin as [Heq|Hin]; [by injection Heq as -> ->|].
    not_in_list Hin.
Defined.

(** X23. The loop ends at the first read that reports the end of the
    input: what comes after it is not read, and the run of the connection
    then ends with the close of the connection, or with a panic when a
    message before it was decoded to an empty command. *)
Theorem connection_ends_at_first_EOF (s : Server) sid cid pre w rest :
  handleConnection s sid cid (pre ++ (ReadEOF, w) :: rest)
  = handleConnection s sid cid (pre ++ [(ReadEOF, w)]) ∧
  (last (handleConnection s sid cid (pre ++ (ReadEOF, w) :: rest)) = Some EvClose
   ∨ ∃ why, last (handleConnection s sid cid (pre ++ (ReadEOF, w) :: rest))
            = Some (EvPanic why)).
Proof.
  induction pre as [|[rd w'] pre [IH1 IH2]]; [by split; [|left]|].
  destruct rd as [|e|message]; simpl.
  - by split; [|left].
  - rewrite IH1. split; [done|].
    rewrite <-IH1.
    destruct (handleConnection s sid cid (pre ++ (ReadEOF, w) :: rest));
      [by destruct IH2 as [?|[? ?]]|exact IH2].
  - destruct (handleMessage s w' sid cid message) as [evs [why|]].
    + split; [done|]. right. exists why. apply last_snoc.
    + rewrite IH1. split; [done|]. rewrite <-IH1.
      destruct (handleConnection s sid cid (pre ++ (ReadEOF, w) :: rest))
        as [|e' evs'] eqn:Hrun; [by destruct IH2 as [?|[? ?]]|].
      destruct IH2 as [Hl|[why Hl]]; rewrite last_app, Hl;
        [by left|right; by exists why].
Qed.

(** X24. The connection is closed once and as the very last thing: a
    close among the events is the last event, and it answers a read that
    reported the end of the input. A panic, too, is the last event. *)
Theorem close_is_the_last_event (s : Server) sid cid input i e :
  handleConnection s sid cid input !! i = Some e →
  e = EvClose ∨ (∃ why, e = EvPanic why) →
  S i = length (handleConnection s sid cid input) ∧
  (e = EvClose → ∃ w, (ReadEOF, w) ∈ input).
Proof.
  revert i. induction input as [|[rd w] input IH]; intros i Hi He; [done|].
  destruct rd as [|err|message]; simpl in *.
  - destruct i as [|i]; [|by destruct i].
    split; [done|]. intros _. exists w. apply list_elem_of_here.
  - destruct i as [|i]; simpl in Hi.
    { injection Hi as <-. by destruct He as [?|[? ?]]. }
    destruct (IH i Hi He) as [Hlen Heof]. split; [by rewrite Hlen|].
    intros Hc. destruct (Heof Hc) as [w' ?]. exists w'.
    by apply list_elem_of_further.
  - pose proof (handleMessage_no_close s w sid cid message) as Hturn.
    destruct (handleMessage s w sid cid message) as [evs [why|]]; simpl in *.
    + destruct (decide (i < length evs)) as [Hlt|Hge].
      { rewrite lookup_app_l in Hi by done.
        apply list_elem_of_lookup_2, Hturn in Hi as [Hc Hp].
        destruct He as [->|[why' ->]]; [done|by destruct (Hp why')]. }
      rewrite lookup_app_r in Hi by lia.
      destruct (i - length evs) as [|j] eqn:Hj; [|by destruct j].
      injection Hi as <-. rewrite length_app. simpl.
      split; [lia|done].
    + destruct (decide (i < length evs)) as [Hlt|Hge].
      { rewrite lookup_app_l in Hi by done.
        apply list_elem_of_lookup_2, Hturn in Hi as [Hc Hp].
        destruct He as [->|[why' ->]]; [done|by destruct (Hp why')]. }
      rewrite lookup_app_r in Hi by lia.
      destruct (IH _ Hi He) as [Hlen Heof]. rewrite length_app.
      split; [lia|].
      intros Hc. destruct (Heof Hc) as [w' ?]. exists w'.
      by apply list_elem_of_further.
Qed.

Lemma close_is_the_last_event_witness :
  handleConnection (server_SET false) "node1" "node1-1"
    [(ReadError "reset", env_SET false (inl "+OK"%string));
     (ReadEOF, env_SET false (inl "+OK"%string));
     (ReadMessage "SET foo 1", env_SET false (inl "+OK"%string))] !! 1
  = Some EvClose ∧
  2 = length (handleConnection (server_SET false) "node1" "node1-1"
    [(ReadError "reset", env_SET false (inl "+OK"%string));
     (ReadEOF, env_SET false (inl "+OK"%string));
     (ReadMessage "SET foo 1", env_SET false (inl "+OK"%string))]).
Proof.
  assert (handleConnection (server_SET false) "node1" "node1-1"
    [(ReadError "reset", env_SET false (inl "+OK"%string));
     (ReadEOF, env_SET false (inl "+OK"%string));
     (ReadMessage "SET foo 1", env_SET false (inl "+OK"%string))] !! 1
    = Some EvClose) as Hi by reflexivity.
  split; [exact Hi|].
  exact (proj1 (close_is_the_last_event _ _ _ _ _ _ Hi (or_introl eq_refl))).
Defined.

End dispatcher_more.
